(** * scoutfs: key vectors (kvec.c) and the super block life cycle (super.c)

    A shallow embedding of kvec.c and super.c.  Memory is a
    finite map from addresses to bytes, so that an access outside the mapped
    bytes is a fault ([None]); integers of a fixed width are [Z] with the
    wrap-around written where the C arithmetic can wrap. *)

From Stdlib Require Import ZArith Lia.
From Stdlib.Strings Require Import Byte.
From stdpp Require Import base option list gmap numbers.

Local Open Scope Z_scope.

(** ** Machine integers and bytes *)

(** [u64] and [size_t] arithmetic wraps modulo 2^64. *)
Definition wrap64 (z : Z) : Z := z mod 2 ^ 64.

(** The 32-bit pattern of a value. *)
Definition wrap32 (z : Z) : Z := z mod 2 ^ 32.

(** The conversion [(int)x] of an integer to a signed 32-bit [int]. *)
Definition sint32 (z : Z) : Z := (z + 2 ^ 31) mod 2 ^ 32 - 2 ^ 31.

(** The value of a byte read as [unsigned char] / [u8]. *)
Definition u8_val (b : byte) : Z := Z.of_N (Byte.to_N b).

(** The [u8] holding [z] (modulo 256). *)
Definition u8_of (z : Z) : byte :=
  default x00 (Byte.of_N (Z.to_N (z mod 256))).

(** Memory: the mapped bytes, by address.  [NULL] is address 0. *)
Abbreviation mem := (gmap Z byte).

Definition NULL : Z := 0.

(** Reading [n] bytes from address [p]; a fault when one is not mapped. *)
Fixpoint load (m : mem) (p : Z) (n : nat) : option (list byte) :=
  match n with
  | O => Some []
  | S n' =>
      match m !! p, load m (p + 1) n' with
      | Some b, Some bs => Some (b :: bs)
      | _, _ => None
      end
  end.

(** Writing bytes from address [p] on; a fault when one is not mapped. *)
Fixpoint store (m : mem) (p : Z) (bs : list byte) : option mem :=
  match bs with
  | [] => Some m
  | b :: bs' =>
      match m !! p with
      | Some _ => store (<[p := b]> m) (p + 1) bs'
      | None => None
      end
  end.

(** [memcmp] of lib/string.c: the difference of the first two bytes that
    differ, read as [unsigned char], or 0.  The two ranges are read whole:
    a byte of them that is not mapped is a fault. *)
Fixpoint memcmp_bytes (xs ys : list byte) : Z :=
  match xs, ys with
  | x :: xs', y :: ys' =>
      if decide (u8_val x = u8_val y) then memcmp_bytes xs' ys'
      else u8_val x - u8_val y
  | _, _ => 0
  end.

Definition memcmp (m : mem) (p q : Z) (n : nat) : option Z :=
  match load m p n, load m q n with
  | Some xs, Some ys => Some (memcmp_bytes xs ys)
  | _, _ => None
  end.

(** [memcpy]: the source bytes are read, then written at the destination. *)
Definition memcpy (m : mem) (dst src : Z) (n : nat) : option mem :=
  match load m src n with
  | Some bs => store m dst bs
  | None => None
  end.

(** ** The allocator (linux/slab.h) *)

(** The heap: the mapped bytes and the live allocations, base to size. *)
Record heap := Heap { heap_bytes : gmap Z byte; heap_allocs : gmap Z Z }.

Definition ZERO_SIZE_PTR : Z := 16.

(** Mapping the bytes [bs] from address [p] on. *)
Fixpoint fill (m : mem) (p : Z) (bs : list byte) : mem :=
  match bs with
  | [] => m
  | b :: bs' => <[p := b]> (fill m (p + 1) bs')
  end.

(** Unmapping [n] bytes from address [p] on. *)
Fixpoint unmap (m : mem) (p : Z) (n : nat) : mem :=
  match n with
  | O => m
  | S n' => delete p (unmap m (p + 1) n')
  end.

(** What the allocator answers to one request: failure, or the address of
    the new object and the bytes it happens to hold. *)
Definition alloc_choice : Type := option (Z * list byte).

(** [kmalloc(size, flags)]: [ZERO_SIZE_PTR] for a request of no bytes,
    [NULL] on failure, else the new object, mapped and recorded. *)
Definition kmalloc (h : heap) (size : Z) (c : alloc_choice) : heap * Z :=
  if decide (size = 0) then (h, ZERO_SIZE_PTR)
  else match c with
       | None => (h, NULL)
       | Some (p, init) =>
           (Heap (fill (heap_bytes h) p init) (<[p := size]> (heap_allocs h)), p)
       end.

(** The allocator's contract for a request of [size] bytes on heap [h]: a
    new object is a valid pointer to [size] bytes none of which is mapped. *)
Definition alloc_fresh (h : heap) (size : Z) (c : alloc_choice) : Prop :=
  match c with
  | None => True
  | Some (p, init) =>
      ZERO_SIZE_PTR < p ∧ Z.of_nat (length init) = size ∧
      ∀ a, p <= a < p + size → heap_bytes h !! a = None
  end.

(** [kfree(p)]: nothing for [NULL] and [ZERO_SIZE_PTR]; a live object is
    unmapped and forgotten; anything else is a fault. *)
Definition kfree (h : heap) (p : Z) : option heap :=
  if decide (p <= ZERO_SIZE_PTR) then Some h
  else match heap_allocs h !! p with
       | Some size =>
           Some (Heap (unmap (heap_bytes h) p (Z.to_nat size))
                      (delete p (heap_allocs h)))
       | None => None
       end.

(** ** Linux errno values *)
Definition ENOMEM : Z := 12.
Definition EINVAL : Z := 22.

(** [struct kvec] of linux/uio.h: a base pointer and a length. *)
Record kvec := Kvec { iov_base : Z; iov_len : Z }.

Definition kvec_null : kvec := Kvec NULL 0.

Section Scoutfs.

(** The constants of kvec.h and format.h are parameters of the
    development: it holds for every number of segments and every ring. *)
Variable SCOUTFS_KVEC_NR : nat.

(** ** kvec.c *)

(** Modelled from the spec: [scoutfs_kvec_length] of kvec.h, the sum of the
    segment lengths, as a [size_t]. *)
Definition scoutfs_kvec_length (kv : list kvec) : Z :=
  foldl (λ len s, wrap64 (len + iov_len s)) 0 (take SCOUTFS_KVEC_NR kv).

(** Modelled from the spec: [scoutfs_kvec_init(kvec, ptr, len)] of kvec.h
    makes the vector the single segment [(ptr, len)], the rest empty. *)
Definition scoutfs_kvec_init (ptr len : Z) : list kvec :=
  <[0%nat := Kvec ptr len]> (replicate SCOUTFS_KVEC_NR kvec_null).

(** [struct iter]: [iter_kvec] is the array from the iterator's pointer on. *)
Record iter := Iter {
  iter_kvec : list kvec;
  iter_count : Z;
  iter_off : Z;
  iter_i : nat
}.

(** The loop of [iter_advance]: skip the vectors that [off] has consumed.
    In an array of [SCOUTFS_KVEC_NR] vectors the pointer runs out exactly
    when [i] reaches [SCOUTFS_KVEC_NR]. *)
Fixpoint iter_skip (kv : list kvec) (off : Z) (i : nat) : list kvec * Z * nat :=
  match kv with
  | s :: kv' =>
      if decide ((i < SCOUTFS_KVEC_NR)%nat ∧ iov_len s <= off)
      then iter_skip kv' (off - iov_len s) (S i)
      else (kv, off, i)
  | [] => (kv, off, i)
  end.

Definition iter_advance (it : iter) (len : Z) : iter :=
  let '(kv, off, i) :=
    iter_skip (iter_kvec it) (wrap64 (iter_off it + len)) (iter_i it) in
  Iter kv (wrap64 (iter_count it - len)) off i.

Definition iter_init (kv : list kvec) : iter :=
  iter_advance (Iter kv (scoutfs_kvec_length kv) 0 0) 0.

Definition iter_ptr (it : iter) : Z :=
  if decide (iter_i it < SCOUTFS_KVEC_NR)%nat
  then match iter_kvec it with
       | s :: _ => iov_base s + iter_off it
       | [] => NULL
       end
  else NULL.

(** count of contiguous bytes available at the next vector *)
Definition iter_contig (it : iter) : Z :=
  if decide (iter_i it < SCOUTFS_KVEC_NR)%nat
  then match iter_kvec it with
       | s :: _ => wrap64 (iov_len s - iter_off it)
       | [] => 0
       end
  else 0.

(** The loop of [scoutfs_kvec_memcmp]; [fuel] bounds its iterations. *)
Fixpoint memcmp_loop (fuel : nat) (m : mem) (a_iter b_iter : iter) : option Z :=
  match fuel with
  | O => None
  | S fuel' =>
      let len := Z.min (iter_contig a_iter) (iter_contig b_iter) in
      if decide (len = 0)
      then Some (if decide (iter_contig a_iter ≠ 0) then 1
                 else if decide (iter_contig b_iter ≠ 0) then -1 else 0)
      else
        match memcmp m (iter_ptr a_iter) (iter_ptr b_iter) (Z.to_nat len) with
        | None => None
        | Some ret =>
            if decide (ret = 0)
            then memcmp_loop fuel' m (iter_advance a_iter len)
                                     (iter_advance b_iter len)
            else Some ret
        end
  end.

(** The bytes a vector spans, as a count: every iteration of the loops
    below consumes at least one of them. *)
Definition kvec_fuel (kv : list kvec) : nat :=
  S (foldr (λ s n, (Z.to_nat (iov_len s) + n)%nat) 0%nat kv).

(** Return the result of memcmp between the min of the two total lengths.
    If their shorter lengths are equal than the shorter length is
    considered smaller than the longer. *)
Definition scoutfs_kvec_memcmp (m : mem) (a b : list kvec) : option Z :=
  memcmp_loop (kvec_fuel a) m (iter_init a) (iter_init b).

(** Return -1 if [a,b] doesn't overlap with and is to the left of [c,d],
    1 if it doesn't overlap and is to the right of, and 0 if they overlap. *)
Definition scoutfs_kvec_cmp_overlap (m : mem) (a b c d : list kvec) : option Z :=
  match scoutfs_kvec_memcmp m b c with
  | None => None
  | Some bc =>
      if decide (bc < 0) then Some (-1)
      else match scoutfs_kvec_memcmp m a d with
           | None => None
           | Some ad => Some (if decide (ad > 0) then 1 else 0)
           end
  end.

(** The loop of [scoutfs_kvec_memcpy]; [fuel] bounds its iterations. *)
Fixpoint memcpy_loop (fuel : nat) (m : mem) (dst_iter src_iter : iter)
    (copied : Z) : option (mem * Z) :=
  match fuel with
  | O => None
  | S fuel' =>
      let len := Z.min (iter_contig dst_iter) (iter_contig src_iter) in
      if decide (len = 0) then Some (m, copied)
      else
        match memcpy m (iter_ptr dst_iter) (iter_ptr src_iter) (Z.to_nat len) with
        | None => None
        | Some m' =>
            memcpy_loop fuel' m' (iter_advance dst_iter len)
                        (iter_advance src_iter len) (wrap64 (copied + len))
        end
  end.

(** Copy as much of src as fits in dst.  The number of bytes copied is
    returned (an [int]).  Only the buffers pointed to by dst are changed,
    the kvec elements are not changed. *)
Definition scoutfs_kvec_memcpy (m : mem) (dst src : list kvec) : option (mem * Z) :=
  match memcpy_loop (kvec_fuel src) m (iter_init dst) (iter_init src) 0 with
  | Some (m', copied) => Some (m', sint32 copied)
  | None => None
  end.

Definition scoutfs_kvec_init_null : list kvec :=
  replicate SCOUTFS_KVEC_NR kvec_null.

(** Copy the src key vector into one new allocation in the dst.  The
    existing dst is clobbered.  The source isn't changed.  The result is
    the heap, the new dst and the return value; [c] is the allocator's
    answer to the one request made. *)
Definition scoutfs_kvec_dup_flatten (h : heap) (c : alloc_choice)
    (src : list kvec) : option (heap * list kvec * Z) :=
  let len := scoutfs_kvec_length src in
  let '(h1, ptr) := kmalloc h len c in
  if decide (ptr = NULL) then Some (h1, scoutfs_kvec_init_null, - ENOMEM)
  else
    let dst := scoutfs_kvec_init ptr len in
    match scoutfs_kvec_memcpy (heap_bytes h1) dst src with
    | Some (m', _) => Some (Heap m' (heap_allocs h1), dst, 0)
    | None => None
    end.

(** The loop of [scoutfs_kvec_kfree], from index [i], [n] vectors to go. *)
Fixpoint kvec_kfree_loop (h : heap) (kv : list kvec) (i n : nat)
    : option (heap * list kvec) :=
  match n with
  | O => Some (h, kv)
  | S n' =>
      match kv !! i with
      | None => None
      | Some s =>
          match kfree h (iov_base s) with
          | None => None
          | Some h' =>
              kvec_kfree_loop h' (<[i := Kvec NULL (iov_len s)]> kv) (S i) n'
          end
      end
  end.

(** Free all the set pointers in the kvec. *)
Definition scoutfs_kvec_kfree (h : heap) (kv : list kvec)
    : option (heap * list kvec) :=
  kvec_kfree_loop h kv 0 SCOUTFS_KVEC_NR.

(** The inner loop of [scoutfs_kvec_be_inc] over the bytes [n-1 .. 0] of
    the buffer at [base]; the flag tells that the function returned. *)
Fixpoint be_inc_bytes (m : mem) (base : Z) (n : nat) : option (mem * bool) :=
  match n with
  | O => Some (m, false)
  | S b =>
      match m !! (base + Z.of_nat b) with
      | None => None
      | Some v =>
          let v' := u8_of (u8_val v + 1) in
          let m' := <[base + Z.of_nat b := v']> m in
          if decide (u8_val v' ≠ 0) then Some (m', true)
          else be_inc_bytes m' base b
      end
  end.

(** The outer loop, over the vectors [n-1 .. 0]; the inner index starts at
    [(int)iov_len - 1] and runs while it is not negative. *)
Fixpoint be_inc_loop (m : mem) (kv : list kvec) (n : nat) : option mem :=
  match n with
  | O => Some m
  | S i =>
      match kv !! i with
      | None => None
      | Some s =>
          match be_inc_bytes m (iov_base s)
                  (Z.to_nat (sint32 (iov_len s) - 1 + 1)) with
          | None => None
          | Some (m', true) => Some m'
          | Some (m', false) => be_inc_loop m' kv i
          end
      end
  end.

(** Increase the kvec as though it is a big endian value.  Carry
    increments of the least significant byte as long as it wraps. *)
Definition scoutfs_kvec_be_inc (m : mem) (kv : list kvec) : option mem :=
  be_inc_loop m kv SCOUTFS_KVEC_NR.

Fixpoint be_dec_bytes (m : mem) (base : Z) (n : nat) : option (mem * bool) :=
  match n with
  | O => Some (m, false)
  | S b =>
      match m !! (base + Z.of_nat b) with
      | None => None
      | Some v =>
          let v' := u8_of (u8_val v - 1) in
          let m' := <[base + Z.of_nat b := v']> m in
          if decide (u8_val v' ≠ 255) then Some (m', true)
          else be_dec_bytes m' base b
      end
  end.

Fixpoint be_dec_loop (m : mem) (kv : list kvec) (n : nat) : option mem :=
  match n with
  | O => Some m
  | S i =>
      match kv !! i with
      | None => None
      | Some s =>
          match be_dec_bytes m (iov_base s)
                  (Z.to_nat (sint32 (iov_len s) - 1 + 1)) with
          | None => None
          | Some (m', true) => Some m'
          | Some (m', false) => be_dec_loop m' kv i
          end
      end
  end.

Definition scoutfs_kvec_be_dec (m : mem) (kv : list kvec) : option mem :=
  be_dec_loop m kv SCOUTFS_KVEC_NR.

(** ** super.c *)

Variables SCOUTFS_SUPER_BLKNO SCOUTFS_SUPER_NR SCOUTFS_SUPER_ID : Z.
Variables SCOUTFS_SUPER_MAGIC SCOUTFS_BLOCK_SIZE SCOUTFS_NAME_LEN : Z.

(** Modelled from the spec: [struct scoutfs_block_header] of format.h, the
    header of a replica: checksum, block number and sequence number. *)
Record scoutfs_block_header := BlockHeader {
  hdr_crc : Z;
  hdr_blkno : Z;
  hdr_seq : Z
}.

(** Modelled from the spec: [struct scoutfs_super_block] of format.h, with
    the fields super.c reads: the identifier, the header, the total block
    count and the 16 bytes of the UUID. *)
Record scoutfs_super_block := SuperBlock {
  super_id : Z;
  hdr : scoutfs_block_header;
  total_blocks : Z;
  uuid : list byte
}.

(** [struct scoutfs_sb_info]: the current and the stable super block. *)
Record scoutfs_sb_info := SbInfo {
  super : scoutfs_super_block;
  stable_super : scoutfs_super_block
}.

(** [struct super_block]: the mount's device, as the blocks that can be
    read from it, by block number, and its private info. *)
Record super_block := Sb {
  s_bdev : gmap Z scoutfs_super_block;
  s_fs_info : scoutfs_sb_info
}.

(** Modelled from the spec: [scoutfs_block_read] of block.c, the block
    cache's read of one block of the device: the block, or [None] for a
    read failure (an [ERR_PTR]). *)
Definition scoutfs_block_read (sb : super_block) (nr : Z)
    : option scoutfs_super_block :=
  s_bdev sb !! nr.

(** What a function does besides computing: the blocks it reads and the
    messages it logs, in order. *)
Inductive event :=
  | Ev_block_read (nr : Z)
  | Ev_warn_read (i : Z)
  | Ev_warn_id (i : Z) (bad : Z)
  | Ev_err_no_super
  | Ev_info_using (found : Z) (s : Z).

Definition set_seq (s : scoutfs_super_block) (v : Z) : scoutfs_super_block :=
  SuperBlock (super_id s) (BlockHeader (hdr_crc (hdr s)) (hdr_blkno (hdr s)) v)
             (total_blocks s) (uuid s).

Definition set_blkno (s : scoutfs_super_block) (v : Z) : scoutfs_super_block :=
  SuperBlock (super_id s) (BlockHeader (hdr_crc (hdr s)) v (hdr_seq (hdr s)))
             (total_blocks s) (uuid s).

(** The caller advances the block number and sequence number in the super
    every time it wants to dirty it and eventually write it to reference
    dirty data that's been written. *)
Definition scoutfs_advance_dirty_super (sb : super_block) : super_block :=
  let sbi := s_fs_info sb in
  let stable := super sbi in
  let s1 := set_blkno (super sbi) (wrap64 (hdr_blkno (hdr (super sbi)) + 1)) in
  let s2 := if decide (hdr_blkno (hdr s1) = SCOUTFS_SUPER_BLKNO + SCOUTFS_SUPER_NR)
            then set_blkno s1 SCOUTFS_SUPER_BLKNO else s1 in
  let s3 := set_seq s2 (wrap64 (hdr_seq (hdr s2) + 1)) in
  Sb (s_bdev sb) (SbInfo s3 stable).

(** The state of the loop of [read_supers]: [sbi->super], [found] and the
    events so far. *)
Definition scan_state : Type := scoutfs_super_block * Z * list event.

(** One iteration of the loop of [read_supers], for slot [i]. *)
Definition read_supers_slot (sb : super_block) (st : scan_state) (i : Z)
    : scan_state :=
  let '(cur, found, tr) := st in
  let tr := tr ++ [Ev_block_read (SCOUTFS_SUPER_BLKNO + i)] in
  match scoutfs_block_read sb (SCOUTFS_SUPER_BLKNO + i) with
  | None => (cur, found, tr ++ [Ev_warn_read i])
  | Some s =>
      if decide (super_id s ≠ SCOUTFS_SUPER_ID)
      then (cur, found, tr ++ [Ev_warn_id i (super_id s)])
      else if decide (found < 0 ∨ hdr_seq (hdr s) > hdr_seq (hdr cur))
      then (s, i, tr)
      else (cur, found, tr)
  end.

(** The loop, over the slots in the order given. *)
Definition read_supers_scan (sb : super_block) (order : list Z) : scan_state :=
  foldl (read_supers_slot sb) (super (s_fs_info sb), -1, []) order.

(** What follows the loop. *)
Definition read_supers_finish (sb : super_block) (st : scan_state)
    : Z * super_block * list event :=
  let '(cur, found, tr) := st in
  if decide (found < 0)
  then (- EINVAL, Sb (s_bdev sb) (SbInfo cur (stable_super (s_fs_info sb))),
        tr ++ [Ev_err_no_super])
  else (0, Sb (s_bdev sb) (SbInfo cur cur),
        tr ++ [Ev_info_using found (hdr_seq (hdr cur))]).

(** [read_supers]: the slots are scanned from 0 to [SCOUTFS_SUPER_NR - 1]. *)
Definition read_supers (sb : super_block) : Z * super_block * list event :=
  read_supers_finish sb (read_supers_scan sb (seqZ 0 SCOUTFS_SUPER_NR)).

(** The fields of [struct kstatfs] that [scoutfs_statfs] sets. *)
Record kstatfs := Kstatfs {
  f_type : Z;
  f_bsize : Z;
  f_blocks : Z;
  f_bfree : Z;
  f_bavail : Z;
  f_files : Z;
  f_ffree : Z;
  f_fsid : Z * Z;
  f_namelen : Z;
  f_frsize : Z
}.

(** The collaborators of [scoutfs_statfs]: [scoutfs_buddy_bfree] of buddy.c
    returns an error code and what it leaves in [f_bfree];
    [scoutfs_last_ino] of inode.c returns the last inode number. *)
Variable scoutfs_buddy_bfree : super_block → Z → Z * Z.
Variable scoutfs_last_ino : super_block → Z.

(** The [k]-th little endian [u32] of a byte array. *)
Definition le32_at (bs : list byte) (k : nat) : Z :=
  let b (j : nat) := u8_val (default x00 (bs !! (4 * k + j)%nat)) in
  b 0%nat + b 1%nat * 2 ^ 8 + b 2%nat * 2 ^ 16 + b 3%nat * 2 ^ 24.

(** We fake the number of free inodes value by assuming that we can fill
    free blocks with a certain number of inodes.  The fsid that we report
    is constructed from the xor of the first two and second two little
    endian u32s that make up the uuid bytes. *)
Definition scoutfs_statfs (sb : super_block) (kst : kstatfs) : Z * kstatfs :=
  let s := super (s_fs_info sb) in
  let '(ret, bfree) := scoutfs_buddy_bfree sb (f_bfree kst) in
  if decide (ret ≠ 0)
  then (ret, Kstatfs (f_type kst) (f_bsize kst) (f_blocks kst) bfree
                     (f_bavail kst) (f_files kst) (f_ffree kst) (f_fsid kst)
                     (f_namelen kst) (f_frsize kst))
  else
    let ffree := wrap64 (bfree * 17) in
    let files := wrap64 (ffree + scoutfs_last_ino sb) in
    (0, Kstatfs SCOUTFS_SUPER_MAGIC SCOUTFS_BLOCK_SIZE (total_blocks s)
                bfree bfree files ffree
                (sint32 (Z.lxor (le32_at (uuid s) 0) (le32_at (uuid s) 1)),
                 sint32 (Z.lxor (le32_at (uuid s) 2) (le32_at (uuid s) 3)))
                SCOUTFS_NAME_LEN SCOUTFS_BLOCK_SIZE).

(** ** Keys as byte sequences: what the theorems below are stated with *)

(** The bytes a vector spans: the concatenation of its segments. *)
Fixpoint kvec_bytes (m : mem) (kv : list kvec) : option (list byte) :=
  match kv with
  | [] => Some []
  | s :: kv' =>
      match load m (iov_base s) (Z.to_nat (iov_len s)), kvec_bytes m kv' with
      | Some bs, Some rest => Some (bs ++ rest)
      | _, _ => None
      end
  end.

(** A key vector is an array of [SCOUTFS_KVEC_NR] segments whose lengths
    are [size_t] values. *)
Definition kvec_wf (kv : list kvec) : Prop :=
  length kv = SCOUTFS_KVEC_NR ∧ Forall (λ s, 0 <= iov_len s < 2 ^ 64) kv.


(** The order of keys that [scoutfs_kvec_memcmp] computes, on the bytes
    themselves: the bytes are compared as [unsigned char] up to the shorter
    length, and then the shorter sequence is the smaller. *)
Fixpoint cmp_bytes (xs ys : list byte) : Z :=
  match xs, ys with
  | [], [] => 0
  | [], _ :: _ => -1
  | _ :: _, [] => 1
  | x :: xs', y :: ys' =>
      if decide (u8_val x = u8_val y) then cmp_bytes xs' ys'
      else u8_val x - u8_val y
  end.

(** An iterator over an array of [SCOUTFS_KVEC_NR] vectors: its pointer is
    [iter_i] vectors in, and it stands inside a vector unless the array is
    exhausted. *)
Definition iter_ok (it : iter) : Prop :=
  (iter_i it + length (iter_kvec it) = SCOUTFS_KVEC_NR)%nat ∧
  Forall (λ s, 0 <= iov_len s < 2 ^ 64) (iter_kvec it) ∧
  match iter_kvec it with
  | s :: _ => 0 <= iter_off it < iov_len s
  | [] => True
  end.

(** The bytes an iterator has still to visit. *)
Definition iter_rest (m : mem) (it : iter) : option (list byte) :=
  match iter_kvec it with
  | [] => Some []
  | s :: kv' =>
      match load m (iov_base s + iter_off it)
                   (Z.to_nat (iov_len s - iter_off it)),
            kvec_bytes m kv' with
      | Some bs, Some rest => Some (bs ++ rest)
      | _, _ => None
      end
  end.

(** A key held in memory [m]: a well-formed vector whose bytes are mapped. *)
Definition kvec_key (m : mem) (k : list kvec) : Prop :=
  kvec_wf k ∧ is_Some (kvec_bytes m k).

(** [x <= y] and [x < y] as [scoutfs_kvec_memcmp] decides them. *)
Definition kvec_le (m : mem) (x y : list kvec) : Prop :=
  ∃ r, scoutfs_kvec_memcmp m x y = Some r ∧ r <= 0.

Definition kvec_lt (m : mem) (x y : list kvec) : Prop :=
  ∃ r, scoutfs_kvec_memcmp m x y = Some r ∧ r < 0.

(** The key [k] lies in the closed range [[lo, hi]]. *)
Definition kvec_in_range (m : mem) (k lo hi : list kvec) : Prop :=
  kvec_key m k ∧ kvec_le m lo k ∧ kvec_le m k hi.

(** The big endian value of a byte sequence, most significant byte first. *)
Fixpoint be_value (bs : list byte) : Z :=
  match bs with
  | [] => 0
  | b :: bs' => u8_val b * 256 ^ Z.of_nat (length bs') + be_value bs'
  end.

(** Two segments share no byte. *)
Definition seg_disjoint (s t : kvec) : Prop :=
  iov_len s = 0 ∨ iov_len t = 0 ∨
  iov_base s + iov_len s <= iov_base t ∨ iov_base t + iov_len t <= iov_base s.

(** The segments of a vector are buffers of their own: no two overlap. *)
Fixpoint kvec_disjoint (kv : list kvec) : Prop :=
  match kv with
  | [] => True
  | s :: kv' => Forall (seg_disjoint s) kv' ∧ kvec_disjoint kv'
  end.

(** The lengths of the segments are values of an [int]. *)
Definition kvec_int_lens (kv : list kvec) : Prop :=
  Forall (λ s, 0 <= iov_len s < 2 ^ 31) kv.

(** The common shape of [scoutfs_kvec_be_inc] and [scoutfs_kvec_be_dec]:
    add [d] to the bytes from the last one backwards, as long as the byte
    written is [w], the value a byte wraps to. *)
Fixpoint be_add_bytes (d w : Z) (m : mem) (base : Z) (n : nat)
    : option (mem * bool) :=
  match n with
  | O => Some (m, false)
  | S b =>
      match m !! (base + Z.of_nat b) with
      | None => None
      | Some v =>
          let v' := u8_of (u8_val v + d) in
          let m' := <[base + Z.of_nat b := v']> m in
          if decide (u8_val v' ≠ w) then Some (m', true)
          else be_add_bytes d w m' base b
      end
  end.

Fixpoint be_add_loop (d w : Z) (m : mem) (kv : list kvec) (n : nat)
    : option mem :=
  match n with
  | O => Some m
  | S i =>
      match kv !! i with
      | None => None
      | Some s =>
          match be_add_bytes d w m (iov_base s)
                  (Z.to_nat (sint32 (iov_len s) - 1 + 1)) with
          | None => None
          | Some (m', true) => Some m'
          | Some (m', false) => be_add_loop d w m' kv i
          end
      end
  end.

(** What is added, and the value a byte wraps to: 1 and 0 for an increment,
    -1 and 255 for a decrement. *)
Definition carry_pair (d w : Z) : Prop :=
  (d = 1 ∧ w = 0) ∨ (d = -1 ∧ w = 255).

(** Reading and writing at a list of addresses. *)
Fixpoint loads (m : mem) (l : list Z) : option (list byte) :=
  match l with
  | [] => Some []
  | a :: l' =>
      match m !! a, loads m l' with
      | Some b, Some bs => Some (b :: bs)
      | _, _ => None
      end
  end.

Fixpoint stores (m : mem) (l : list Z) (bs : list byte) : mem :=
  match l, bs with
  | a :: l', b :: bs' => stores (<[a := b]> m) l' bs'
  | _, _ => m
  end.

(** The addresses of the bytes of a vector, in the order of the key, and
    those an iterator has still to visit. *)
Definition kvec_addrs (kv : list kvec) : list Z :=
  concat ((λ s, seqZ (iov_base s) (iov_len s)) <$> kv).

Definition iter_addrs (it : iter) : list Z :=
  match iter_kvec it with
  | [] => []
  | s :: kv' =>
      seqZ (iov_base s + iter_off it) (iov_len s - iter_off it)
      ++ kvec_addrs kv'
  end.

(** The sum of the segment lengths, as a number. *)
Definition kvec_total (kv : list kvec) : Z :=
  foldr (λ s n, iov_len s + n) 0 kv.

(** The vector owns its buffers in heap [h]: every pointer that [kfree]
    does not ignore is a live object, and no later segment names it too. *)
Fixpoint kvec_owned (h : heap) (kv : list kvec) : Prop :=
  match kv with
  | [] => True
  | s :: kv' =>
      (iov_base s <= ZERO_SIZE_PTR ∨
       (is_Some (heap_allocs h !! iov_base s) ∧
        Forall (λ t, iov_base t ≠ iov_base s) kv')) ∧
      kvec_owned h kv'
  end.

(** What [scoutfs_kvec_kfree] leaves of a segment. *)
Definition kvec_freed (s : kvec) : kvec := Kvec NULL (iov_len s).

(** Slot [i] of the ring holds the valid candidate [s]: the block can be
    read and carries the super block identifier. *)
Definition slot_valid (sb : super_block) (i : Z) (s : scoutfs_super_block)
    : Prop :=
  scoutfs_block_read sb (SCOUTFS_SUPER_BLKNO + i) = Some s ∧
  super_id s = SCOUTFS_SUPER_ID.

(** What scanning slot [i] shows: the read, and the warning for a slot
    that is rejected. *)
Definition slot_events (sb : super_block) (i : Z) : list event :=
  Ev_block_read (SCOUTFS_SUPER_BLKNO + i) ::
  match scoutfs_block_read sb (SCOUTFS_SUPER_BLKNO + i) with
  | None => [Ev_warn_read i]
  | Some s =>
      if decide (super_id s ≠ SCOUTFS_SUPER_ID)
      then [Ev_warn_id i (super_id s)] else []
  end.

(** A little endian [u32] from its four bytes. *)
Definition le32 (b0 b1 b2 b3 : byte) : Z :=
  u8_val b0 + u8_val b1 * 2 ^ 8 + u8_val b2 * 2 ^ 16 + u8_val b3 * 2 ^ 24.

(** ** kvec.c: the other functions *)

(** The loop of [scoutfs_kvec_clone], from index [i], [n] vectors to go:
    [dst[i] = src[i]]. *)
Fixpoint kvec_clone_loop (dst src : list kvec) (i n : nat)
    : option (list kvec) :=
  match n with
  | O => Some dst
  | S n' =>
      match src !! i, dst !! i with
      | Some s, Some _ => kvec_clone_loop (<[i := s]> dst) src (S i) n'
      | _, _ => None
      end
  end.

(** Set just the pointers and length fields in the dst vector to point to
    the source vector. *)
Definition scoutfs_kvec_clone (dst src : list kvec) : option (list kvec) :=
  kvec_clone_loop dst src 0 SCOUTFS_KVEC_NR.

(** Clone the source kvec into the dst if the dst is empty or if the src
    kvec is less than the dst. *)
Definition scoutfs_kvec_clone_less (m : mem) (dst src : list kvec)
    : option (list kvec) :=
  if decide (scoutfs_kvec_length dst = 0) then scoutfs_kvec_clone dst src
  else match scoutfs_kvec_memcmp m src dst with
       | None => None
       | Some r =>
           if decide (r < 0) then scoutfs_kvec_clone dst src else Some dst
       end.

(** The loop of [scoutfs_kvec_memcpy_truncate], from index [i], [n]
    vectors to go: [dst[i].iov_len = min(dst[i].iov_len, bytes)], then
    [bytes -= dst[i].iov_len]. *)
Fixpoint memcpy_truncate_loop (dst : list kvec) (bytes : Z) (i n : nat)
    : option (list kvec) :=
  match n with
  | O => Some dst
  | S n' =>
      match dst !! i with
      | None => None
      | Some s =>
          let len := Z.min (iov_len s) bytes in
          memcpy_truncate_loop (<[i := Kvec (iov_base s) len]> dst)
                               (wrap64 (bytes - len)) (S i) n'
      end
  end.

(** Copy bytes in src into dst, stopping if dst is full.  The number of
    copied bytes is returned and the lengths of dst are updated if the size
    changes.  The pointers in dst are not changed.  The [int] copied is
    compared with a [size_t], and assigned to one. *)
Definition scoutfs_kvec_memcpy_truncate (m : mem) (dst src : list kvec)
    : option (mem * list kvec * Z) :=
  match scoutfs_kvec_memcpy m dst src with
  | None => None
  | Some (m', copied) =>
      if decide (wrap64 copied < scoutfs_kvec_length dst)
      then match memcpy_truncate_loop dst (wrap64 copied) 0 SCOUTFS_KVEC_NR with
           | Some dst' => Some (m', dst', copied)
           | None => None
           end
      else Some (m', dst, copied)
  end.

(** What the loop of [scoutfs_kvec_memcpy_truncate] leaves of a vector: its
    first [bytes] bytes. *)
Fixpoint kvec_trunc (kv : list kvec) (bytes : Z) : list kvec :=
  match kv with
  | [] => []
  | s :: kv' =>
      Kvec (iov_base s) (Z.min (iov_len s) bytes)
      :: kvec_trunc kv' (bytes - Z.min (iov_len s) bytes)
  end.

(** [kzalloc(size, flags)] of linux/slab.h: [kmalloc] with [__GFP_ZERO],
    the new object holds zeros. *)
Definition kzalloc (h : heap) (size : Z) (c : alloc_choice) : heap * Z :=
  kmalloc h size
    (match c with
     | Some (p, init) => Some (p, replicate (length init) x00)
     | None => None
     end).

(** The constants of format.h that size and bound the keys. *)
Variables SCOUTFS_MAX_KEY_SIZE SCOUTFS_MAX_UNUSED_KEY : Z.

(** [scoutfs_kvec_alloc_key]: the heap, the vector and the return value;
    [c] is the allocator's answer to the one request made. *)
Definition scoutfs_kvec_alloc_key (h : heap) (c : alloc_choice)
    : heap * list kvec * Z :=
  let len := SCOUTFS_MAX_KEY_SIZE in
  let '(h1, ptr) := kzalloc h len c in
  if decide (ptr = NULL) then (h1, scoutfs_kvec_init_null, - ENOMEM)
  else (h1, scoutfs_kvec_init ptr len, 0).

(** [scoutfs_kvec_init_key]: the vector is again the whole key buffer that
    its first segment points to. *)
Definition scoutfs_kvec_init_key (kv : list kvec) : option (list kvec) :=
  match kv !! 0%nat with
  | Some s => Some (scoutfs_kvec_init (iov_base s) SCOUTFS_MAX_KEY_SIZE)
  | None => None
  end.

(** [scoutfs_kvec_set_max_key]: [*type = SCOUTFS_MAX_UNUSED_KEY] at the
    base of the first segment, which becomes the whole vector, one byte
    long. *)
Definition scoutfs_kvec_set_max_key (m : mem) (kv : list kvec)
    : option (mem * list kvec) :=
  match kv !! 0%nat with
  | None => None
  | Some s =>
      let type := iov_base s in
      match store m type [u8_of SCOUTFS_MAX_UNUSED_KEY] with
      | None => None
      | Some m' => Some (m', scoutfs_kvec_init type 1)
      end
  end.

(** ** super.c: writing the dirty super block *)

(** The checksum that [scoutfs_block_set_crc] of block.c stores in the
    header of a block, a function of the block. *)
Variable scoutfs_block_crc : scoutfs_super_block → Z.

Definition set_crc (s : scoutfs_super_block) (v : Z) : scoutfs_super_block :=
  SuperBlock (super_id s) (BlockHeader v (hdr_blkno (hdr s)) (hdr_seq (hdr s)))
             (total_blocks s) (uuid s).

(** What the block layer answers to one [scoutfs_write_dirty_super]:
    [sb_getblk] has no buffer, or the result of [sync_dirty_buffer] and,
    when that is an error, what can be read from the block afterwards:
    nothing, or some block. *)
Inductive write_choice :=
  | Wr_nobuf
  | Wr_sync (ret : Z) (after : option scoutfs_super_block).

(** The caller is responsible for setting the super header's blkno and seq
    to something reasonable.  The block written is the one that the current
    super block names; the super block info is only read. *)
Definition scoutfs_write_dirty_super (sb : super_block) (c : write_choice)
    : Z * super_block :=
  let sbi := s_fs_info sb in
  let blkno := hdr_blkno (hdr (super sbi)) in
  match c with
  | Wr_nobuf => (- ENOMEM, sb)
  | Wr_sync ret after =>
      let image := set_crc (super sbi) (scoutfs_block_crc (super sbi)) in
      let bdev :=
        if decide (ret = 0) then <[blkno := image]> (s_bdev sb)
        else match after with
             | Some b => <[blkno := b]> (s_bdev sb)
             | None => delete blkno (s_bdev sb)
             end in
      (ret, Sb bdev sbi)
  end.

(** A write that did not reach the device as a valid replica: there was no
    buffer, or the sync failed and the block is then unreadable, carries
    another identifier, or is what it was. *)
Definition write_failed (sb : super_block) (c : write_choice) : Prop :=
  match c with
  | Wr_nobuf => True
  | Wr_sync ret after =>
      ret ≠ 0 ∧
      match after with
      | None => True
      | Some b =>
          super_id b ≠ SCOUTFS_SUPER_ID ∨
          s_bdev sb !! hdr_blkno (hdr (super (s_fs_info sb))) = Some b
      end
  end.

(** Slot [i] holds the candidate that [read_supers] selects: a valid one
    that none exceeds and that every valid one of a lower slot is strictly
    below. *)
Definition slot_selected (sb : super_block) (i : Z) (s : scoutfs_super_block)
    : Prop :=
  0 <= i < SCOUTFS_SUPER_NR ∧ slot_valid sb i s ∧
  (∀ j s', 0 <= j < SCOUTFS_SUPER_NR → slot_valid sb j s' →
           hdr_seq (hdr s') <= hdr_seq (hdr s)) ∧
  (∀ j s', 0 <= j < i → slot_valid sb j s' →
           hdr_seq (hdr s') < hdr_seq (hdr s)).

(** ** Concrete memories, vectors and devices for the examples *)

(** The bytes "ab" at 100, "c" at 200, "a" at 300 and "bc" at 400, each an
    allocation of its own. *)
Definition ex_mem : mem :=
  fill (fill (fill (fill ∅ 100 [x61; x62]) 200 [x63]) 300 [x61]) 400 [x62; x63].

Definition ex_heap : heap :=
  Heap ex_mem (<[100 := 2]> (<[200 := 1]> (<[300 := 1]> (<[400 := 2]> ∅)))).

Definition ex_ab_c : list kvec := [Kvec 100 2; Kvec 200 1].
Definition ex_a_bc : list kvec := [Kvec 300 1; Kvec 400 2].
Definition ex_a : list kvec := [Kvec 300 1; Kvec NULL 0].
Definition ex_bc : list kvec := [Kvec NULL 0; Kvec 400 2].

(** The number 0x00ffff in the two buffers 00 ff and ff. *)
Definition ex_num_mem : mem := fill (fill ∅ 100 [x00; xff]) 200 [xff].
Definition ex_num : list kvec := [Kvec 100 2; Kvec 200 1].

(** A ring of two slots at blocks 16 and 17, the identifier being 7. *)
Definition ex_uuid : list byte :=
  [x01; x02; x03; x04; x10; x20; x30; x40;
   xaa; xbb; xcc; xdd; x0f; x0e; x0d; x0c].

Definition ex_super (nr sq total : Z) : scoutfs_super_block :=
  SuperBlock 7 (BlockHeader 0 nr sq) total ex_uuid.

Definition ex_sbi : scoutfs_sb_info :=
  SbInfo (ex_super 17 5 1024) (ex_super 16 4 1024).

(** Both replicas are valid and carry sequence number 5. *)
Definition ex_sb_tie : super_block :=
  Sb (<[16 := ex_super 16 5 1024]> (<[17 := ex_super 17 5 2048]> ∅)) ex_sbi.

(** Slot 0 has another identifier, slot 1 is valid. *)
Definition ex_sb_one : super_block :=
  Sb (<[16 := SuperBlock 8 (BlockHeader 0 16 9) 1024 ex_uuid]>
        (<[17 := ex_super 17 5 1024]> ∅)) ex_sbi.

(** No block of the ring can be read. *)
Definition ex_sb_none : super_block := Sb ∅ ex_sbi.

Definition ex_kst : kstatfs := Kstatfs 0 0 0 0 0 0 0 (0, 0) 0 0.


(** What a device answers to a sync that fails and leaves the block
    unreadable, and a checksum for the examples. *)
Definition ex_crc (s : scoutfs_super_block) : Z := 99.
Definition ex_sb_mounted : super_block :=
  Sb (s_bdev ex_sb_tie) (SbInfo (ex_super 16 5 1024) (ex_super 16 5 1024)).

(** * Proofs *)

(** ** Bytes and machine integers *)

Lemma u8_val_range b : 0 <= u8_val b < 256.
Proof.
  unfold u8_val. pose proof (Byte.to_N_bounded b). lia.
Qed.

Lemma u8_val_of z : u8_val (u8_of z) = z mod 256.
Proof.
  unfold u8_val, u8_of.
  pose proof (Z.mod_pos_bound z 256 ltac:(lia)) as Hz.
  destruct (Byte.of_N (Z.to_N (z mod 256))) as [b|] eqn:Hb.
  - apply Byte.to_of_N in Hb. simpl. rewrite Hb. lia.
  - apply Byte.of_N_None_iff in Hb. lia.
Qed.

Lemma u8_val_inj b1 b2 : u8_val b1 = u8_val b2 → b1 = b2.
Proof.
  unfold u8_val. intros H. apply N2Z.inj in H.
  pose proof (Byte.of_to_N b1) as H1. pose proof (Byte.of_to_N b2) as H2.
  rewrite H in H1. congruence.
Qed.

Lemma u8_of_val b : u8_of (u8_val b) = b.
Proof.
  apply u8_val_inj. rewrite u8_val_of.
  apply Z.mod_small, u8_val_range.
Qed.

Lemma wrap64_small z : 0 <= z < 2 ^ 64 → wrap64 z = z.
Proof. intros. unfold wrap64. by apply Z.mod_small. Qed.

Lemma sint32_small z : - 2 ^ 31 <= z < 2 ^ 31 → sint32 z = z.
Proof. intros. unfold sint32. rewrite Z.mod_small; lia. Qed.

(** ** Memory *)

Lemma load_length m p n bs : load m p n = Some bs → length bs = n.
Proof.
  revert p bs. induction n as [|n IH]; intros p bs; simpl.
  - by intros [= <-].
  - destruct (m !! p); [|done]. destruct (load m (p + 1) n) eqn:E; [|done].
    intros [= <-]. simpl. f_equal. eauto.
Qed.

Lemma load_app m p n1 n2 :
  load m p (n1 + n2) =
  match load m p n1, load m (p + Z.of_nat n1) n2 with
  | Some xs, Some ys => Some (xs ++ ys)
  | _, _ => None
  end.
Proof.
  revert p. induction n1 as [|n1 IH]; intros p.
  - simpl. rewrite Z.add_0_r. by destruct (load m p n2).
  - cbn [Nat.add load]. rewrite IH.
    replace (p + 1 + Z.of_nat n1) with (p + Z.of_nat (S n1)) by lia.
    destruct (m !! p); [|done].
    destruct (load m (p + 1) n1); [|done].
    by destruct (load m (p + Z.of_nat (S n1)) n2).
Qed.

(** A part of a readable range is readable, and holds that part. *)
Lemma load_sub m p n bs k j :
  load m p n = Some bs → (k + j <= n)%nat →
  load m (p + Z.of_nat k) j = Some (take j (drop k bs)).
Proof.
  intros Hl Hle.
  replace n with (k + (j + (n - k - j)))%nat in Hl by lia.
  rewrite load_app in Hl.
  destruct (load m p k) as [xs|] eqn:Hx; [|done].
  rewrite load_app in Hl.
  destruct (load m (p + Z.of_nat k) j) as [ys|] eqn:Hy; [|done].
  destruct (load m (p + Z.of_nat k + Z.of_nat j) (n - k - j)) as [zs|]; [|done].
  injection Hl as <-.
  apply load_length in Hx, Hy.
  rewrite drop_app_length'; [|done].
  by rewrite take_app_length'.
Qed.

Lemma load_lookup m p n bs (k : nat) :
  load m p n = Some bs → (k < n)%nat → m !! (p + Z.of_nat k) = bs !! k.
Proof.
  revert p k bs. induction n as [|n IH]; intros p k bs; simpl; [lia|].
  destruct (m !! p) eqn:Hp; [|done].
  destruct (load m (p + 1) n) eqn:E; [|done].
  intros [= <-] Hk. destruct k as [|k].
  - by rewrite Z.add_0_r.
  - simpl. rewrite <- (IH (p + 1) k l); [|done|lia]. f_equal. lia.
Qed.

(** Two memories that agree on a range load the same bytes from it. *)
Lemma load_ext m m' p n :
  (∀ a, p <= a < p + Z.of_nat n → m' !! a = m !! a) →
  load m' p n = load m p n.
Proof.
  revert p. induction n as [|n IH]; intros p H; [done|].
  simpl. rewrite H by lia. rewrite IH; [done|].
  intros a Ha. apply H. lia.
Qed.

(** ** The order on byte sequences *)

Lemma cmp_bytes_chunk n xs ys :
  (n <= length xs)%nat → (n <= length ys)%nat →
  cmp_bytes xs ys =
  if decide (memcmp_bytes (take n xs) (take n ys) = 0)
  then cmp_bytes (drop n xs) (drop n ys)
  else memcmp_bytes (take n xs) (take n ys).
Proof.
  revert xs ys. induction n as [|n IH]; intros xs ys Hx Hy.
  - by rewrite !take_0, !drop_0.
  - destruct xs as [|x xs]; [simpl in Hx; lia|].
    destruct ys as [|y ys]; [simpl in Hy; lia|].
    simpl in *. destruct (decide (u8_val x = u8_val y)) as [E|E].
    + apply IH; lia.
    + rewrite decide_False; [done|lia].
Qed.

(** ** Iterators *)

Lemma kvec_bytes_length m kv bs :
  kvec_bytes m kv = Some bs →
  length bs = foldr (λ s n, (Z.to_nat (iov_len s) + n)%nat) 0%nat kv.
Proof.
  revert bs. induction kv as [|s kv IH]; intros bs; simpl.
  - by intros [= <-].
  - destruct (load m _ _) as [xs|] eqn:Hx; [|done].
    destruct (kvec_bytes m kv) as [rest|]; [|done].
    intros [= <-]. rewrite length_app, (load_length _ _ _ _ Hx).
    f_equal. by apply IH.
Qed.

(** Skipping from the start of a vector stops at the start of the first
    vector that is not empty, and passes no byte. *)
Lemma iter_skip_0 m kv i :
  (i + length kv = SCOUTFS_KVEC_NR)%nat →
  Forall (λ s, 0 <= iov_len s < 2 ^ 64) kv →
  ∃ kv2 i2,
    iter_skip kv 0 i = (kv2, 0, i2) ∧
    (i2 + length kv2 = SCOUTFS_KVEC_NR)%nat ∧
    Forall (λ s, 0 <= iov_len s < 2 ^ 64) kv2 ∧
    match kv2 with s :: _ => 0 < iov_len s | [] => True end ∧
    kvec_bytes m kv2 = kvec_bytes m kv.
Proof.
  revert i. induction kv as [|s kv IH]; intros i Hlen Hr.
  - exists [], i. simpl. done.
  - inversion Hr as [|? ? Hs Hr']; subst. simpl in Hlen. simpl iter_skip.
    destruct (decide ((i < SCOUTFS_KVEC_NR)%nat ∧ iov_len s <= 0)) as [[_ H0]|Hn].
    + assert (iov_len s = 0) as E0 by lia.
      destruct (IH (S i)) as (kv2 & i2 & E & H1 & H2 & H3 & H4);
        [lia|done|].
      exists kv2, i2. rewrite E0, Z.sub_0_r. split_and!; try done.
      rewrite H4. simpl. rewrite E0. simpl.
      by destruct (kvec_bytes m kv).
    + exists (s :: kv), i. split_and!; try done; simpl; lia.
Qed.

Lemma iter_init_ok m kv :
  kvec_wf kv →
  iter_ok (iter_init kv) ∧ iter_rest m (iter_init kv) = kvec_bytes m kv.
Proof.
  intros [Hlen Hr]. unfold iter_init, iter_advance. simpl.
  replace (wrap64 (0 + 0)) with 0 by done.
  destruct (iter_skip_0 m kv 0) as (kv2 & i2 & E & H1 & H2 & H3 & H4);
    [lia|done|].
  rewrite E. unfold iter_ok, iter_rest. simpl. split.
  - split_and!; try done. destruct kv2; [done|lia].
  - rewrite <- H4. destruct kv2 as [|s kv2]; [done|].
    simpl. by rewrite Z.add_0_r, Z.sub_0_r.
Qed.

Lemma iter_contig_ok it :
  iter_ok it →
  iter_contig it =
  match iter_kvec it with s :: _ => iov_len s - iter_off it | [] => 0 end.
Proof.
  intros (Hlen & Hr & Hoff). unfold iter_contig.
  destruct (iter_kvec it) as [|s kv] eqn:E.
  - by destruct (decide _).
  - simpl in Hlen. rewrite decide_True by lia.
    inversion Hr; subst. apply wrap64_small. lia.
Qed.

Lemma iter_ptr_ok it s kv :
  iter_ok it → iter_kvec it = s :: kv → iter_ptr it = iov_base s + iter_off it.
Proof.
  intros (Hlen & _) E. unfold iter_ptr. rewrite E in *. simpl in Hlen.
  by rewrite decide_True by lia.
Qed.

(** An exhausted iterator has no byte left, another one has. *)
Lemma iter_contig_0 m it bs :
  iter_ok it → iter_rest m it = Some bs →
  0 <= iter_contig it <= Z.of_nat (length bs) ∧
  (iter_contig it = 0 ↔ bs = []).
Proof.
  intros Hok Hrest. rewrite (iter_contig_ok _ Hok).
  destruct Hok as (Hlen & Hr & Hoff). unfold iter_rest in Hrest.
  destruct (iter_kvec it) as [|s kv]; [by injection Hrest as <-|].
  destruct (load m _ _) as [xs|] eqn:Hx; [|done].
  destruct (kvec_bytes m kv); [|done]. injection Hrest as <-.
  apply load_length in Hx. rewrite length_app. split; [lia|].
  split; [lia|]. intros E. apply (f_equal length) in E.
  rewrite length_app in E. simpl in E. lia.
Qed.

(** One step of an iterator: the next [n] bytes are at its pointer, and
    advancing it by [n] leaves the bytes after them. *)
Lemma iter_advance_ok m it bs n :
  iter_ok it → iter_rest m it = Some bs →
  0 < n <= iter_contig it →
  load m (iter_ptr it) (Z.to_nat n) = Some (take (Z.to_nat n) bs) ∧
  iter_ok (iter_advance it n) ∧
  iter_rest m (iter_advance it n) = Some (drop (Z.to_nat n) bs).
Proof.
  intros Hok Hrest Hn. rewrite (iter_contig_ok _ Hok) in Hn.
  pose proof Hok as (Hlen & Hr & Hoff).
  unfold iter_rest in Hrest. unfold iter_advance.
  destruct (iter_kvec it) as [|s kv] eqn:E; [lia|].
  rewrite (iter_ptr_ok it s kv Hok E).
  inversion Hr as [|? ? Hs Hr']; subst. simpl in Hlen.
  destruct (load m _ _) as [xs|] eqn:Hx; [|done].
  destruct (kvec_bytes m kv) as [rest|] eqn:Hk; [|done].
  injection Hrest as <-.
  pose proof (load_length _ _ _ _ Hx) as Hxl.
  assert (load m (iov_base s + iter_off it) (Z.to_nat n)
          = Some (take (Z.to_nat n) xs)) as Hchunk.
  { pose proof (load_sub m _ _ xs 0 (Z.to_nat n) Hx) as H.
    rewrite Z.add_0_r, drop_0 in H. apply H. lia. }
  split.
  { rewrite Hchunk. f_equal. rewrite take_app_le; [done|lia]. }
  rewrite (wrap64_small (iter_off it + n)) by lia.
  simpl iter_skip.
  destruct (decide ((iter_i it < SCOUTFS_KVEC_NR)%nat
                    ∧ iov_len s <= iter_off it + n)) as [[_ Hge]|Hlt].
  - (* the vector is consumed: continue at the next one that is not empty *)
    assert (iter_off it + n - iov_len s = 0) as -> by lia.
    destruct (iter_skip_0 m kv (S (iter_i it)))
      as (kv2 & i2 & E2 & H1 & H2 & H3 & H4); [lia|done|].
    rewrite E2. unfold iter_ok, iter_rest. simpl. split.
    + split_and!; try done. destruct kv2; [done|lia].
    + rewrite drop_app_le by lia. rewrite drop_ge by lia. simpl.
      rewrite <- Hk, <- H4. destruct kv2 as [|s2 kv2]; [done|].
      simpl. by rewrite Z.add_0_r, Z.sub_0_r.
  - (* the iterator stays inside the vector *)
    assert (iter_off it + n < iov_len s) as Hin by lia.
    unfold iter_ok, iter_rest. simpl. split.
    + split_and!; try done; lia.
    + pose proof (load_sub m _ _ xs (Z.to_nat n)
                    (Z.to_nat (iov_len s - (iter_off it + n))) Hx) as H.
      replace (iov_base s + iter_off it + Z.of_nat (Z.to_nat n))
        with (iov_base s + (iter_off it + n)) in H by lia.
      rewrite H by lia. rewrite Hk. f_equal.
      rewrite drop_app_le by lia. f_equal.
      apply take_ge. rewrite length_drop. lia.
Qed.

(** ** [scoutfs_kvec_memcmp] computes the order of the byte sequences *)

Lemma memcmp_loop_spec m fuel a b la lb :
  iter_ok a → iter_ok b →
  iter_rest m a = Some la → iter_rest m b = Some lb →
  (length la < fuel)%nat →
  memcmp_loop fuel m a b = Some (cmp_bytes la lb).
Proof.
  revert a b la lb. induction fuel as [|fuel IH]; intros a b la lb
    Hoa Hob Hra Hrb Hfuel; [lia|].
  pose proof (iter_contig_0 m a la Hoa Hra) as [Hca Hca0].
  pose proof (iter_contig_0 m b lb Hob Hrb) as [Hcb Hcb0].
  cbn [memcmp_loop]. cbv zeta.
  destruct (decide (Z.min (iter_contig a) (iter_contig b) = 0)) as [Hz|Hnz].
  - f_equal. destruct (decide (iter_contig a ≠ 0)) as [Ha|Ha].
    + assert (iter_contig b = 0) as Hb by lia.
      apply Hcb0 in Hb as ->. destruct la; [|done]. by destruct Ha; apply Hca0.
    + assert (iter_contig a = 0) as Ha0 by lia. apply Hca0 in Ha0 as ->.
      destruct (decide (iter_contig b ≠ 0)) as [Hb|Hb].
      * destruct lb; [|done]. by destruct Hb; apply Hcb0.
      * assert (iter_contig b = 0) as Hb0 by lia. by apply Hcb0 in Hb0 as ->.
  - set (n := Z.min (iter_contig a) (iter_contig b)) in *.
    destruct (iter_advance_ok m a la n Hoa Hra) as (Hla & Hoa' & Hra'); [lia|].
    destruct (iter_advance_ok m b lb n Hob Hrb) as (Hlb & Hob' & Hrb'); [lia|].
    unfold memcmp. rewrite Hla, Hlb.
    rewrite (cmp_bytes_chunk (Z.to_nat n) la lb) by lia.
    destruct (decide (memcmp_bytes _ _ = 0)); [|done].
    apply IH; try done. rewrite length_drop. lia.
Qed.

Lemma scoutfs_kvec_memcmp_spec m a b la lb :
  kvec_wf a → kvec_wf b →
  kvec_bytes m a = Some la → kvec_bytes m b = Some lb →
  scoutfs_kvec_memcmp m a b = Some (cmp_bytes la lb).
Proof.
  intros Ha Hb Hla Hlb. unfold scoutfs_kvec_memcmp.
  destruct (iter_init_ok m a Ha) as [Hoa Hra].
  destruct (iter_init_ok m b Hb) as [Hob Hrb].
  apply memcmp_loop_spec; try done; try congruence.
  unfold kvec_fuel. rewrite (kvec_bytes_length m a la Hla). lia.
Qed.

Lemma cmp_bytes_refl xs : cmp_bytes xs xs = 0.
Proof. induction xs as [|x xs IH]; [done|]. simpl. by rewrite decide_True. Qed.

Lemma cmp_bytes_eq xs ys : cmp_bytes xs ys = 0 → xs = ys.
Proof.
  revert ys. induction xs as [|x xs IH]; intros [|y ys]; simpl; try done.
  destruct (decide (u8_val x = u8_val y)) as [E|E]; [|lia].
  intros H. f_equal; [by apply u8_val_inj|by apply IH].
Qed.

Lemma cmp_bytes_flip xs ys :
  (cmp_bytes xs ys < 0 ↔ cmp_bytes ys xs > 0) ∧
  (cmp_bytes xs ys = 0 ↔ cmp_bytes ys xs = 0).
Proof.
  revert ys. induction xs as [|x xs IH]; intros [|y ys]; simpl; try lia.
  destruct (decide (u8_val x = u8_val y)) as [E|E].
  - rewrite decide_True by done. apply IH.
  - rewrite decide_False by lia. lia.
Qed.

Lemma cmp_bytes_lt_trans xs ys zs :
  cmp_bytes xs ys < 0 → cmp_bytes ys zs < 0 → cmp_bytes xs zs < 0.
Proof.
  revert ys zs. induction xs as [|x xs IH]; intros [|y ys] [|z zs]; simpl;
    try lia.
  destruct (decide (u8_val x = u8_val y)) as [E1|E1];
    destruct (decide (u8_val y = u8_val z)) as [E2|E2];
    destruct (decide (u8_val x = u8_val z)) as [E3|E3]; try lia.
  apply IH.
Qed.

Lemma cmp_bytes_le_trans xs ys zs :
  cmp_bytes xs ys <= 0 → cmp_bytes ys zs <= 0 → cmp_bytes xs zs <= 0.
Proof.
  intros H1 H2.
  destruct (decide (cmp_bytes xs ys = 0)) as [E|E].
  { by apply cmp_bytes_eq in E as ->. }
  destruct (decide (cmp_bytes ys zs = 0)) as [E'|E'].
  { by apply cmp_bytes_eq in E' as <-. }
  pose proof (cmp_bytes_lt_trans xs ys zs). lia.
Qed.

Lemma cmp_bytes_le_lt_trans xs ys zs :
  cmp_bytes xs ys <= 0 → cmp_bytes ys zs < 0 → cmp_bytes xs zs < 0.
Proof.
  intros H1 H2.
  destruct (decide (cmp_bytes xs ys = 0)) as [E|E].
  { by apply cmp_bytes_eq in E as ->. }
  pose proof (cmp_bytes_lt_trans xs ys zs). lia.
Qed.

Lemma cmp_bytes_lt_le_trans xs ys zs :
  cmp_bytes xs ys < 0 → cmp_bytes ys zs <= 0 → cmp_bytes xs zs < 0.
Proof.
  intros H1 H2.
  destruct (decide (cmp_bytes ys zs = 0)) as [E|E].
  { by apply cmp_bytes_eq in E as <-. }
  pose proof (cmp_bytes_lt_trans xs ys zs). lia.
Qed.

Lemma cmp_bytes_prefix xs y ys :
  cmp_bytes xs (xs ++ y :: ys) = -1 ∧ cmp_bytes (xs ++ y :: ys) xs = 1.
Proof.
  induction xs as [|x xs IH]; [done|]. simpl.
  rewrite !decide_True by done. exact IH.
Qed.

(** The relations on keys, read on their bytes. *)
Lemma kvec_le_bytes m x y lx ly :
  kvec_wf x → kvec_wf y →
  kvec_bytes m x = Some lx → kvec_bytes m y = Some ly →
  kvec_le m x y ↔ cmp_bytes lx ly <= 0.
Proof.
  intros Hx Hy Hlx Hly. unfold kvec_le.
  rewrite (scoutfs_kvec_memcmp_spec m x y lx ly) by done.
  split; [by intros (r & [= <-] & H)|eauto].
Qed.

Lemma kvec_lt_bytes m x y lx ly :
  kvec_wf x → kvec_wf y →
  kvec_bytes m x = Some lx → kvec_bytes m y = Some ly →
  kvec_lt m x y ↔ cmp_bytes lx ly < 0.
Proof.
  intros Hx Hy Hlx Hly. unfold kvec_lt.
  rewrite (scoutfs_kvec_memcmp_spec m x y lx ly) by done.
  split; [by intros (r & [= <-] & H)|eauto].
Qed.

(** ** The order of keys: prefixes, splits and ranges *)

(** C3: when the bytes of [a] are a strict prefix of the bytes of [b] (the
    concatenation of [b]'s segments is that of [a]'s followed by at least
    one byte), [scoutfs_kvec_memcmp a b] returns -1 and
    [scoutfs_kvec_memcmp b a] returns 1: the shorter vector sorts first. *)
Theorem scoutfs_kvec_memcmp_prefix m a b la x r :
  kvec_wf a → kvec_wf b →
  kvec_bytes m a = Some la → kvec_bytes m b = Some (la ++ x :: r) →
  scoutfs_kvec_memcmp m a b = Some (-1) ∧
  scoutfs_kvec_memcmp m b a = Some 1.
Proof.
  intros Ha Hb Hla Hlb.
  rewrite (scoutfs_kvec_memcmp_spec m a b _ _ Ha Hb Hla Hlb).
  rewrite (scoutfs_kvec_memcmp_spec m b a _ _ Hb Ha Hlb Hla).
  by destruct (cmp_bytes_prefix la x r) as [-> ->].
Qed.

(** C4: two vectors whose segments concatenate to the same bytes compare
    equal (0), whatever the split into segments; and the result of
    [scoutfs_kvec_memcmp a b] is a function of the two concatenations:
    replacing [a] and [b] by vectors [a'] and [b'] with the same bytes
    gives the same result. *)
Theorem scoutfs_kvec_memcmp_concat m a a' b b' la lb :
  kvec_wf a → kvec_wf a' → kvec_wf b → kvec_wf b' →
  kvec_bytes m a = Some la → kvec_bytes m a' = Some la →
  kvec_bytes m b = Some lb → kvec_bytes m b' = Some lb →
  scoutfs_kvec_memcmp m a a' = Some 0 ∧
  scoutfs_kvec_memcmp m a b = Some (cmp_bytes la lb) ∧
  scoutfs_kvec_memcmp m a' b' = scoutfs_kvec_memcmp m a b.
Proof.
  intros Ha Ha' Hb Hb' Hla Hla' Hlb Hlb'.
  rewrite (scoutfs_kvec_memcmp_spec m a a' la la) by done.
  rewrite (scoutfs_kvec_memcmp_spec m a b la lb) by done.
  rewrite (scoutfs_kvec_memcmp_spec m a' b' la lb) by done.
  by rewrite cmp_bytes_refl.
Qed.

(** C5: [scoutfs_kvec_cmp_overlap a b c d] is -1 if
    [scoutfs_kvec_memcmp b c < 0], else 1 if [scoutfs_kvec_memcmp a d > 0],
    else 0.  For ranges with [a <= b] and [c <= d] it follows that the
    result is 0 exactly when some key lies in both [[a,b]] and [[c,d]],
    -1 exactly when every key of [[a,b]] is below every key of [[c,d]],
    and 1 exactly when every key of [[a,b]] is above every key of
    [[c,d]]. *)
Theorem scoutfs_kvec_cmp_overlap_spec m a b c d :
  kvec_key m a → kvec_key m b → kvec_key m c → kvec_key m d →
  ∃ bc ad res,
    scoutfs_kvec_memcmp m b c = Some bc ∧
    scoutfs_kvec_memcmp m a d = Some ad ∧
    scoutfs_kvec_cmp_overlap m a b c d = Some res ∧
    res = (if decide (bc < 0) then -1 else if decide (ad > 0) then 1 else 0) ∧
    (kvec_le m a b → kvec_le m c d →
     (res = 0 ↔ ∃ k, kvec_in_range m k a b ∧ kvec_in_range m k c d) ∧
     (res = -1 ↔ ∀ k1 k2, kvec_in_range m k1 a b → kvec_in_range m k2 c d →
                          kvec_lt m k1 k2) ∧
     (res = 1 ↔ ∀ k1 k2, kvec_in_range m k1 a b → kvec_in_range m k2 c d →
                         kvec_lt m k2 k1)).
Proof.
  intros [Ha [la Hla]] [Hb [lb Hlb]] [Hc [lc Hlc]] [Hd [ld Hld]].
  exists (cmp_bytes lb lc), (cmp_bytes la ld),
    (if decide (cmp_bytes lb lc < 0) then -1
     else if decide (cmp_bytes la ld > 0) then 1 else 0).
  pose proof (scoutfs_kvec_memcmp_spec m b c lb lc Hb Hc Hlb Hlc) as Ebc.
  pose proof (scoutfs_kvec_memcmp_spec m a d la ld Ha Hd Hla Hld) as Ead.
  split_and!; try done.
  { unfold scoutfs_kvec_cmp_overlap. rewrite Ebc, Ead.
    by destruct (decide (cmp_bytes lb lc < 0)). }
  intros Hab Hcd.
  apply (kvec_le_bytes m a b la lb) in Hab; try done.
  apply (kvec_le_bytes m c d lc ld) in Hcd; try done.
  assert (∀ k lo hi llo lhi, kvec_wf lo → kvec_wf hi →
            kvec_bytes m lo = Some llo → kvec_bytes m hi = Some lhi →
            kvec_in_range m k lo hi ↔
            kvec_wf k ∧ ∃ lk, kvec_bytes m k = Some lk ∧
              cmp_bytes llo lk <= 0 ∧ cmp_bytes lk lhi <= 0) as Hrange.
  { intros k lo hi llo lhi Hlo Hhi Hllo Hlhi. unfold kvec_in_range, kvec_key.
    split.
    - intros [[Hk [lk Hlk]] [H1 H2]]. split; [done|]. exists lk.
      apply (kvec_le_bytes m lo k llo lk) in H1; try done.
      by apply (kvec_le_bytes m k hi lk lhi) in H2.
    - intros [Hk (lk & Hlk & H1 & H2)]. split_and!; [done|by eexists|..].
      + by apply (kvec_le_bytes m lo k llo lk).
      + by apply (kvec_le_bytes m k hi lk lhi). }
  assert (kvec_in_range m a a b ∧ kvec_in_range m b a b ∧
          kvec_in_range m c c d ∧ kvec_in_range m d c d) as (Iaa & Ibb & Icc & Idd).
  { rewrite !Hrange by done. pose proof (cmp_bytes_refl la).
    pose proof (cmp_bytes_refl lb). pose proof (cmp_bytes_refl lc).
    pose proof (cmp_bytes_refl ld).
    split_and!; try done; eexists; split_and!; try done; lia. }
  pose proof (cmp_bytes_flip lb lc) as [Fbc _].
  pose proof (cmp_bytes_flip ld la) as [Fda _].
  split_and!.
  - (* 0: the ranges share a key *)
    split.
    + intros H0.
      assert (cmp_bytes lc lb <= 0 ∧ cmp_bytes la ld <= 0) as [Hcb Had].
      { pose proof (cmp_bytes_flip lc lb) as [? ?].
        repeat case_decide; lia. }
      destruct (decide (cmp_bytes la lc <= 0)) as [Hac|Hac].
      * exists c. split; [|done]. apply (Hrange c a b la lb); try done.
        split; [done|]. by exists lc.
      * exists a. split; [done|]. apply (Hrange a c d lc ld); try done.
        split; [done|]. exists la. split_and!; try done.
        pose proof (cmp_bytes_flip lc la) as [? ?].
        pose proof (cmp_bytes_flip la lc) as [? ?]. lia.
    + intros (k & Hkab & Hkcd).
      apply (Hrange k a b la lb) in Hkab as [Hk (lk & Hlk & H1 & H2)]; try done.
      apply (Hrange k c d lc ld) in Hkcd as [_ (lk' & Hlk' & H3 & H4)]; try done.
      assert (lk' = lk) as -> by congruence.
      pose proof (cmp_bytes_le_trans lc lk lb H3 H2).
      pose proof (cmp_bytes_le_trans la lk ld H1 H4).
      pose proof (cmp_bytes_flip lc lb) as [? ?].
      repeat case_decide; lia.
  - (* -1: [a,b] lies to the left *)
    split.
    + intros Hm. assert (cmp_bytes lb lc < 0) as Hbc.
      { repeat case_decide; lia. }
      intros k1 k2 Hk1 Hk2.
      apply (Hrange k1 a b la lb) in Hk1 as [Hk1 (l1 & Hl1 & _ & H1)]; try done.
      apply (Hrange k2 c d lc ld) in Hk2 as [Hk2 (l2 & Hl2 & H2 & _)]; try done.
      apply (kvec_lt_bytes m k1 k2 l1 l2); try done.
      eapply cmp_bytes_le_lt_trans; [exact H1|].
      eapply cmp_bytes_lt_le_trans; [exact Hbc|exact H2].
    + intros Hall. specialize (Hall b c Ibb Icc).
      apply (kvec_lt_bytes m b c lb lc) in Hall; try done.
      by rewrite decide_True.
  - (* 1: [a,b] lies to the right *)
    split.
    + intros Hp. assert (cmp_bytes ld la < 0) as Hda.
      { repeat case_decide; lia. }
      intros k1 k2 Hk1 Hk2.
      apply (Hrange k1 a b la lb) in Hk1 as [Hk1 (l1 & Hl1 & H1 & _)]; try done.
      apply (Hrange k2 c d lc ld) in Hk2 as [Hk2 (l2 & Hl2 & _ & H2)]; try done.
      apply (kvec_lt_bytes m k2 k1 l2 l1); try done.
      eapply cmp_bytes_le_lt_trans; [exact H2|].
      eapply cmp_bytes_lt_le_trans; [exact Hda|exact H1].
    + intros Hall. specialize (Hall a d Iaa Idd).
      apply (kvec_lt_bytes m d a ld la) in Hall; try done.
      assert (¬ cmp_bytes lb lc < 0).
      { intros Hbc.
        pose proof (cmp_bytes_le_lt_trans la lb lc Hab Hbc).
        pose proof (cmp_bytes_lt_le_trans la lc ld ltac:(done) Hcd).
        lia. }
      rewrite decide_False by done. rewrite decide_True; [done|lia].
Qed.

(** ** Big endian arithmetic *)

Lemma be_inc_bytes_add m base n :
  be_inc_bytes m base n = be_add_bytes 1 0 m base n.
Proof.
  revert m. induction n as [|n IH]; intros m; [done|]. simpl.
  destruct (m !! _); [|done]. by rewrite IH.
Qed.

Lemma be_dec_bytes_add m base n :
  be_dec_bytes m base n = be_add_bytes (-1) 255 m base n.
Proof.
  revert m. induction n as [|n IH]; intros m; [done|]. simpl.
  destruct (m !! _); [|done]. by rewrite IH.
Qed.

Lemma be_inc_loop_add m kv n : be_inc_loop m kv n = be_add_loop 1 0 m kv n.
Proof.
  revert m. induction n as [|n IH]; intros m; [done|]. simpl.
  destruct (kv !! n); [|done]. rewrite be_inc_bytes_add.
  destruct (be_add_bytes _ _ _ _ _) as [[m' []]|]; try done.
Qed.

Lemma be_dec_loop_add m kv n : be_dec_loop m kv n = be_add_loop (-1) 255 m kv n.
Proof.
  revert m. induction n as [|n IH]; intros m; [done|]. simpl.
  destruct (kv !! n); [|done]. rewrite be_dec_bytes_add.
  destruct (be_add_bytes _ _ _ _ _) as [[m' []]|]; try done.
Qed.

Lemma be_value_range bs : 0 <= be_value bs < 256 ^ Z.of_nat (length bs).
Proof.
  induction bs as [|b bs IH]; simpl be_value; [simpl; lia|].
  pose proof (u8_val_range b).
  replace (Z.of_nat (length (b :: bs))) with (Z.succ (Z.of_nat (length bs)))
    by (simpl; lia).
  rewrite Z.pow_succ_r by lia. nia.
Qed.

Lemma be_value_app xs ys :
  be_value (xs ++ ys) = be_value xs * 256 ^ Z.of_nat (length ys) + be_value ys.
Proof.
  induction xs as [|x xs IH]; simpl be_value; [lia|].
  rewrite IH, length_app, Nat2Z.inj_add, Z.pow_add_r by lia. lia.
Qed.

Lemma be_value_inj xs ys :
  length xs = length ys → be_value xs = be_value ys → xs = ys.
Proof.
  revert ys. induction xs as [|x xs IH]; intros [|y ys]; try done.
  simpl. intros [= Hl] Hv. rewrite Hl in Hv.
  pose proof (be_value_range xs) as Hx. pose proof (be_value_range ys) as Hy.
  rewrite Hl in Hx.
  generalize dependent (256 ^ Z.of_nat (length ys)). intros P Hv Hx Hy.
  assert (u8_val x = u8_val y) as E1.
  { destruct (Z.lt_trichotomy (u8_val x) (u8_val y)) as [H|[H|H]]; [|done|].
    - assert ((u8_val x + 1) * P <= u8_val y * P) by nia. lia.
    - assert ((u8_val y + 1) * P <= u8_val x * P) by nia. lia. }
  f_equal; [by apply u8_val_inj|]. apply IH; [done|]. rewrite E1 in Hv. lia.
Qed.

Lemma u8_add_wrap d w v :
  carry_pair d w →
  (u8_val (u8_of (u8_val v + d)) ≠ w →
   u8_val (u8_of (u8_val v + d)) = u8_val v + d) ∧
  (u8_val (u8_of (u8_val v + d)) = w →
   u8_val (u8_of (u8_val v + d)) = u8_val v + d - d * 256).
Proof.
  intros Hd. rewrite u8_val_of. pose proof (u8_val_range v) as Hv.
  destruct Hd as [[-> ->]|[-> ->]].
  - destruct (decide (u8_val v = 255)) as [E|E].
    + rewrite E. done.
    + rewrite Z.mod_small by lia. lia.
  - destruct (decide (u8_val v = 0)) as [E|E].
    + rewrite E. done.
    + rewrite Z.mod_small by lia. lia.
Qed.

Lemma kvec_bytes_app m l1 l2 :
  kvec_bytes m (l1 ++ l2) =
  match kvec_bytes m l1, kvec_bytes m l2 with
  | Some xs, Some ys => Some (xs ++ ys)
  | _, _ => None
  end.
Proof.
  induction l1 as [|s l1 IH]; simpl.
  - by destruct (kvec_bytes m l2).
  - rewrite IH. destruct (load m _ _); [|done].
    destruct (kvec_bytes m l1); [|done].
    destruct (kvec_bytes m l2); [|done]. by rewrite app_assoc.
Qed.

(** Memories that agree on the segments of a vector give it the same bytes. *)
Lemma kvec_bytes_ext m m' kv :
  (∀ s a, s ∈ kv → iov_base s <= a < iov_base s + iov_len s →
          m' !! a = m !! a) →
  kvec_bytes m' kv = kvec_bytes m kv.
Proof.
  induction kv as [|s kv IH]; intros H; [done|]. simpl.
  rewrite (load_ext m m').
  - rewrite IH; [done|]. intros t a Ht. apply H. by right.
  - intros a Ha. apply (H s); [by left|]. lia.
Qed.

Lemma kvec_disjoint_lookup kv i j s t :
  kvec_disjoint kv → (j < i)%nat →
  kv !! j = Some t → kv !! i = Some s → seg_disjoint t s.
Proof.
  revert i j. induction kv as [|u kv IH]; intros i j Hd Hji Hj Hi; [done|].
  destruct Hd as [Hu Hkv]. destruct i as [|i]; [lia|]. simpl in Hi. destruct j as [|j].
  - injection Hj as ->. rewrite list.Forall_forall in Hu. apply Hu.
    by eapply list_elem_of_lookup_2.
  - simpl in Hj. apply (IH i j); [done|lia|done|done].
Qed.

(** The inner loop on one buffer: the bytes [xs] of the buffer become the
    value of [xs] plus [d], with a carry out of the buffer when the loop
    does not stop; nothing else changes. *)
Lemma be_add_bytes_spec d w base n :
  carry_pair d w →
  ∀ m xs, load m base n = Some xs →
  ∃ m' xs' stop,
    be_add_bytes d w m base n = Some (m', stop) ∧
    load m' base n = Some xs' ∧
    be_value xs' =
      be_value xs + d - (if stop then 0 else d * 256 ^ Z.of_nat n) ∧
    (∀ a, ¬ (base <= a < base + Z.of_nat n) → m' !! a = m !! a).
Proof.
  intros Hd. induction n as [|b IH]; intros m xs Hl.
  - injection Hl as <-. exists m, [], false. simpl. split_and!; try done. lia.
  - replace (S b) with (b + 1)%nat in Hl by lia. rewrite load_app in Hl.
    destruct (load m base b) as [ys|] eqn:Hys; [|done].
    simpl in Hl. destruct (m !! (base + Z.of_nat b)) as [v|] eqn:Hv; [|done].
    injection Hl as <-. simpl be_add_bytes. rewrite Hv.
    set (v' := u8_of (u8_val v + d)).
    set (m1 := <[base + Z.of_nat b := v']> m).
    destruct (u8_add_wrap d w v Hd) as [Hstop Hwrap]. fold v' in Hstop, Hwrap.
    assert (load m1 base b = Some ys) as Hys1.
    { rewrite <- Hys. apply load_ext. intros a Ha. unfold m1.
      apply lookup_insert_ne. lia. }
    assert (∀ mx zs, load mx base b = Some zs →
              mx !! (base + Z.of_nat b) = Some v' →
              load mx base (S b) = Some (zs ++ [v'])) as Hsnoc.
    { intros mx zs Hz Hx. replace (S b) with (b + 1)%nat by lia.
      rewrite load_app, Hz. simpl. by rewrite Hx. }
    assert (∀ zs u, be_value (zs ++ [u]) = be_value zs * 256 + u8_val u)
      as Hval.
    { intros zs u. rewrite be_value_app. simpl. lia. }
    destruct (decide (u8_val v' ≠ w)) as [Hne|He].
    + exists m1, (ys ++ [v']), true. split_and!; try done.
      * apply Hsnoc; [done|]. unfold m1. apply lookup_insert_eq.
      * rewrite !Hval, Hstop by done. lia.
      * intros a Ha. unfold m1. apply lookup_insert_ne. lia.
    + assert (u8_val v' = w) as He' by lia. specialize (Hwrap He').
      destruct (IH m1 ys Hys1) as (m' & ys' & stop & E & Hl' & Hv' & Hfr).
      exists m', (ys' ++ [v']), stop. split_and!; try done.
      * apply Hsnoc; [done|]. rewrite Hfr by lia. unfold m1.
        apply lookup_insert_eq.
      * rewrite !Hval, Hv', Hwrap.
        replace (Z.of_nat (S b)) with (Z.succ (Z.of_nat b)) by lia.
        rewrite Z.pow_succ_r by lia. destruct stop; lia.
      * intros a Ha. rewrite Hfr by lia. unfold m1.
        apply lookup_insert_ne. lia.
Qed.

(** The outer loop on the vectors [n-1 .. 0]: the bytes of the first [n]
    segments, as one big endian number, get [d] added, with a carry out
    [c]; nothing outside these segments changes. *)
Lemma be_add_loop_spec d w kv :
  carry_pair d w → kvec_int_lens kv → kvec_disjoint kv →
  ∀ n m bs, (n <= length kv)%nat → kvec_bytes m (take n kv) = Some bs →
  ∃ m' bs' (c : bool),
    be_add_loop d w m kv n = Some m' ∧
    kvec_bytes m' (take n kv) = Some bs' ∧
    length bs' = length bs ∧
    be_value bs' =
      be_value bs + d - (if c then 0 else d * 256 ^ Z.of_nat (length bs)) ∧
    (∀ a, (∀ i s, (i < n)%nat → kv !! i = Some s →
                  ¬ (iov_base s <= a < iov_base s + iov_len s)) →
          m' !! a = m !! a).
Proof.
  intros Hd Hint Hdis. induction n as [|i IH]; intros m bs Hn Hbs.
  - simpl in Hbs. injection Hbs as <-. exists m, [], false.
    simpl. split_and!; try done. lia.
  - destruct (lookup_lt_is_Some_2 kv i) as [s Hs]; [lia|].
    rewrite (take_S_r _ _ _ Hs), kvec_bytes_app in Hbs.
    destruct (kvec_bytes m (take i kv)) as [pre|] eqn:Hpre; [|done].
    simpl in Hbs.
    destruct (load m (iov_base s) (Z.to_nat (iov_len s))) as [xs|] eqn:Hxs;
      [|done].
    injection Hbs as <-. rewrite app_nil_r.
    assert (0 <= iov_len s < 2 ^ 31) as Hlen.
    { unfold kvec_int_lens in Hint. rewrite list.Forall_forall in Hint.
      apply Hint. by eapply list_elem_of_lookup_2. }
    simpl be_add_loop. rewrite Hs.
    replace (sint32 (iov_len s) - 1 + 1) with (iov_len s)
      by (rewrite sint32_small; lia).
    destruct (be_add_bytes_spec d w (iov_base s) (Z.to_nat (iov_len s)) Hd
                m xs Hxs) as (m1 & xs' & stop & E1 & Hxs' & Hv1 & Hfr1).
    rewrite E1. rewrite Z2Nat.id in Hfr1, Hv1 by lia.
    pose proof (load_length _ _ _ _ Hxs) as Lxs.
    pose proof (load_length _ _ _ _ Hxs') as Lxs'.
    assert (∀ j t a, (j < i)%nat → kv !! j = Some t →
              iov_base t <= a < iov_base t + iov_len t →
              ¬ (iov_base s <= a < iov_base s + iov_len s)) as Hsep.
    { intros j t a Hj Ht Ha Ha'.
      pose proof (kvec_disjoint_lookup kv i j s t Hdis Hj Ht Hs) as Hts.
      unfold seg_disjoint in Hts. lia. }
    assert (kvec_bytes m1 (take i kv) = Some pre) as Hpre1.
    { rewrite <- Hpre. apply kvec_bytes_ext. intros t a Ht Ha.
      apply list_elem_of_lookup in Ht as [j Hj].
      apply lookup_take_Some in Hj as [Hj Hji].
      apply Hfr1. by apply (Hsep j t a). }
    destruct stop.
    + exists m1, (pre ++ xs'), true. split_and!; try done.
      * rewrite (take_S_r _ _ _ Hs), kvec_bytes_app, Hpre1. simpl.
        by rewrite Hxs', app_nil_r.
      * rewrite !length_app. lia.
      * rewrite !be_value_app, Hv1. replace (length xs') with (length xs) by lia.
        lia.
      * intros a Ha. apply Hfr1. apply (Ha i s); [lia|done].
    + destruct (IH m1 pre ltac:(lia) Hpre1)
        as (m' & pre' & c & E & Hpre' & Lpre & Hv & Hfr).
      assert (load m' (iov_base s) (Z.to_nat (iov_len s)) = Some xs') as Hxs2.
      { rewrite <- Hxs'. apply load_ext. intros a Ha. apply Hfr.
        intros j t Hj Ht Ha'. apply (Hsep j t a Hj Ht Ha'). lia. }
      exists m', (pre' ++ xs'), c. split_and!; try done.
      * rewrite (take_S_r _ _ _ Hs), kvec_bytes_app, Hpre'. simpl.
        by rewrite Hxs2, app_nil_r.
      * rewrite !length_app. lia.
      * rewrite !be_value_app, Hv, Hv1, length_app, Nat2Z.inj_add,
          Z.pow_add_r by lia.
        replace (length xs') with (length xs) by lia.
        rewrite Lxs, Z2Nat.id by lia. destruct c; lia.
      * intros a Ha. rewrite Hfr.
        -- apply Hfr1. apply (Ha i s); [lia|done].
        -- intros j t Hj. apply Ha. lia.
Qed.

(** The whole vector: its bytes, as one big endian number of that many
    bytes, get [d] added modulo the range of the number. *)
Lemma be_add_loop_value d w m kv bs :
  carry_pair d w → kvec_int_lens kv → kvec_disjoint kv →
  kvec_bytes m kv = Some bs →
  ∃ m' bs',
    be_add_loop d w m kv (length kv) = Some m' ∧
    kvec_bytes m' kv = Some bs' ∧
    length bs' = length bs ∧
    be_value bs' = (be_value bs + d) mod 256 ^ Z.of_nat (length bs).
Proof.
  intros Hd Hint Hdis Hbs.
  destruct (be_add_loop_spec d w kv Hd Hint Hdis (length kv) m bs)
    as (m' & bs' & c & E & Hbs' & Hl & Hv & _); [done|by rewrite firstn_all|].
  rewrite firstn_all in Hbs'. exists m', bs'. split_and!; try done.
  pose proof (be_value_range bs') as Hr. rewrite Hl in Hr.
  set (M := 256 ^ Z.of_nat (length bs)) in *.
  replace (be_value bs + d)
    with (be_value bs' + (if c then 0 else d) * M) by (destruct c; lia).
  rewrite Z_mod_plus_full. symmetry. by apply Z.mod_small.
Qed.

(** Adding [d] and then its opposite gives the bytes back. *)
Lemma be_add_loop_inverse d w d' w' m kv bs :
  carry_pair d w → carry_pair d' w' → d + d' = 0 →
  kvec_int_lens kv → kvec_disjoint kv →
  kvec_bytes m kv = Some bs →
  ∃ m1 bs1 m2,
    be_add_loop d w m kv (length kv) = Some m1 ∧
    kvec_bytes m1 kv = Some bs1 ∧
    length bs1 = length bs ∧
    be_value bs1 = (be_value bs + d) mod 256 ^ Z.of_nat (length bs) ∧
    be_add_loop d' w' m1 kv (length kv) = Some m2 ∧
    kvec_bytes m2 kv = Some bs.
Proof.
  intros Hd Hd' Hdd Hint Hdis Hbs.
  destruct (be_add_loop_value d w m kv bs Hd Hint Hdis Hbs)
    as (m1 & bs1 & E1 & Hbs1 & Hl1 & Hv1).
  destruct (be_add_loop_value d' w' m1 kv bs1 Hd' Hint Hdis Hbs1)
    as (m2 & bs2 & E2 & Hbs2 & Hl2 & Hv2).
  exists m1, bs1, m2. split_and!; try done.
  rewrite Hbs2. f_equal. apply be_value_inj; [lia|].
  rewrite Hv2, Hv1, Hl1, Zplus_mod_idemp_l.
  replace (be_value bs + d + d') with (be_value bs) by lia.
  apply Z.mod_small, be_value_range.
Qed.

(** C6: for a key vector whose segments are buffers of their own (mapped,
    not overlapping, each of a length that fits an [int]),
    [scoutfs_kvec_be_inc] adds 1 to the concatenated bytes read as one big
    endian unsigned number, and [scoutfs_kvec_be_dec] subtracts 1, the carry
    or borrow crossing the segment boundaries; at the extremes the number
    wraps around (modulo 256^length).  An increment followed by a decrement
    of the same vector restores the bytes it had, and so does a decrement
    followed by an increment. *)
Theorem scoutfs_kvec_be_inc_dec m kv bs :
  length kv = SCOUTFS_KVEC_NR → kvec_int_lens kv → kvec_disjoint kv →
  kvec_bytes m kv = Some bs →
  (∃ m1 bs1 m2,
     scoutfs_kvec_be_inc m kv = Some m1 ∧
     kvec_bytes m1 kv = Some bs1 ∧
     length bs1 = length bs ∧
     be_value bs1 = (be_value bs + 1) mod 256 ^ Z.of_nat (length bs) ∧
     scoutfs_kvec_be_dec m1 kv = Some m2 ∧
     kvec_bytes m2 kv = Some bs) ∧
  (∃ m1 bs1 m2,
     scoutfs_kvec_be_dec m kv = Some m1 ∧
     kvec_bytes m1 kv = Some bs1 ∧
     length bs1 = length bs ∧
     be_value bs1 = (be_value bs - 1) mod 256 ^ Z.of_nat (length bs) ∧
     scoutfs_kvec_be_inc m1 kv = Some m2 ∧
     kvec_bytes m2 kv = Some bs).
Proof.
  intros Hlen Hint Hdis Hbs.
  unfold scoutfs_kvec_be_inc, scoutfs_kvec_be_dec. rewrite <- Hlen.
  assert (carry_pair 1 0) as Hinc by (by left).
  assert (carry_pair (-1) 255) as Hdec by (by right).
  split.
  - destruct (be_add_loop_inverse 1 0 (-1) 255 m kv bs)
      as (m1 & bs1 & m2 & H); try done.
    exists m1, bs1, m2. by rewrite !be_inc_loop_add, !be_dec_loop_add.
  - destruct (be_add_loop_inverse (-1) 255 1 0 m kv bs)
      as (m1 & bs1 & m2 & H); try done.
    exists m1, bs1, m2. by rewrite !be_inc_loop_add, !be_dec_loop_add.
Qed.

(** ** Reading and writing at lists of addresses *)

Lemma seqZ_to_nat p n : seqZ p (Z.of_nat (Z.to_nat n)) = seqZ p n.
Proof. unfold seqZ. by rewrite Nat2Z.id. Qed.

Lemma load_loads m p n : load m p n = loads m (seqZ p (Z.of_nat n)).
Proof.
  revert p. induction n as [|n IH]; intros p; [done|].
  rewrite seqZ_cons by lia. simpl load. simpl loads.
  replace (Z.pred (Z.of_nat (S n))) with (Z.of_nat n) by lia.
  replace (Z.succ p) with (p + 1) by lia. by rewrite IH.
Qed.

Lemma loads_app m l1 l2 :
  loads m (l1 ++ l2) =
  match loads m l1, loads m l2 with
  | Some xs, Some ys => Some (xs ++ ys)
  | _, _ => None
  end.
Proof.
  induction l1 as [|a l1 IH]; simpl.
  - by destruct (loads m l2).
  - rewrite IH. destruct (m !! a); [|done].
    destruct (loads m l1); [|done]. by destruct (loads m l2).
Qed.

Lemma loads_length m l bs : loads m l = Some bs → length bs = length l.
Proof.
  revert bs. induction l as [|a l IH]; intros bs; simpl.
  - by intros [= <-].
  - destruct (m !! a); [|done]. destruct (loads m l); [|done].
    intros [= <-]. simpl. f_equal. by apply IH.
Qed.

Lemma loads_take_drop m l bs n :
  loads m l = Some bs →
  loads m (take n l) = Some (take n bs) ∧
  loads m (drop n l) = Some (drop n bs).
Proof.
  intros H. rewrite <- (take_drop n l), loads_app in H.
  destruct (loads m (take n l)) as [xs|] eqn:Hx; [|done].
  destruct (loads m (drop n l)) as [ys|] eqn:Hy; [|done].
  injection H as <-. apply loads_length in Hx as Lx.
  destruct (decide (n <= length l)%nat) as [Hn|Hn].
  - rewrite length_take_le in Lx by done.
    by rewrite take_app_length', drop_app_length'.
  - rewrite take_ge in Lx by lia. rewrite drop_ge in Hy by lia.
    injection Hy as <-. rewrite app_nil_r.
    by rewrite take_ge, drop_ge by lia.
Qed.

Lemma loads_ext m m' l :
  (∀ a, a ∈ l → m' !! a = m !! a) → loads m' l = loads m l.
Proof.
  induction l as [|a l IH]; intros H; [done|]. simpl.
  rewrite H by left. rewrite IH; [done|]. intros b Hb. apply H. by right.
Qed.

Lemma loads_mapped m l bs a : loads m l = Some bs → a ∈ l → is_Some (m !! a).
Proof.
  revert bs. induction l as [|b l IH]; intros bs H Ha; [by inversion Ha|].
  simpl in H. destruct (m !! b) eqn:Hb; [|done].
  destruct (loads m l) eqn:Hl; [|done].
  inversion Ha; subst; [by rewrite Hb|]. by eapply IH.
Qed.

Lemma stores_notin m l bs a : a ∉ l → stores m l bs !! a = m !! a.
Proof.
  revert m bs. induction l as [|b l IH]; intros m bs Ha; [done|].
  destruct bs as [|v bs]; [done|]. simpl.
  rewrite IH by (intros ?; apply Ha; by right).
  apply lookup_insert_ne. intros ->. apply Ha. by left.
Qed.

Lemma stores_mapped m l bs a :
  is_Some (m !! a) → is_Some (stores m l bs !! a).
Proof.
  revert m bs. induction l as [|b l IH]; intros m bs Ha; [done|].
  destruct bs as [|v bs]; [done|]. simpl. apply IH.
  destruct (decide (b = a)) as [->|Hne].
  - by rewrite lookup_insert_eq.
  - by rewrite lookup_insert_ne.
Qed.

Lemma stores_take_drop m l bs n :
  stores (stores m (take n l) (take n bs)) (drop n l) (drop n bs)
  = stores m l bs.
Proof.
  revert m l bs. induction n as [|n IH]; intros m l bs; [done|].
  destruct l as [|a l]; [done|].
  destruct bs as [|v bs]; [simpl; by destruct (drop n l)|].
  simpl. apply IH.
Qed.

Lemma loads_stores m l bs :
  NoDup l → length l = length bs → loads (stores m l bs) l = Some bs.
Proof.
  revert m bs. induction l as [|a l IH]; intros m bs Hnd Hlen.
  - by destruct bs.
  - destruct bs as [|v bs]; [done|]. inversion Hnd; subst. simpl.
    rewrite stores_notin, lookup_insert_eq by done.
    rewrite IH; [done|done|]. simpl in Hlen. lia.
Qed.

Lemma store_stores m p bs :
  (∀ a, p <= a < p + Z.of_nat (length bs) → is_Some (m !! a)) →
  store m p bs = Some (stores m (seqZ p (Z.of_nat (length bs))) bs).
Proof.
  revert m p. induction bs as [|v bs IH]; intros m p H; [done|].
  rewrite seqZ_cons by (simpl; lia). simpl store. simpl stores.
  destruct (H p) as [x ->]; [simpl; lia|].
  replace (Z.pred (Z.of_nat (S (length bs)))) with (Z.of_nat (length bs))
    by lia.
  replace (Z.succ p) with (p + 1) by lia. apply IH.
  intros a Ha. destruct (decide (p = a)) as [->|Hne].
  - by rewrite lookup_insert_eq.
  - rewrite lookup_insert_ne by done. apply H. simpl. lia.
Qed.

Lemma kvec_bytes_loads m kv : kvec_bytes m kv = loads m (kvec_addrs kv).
Proof.
  induction kv as [|s kv IH]; [done|]. unfold kvec_addrs. simpl.
  rewrite loads_app, load_loads, seqZ_to_nat, IH. done.
Qed.

Lemma iter_rest_loads m it : iter_rest m it = loads m (iter_addrs it).
Proof.
  unfold iter_rest, iter_addrs. destruct (iter_kvec it) as [|s kv]; [done|].
  by rewrite loads_app, load_loads, seqZ_to_nat, kvec_bytes_loads.
Qed.

(** ** The addresses an iterator visits *)

Lemma iter_skip_0_addrs kv i :
  Forall (λ s, 0 <= iov_len s < 2 ^ 64) kv →
  kvec_addrs (iter_skip kv 0 i).1.1 = kvec_addrs kv.
Proof.
  revert i. induction kv as [|s kv IH]; intros i Hr; [done|].
  inversion Hr as [|? ? Hs Hr']; subst. simpl iter_skip.
  destruct (decide ((i < SCOUTFS_KVEC_NR)%nat ∧ iov_len s <= 0)) as [[_ H0]|Hn];
    [|done].
  assert (iov_len s = 0) as E by lia.
  rewrite E, Z.sub_0_r, IH by done. unfold kvec_addrs. simpl. by rewrite E.
Qed.

Lemma iter_init_addrs kv :
  kvec_wf kv → iter_addrs (iter_init kv) = kvec_addrs kv.
Proof.
  intros [Hlen Hr]. unfold iter_init, iter_advance. simpl.
  replace (wrap64 (0 + 0)) with 0 by done.
  pose proof (iter_skip_0_addrs kv 0 Hr) as Ha.
  destruct (iter_skip_0 ∅ kv 0) as (kv2 & i2 & E & _ & _ & H3 & _);
    [lia|done|].
  rewrite E in *. simpl in Ha. rewrite <- Ha.
  unfold iter_addrs. simpl. destruct kv2 as [|s kv2]; [done|].
  unfold kvec_addrs. simpl. by rewrite Z.add_0_r, Z.sub_0_r.
Qed.

(** One step of an iterator, on addresses: the next [n] bytes are the [n]
    addresses from its pointer on. *)
Lemma iter_advance_addrs it n :
  iter_ok it → 0 < n <= iter_contig it →
  seqZ (iter_ptr it) n = take (Z.to_nat n) (iter_addrs it) ∧
  iter_addrs (iter_advance it n) = drop (Z.to_nat n) (iter_addrs it).
Proof.
  intros Hok Hn. rewrite (iter_contig_ok _ Hok) in Hn.
  pose proof Hok as (Hlen & Hr & Hoff).
  unfold iter_advance, iter_addrs at 1 3.
  destruct (iter_kvec it) as [|s kv] eqn:E; [lia|].
  rewrite (iter_ptr_ok it s kv Hok E).
  inversion Hr as [|? ? Hs Hr']; subst. simpl in Hlen.
  replace (iov_len s - iter_off it)
    with (n + (iov_len s - iter_off it - n)) by lia.
  rewrite seqZ_app by lia.
  assert (length (seqZ (iov_base s + iter_off it) n) = Z.to_nat n) as Ln
    by apply length_seqZ.
  rewrite <- app_assoc. split.
  { by rewrite take_app_length'. }
  rewrite drop_app_length' by done.
  rewrite (wrap64_small (iter_off it + n)) by lia.
  simpl iter_skip.
  destruct (decide ((iter_i it < SCOUTFS_KVEC_NR)%nat
                    ∧ iov_len s <= iter_off it + n)) as [[_ Hge]|Hlt].
  - assert (iter_off it + n - iov_len s = 0) as -> by lia.
    pose proof (iter_skip_0_addrs kv (S (iter_i it)) Hr') as Ha.
    destruct (iter_skip_0 ∅ kv (S (iter_i it)))
      as (kv2 & i2 & E2 & _ & _ & H3 & _); [lia|done|].
    rewrite E2 in *. simpl in Ha. rewrite seqZ_nil by lia. simpl.
    rewrite <- Ha. unfold iter_addrs. simpl.
    destruct kv2 as [|s2 kv2]; [done|].
    unfold kvec_addrs. simpl. by rewrite Z.add_0_r, Z.sub_0_r.
  - unfold iter_addrs. simpl. do 2 f_equal; lia.
Qed.

(** ** [scoutfs_kvec_memcpy] *)

(** The loop writes the bytes of the source, as many as fit, at the
    addresses of the destination, when these are mapped, distinct and
    apart from the source. *)
Lemma memcpy_loop_spec fuel :
  ∀ m di si c ld ls,
  iter_ok di → iter_ok si →
  iter_rest m di = Some ld → iter_rest m si = Some ls →
  NoDup (iter_addrs di) →
  (∀ a, a ∈ iter_addrs di → a ∉ iter_addrs si) →
  (length ls < fuel)%nat →
  ∃ c', memcpy_loop fuel m di si c = Some (stores m (iter_addrs di) ls, c').
Proof.
  induction fuel as [|fuel IH]; intros m di si c ld ls Hod Hos Hrd Hrs
    Hnd Hdis Hfuel; [lia|].
  pose proof (iter_contig_0 m di ld Hod Hrd) as [Hcd Hcd0].
  pose proof (iter_contig_0 m si ls Hos Hrs) as [Hcs Hcs0].
  pose proof Hrd as Hrd'. pose proof Hrs as Hrs'.
  rewrite iter_rest_loads in Hrd', Hrs'.
  pose proof (loads_length _ _ _ Hrd') as Lld.
  pose proof (loads_length _ _ _ Hrs') as Lls.
  cbn [memcpy_loop]. cbv zeta.
  destruct (decide (Z.min (iter_contig di) (iter_contig si) = 0)) as [Hz|Hnz].
  - exists c. do 2 f_equal.
    destruct (decide (iter_contig di = 0)) as [Hd0|Hd0].
    + apply Hcd0 in Hd0. subst ld. by destruct (iter_addrs di).
    + assert (iter_contig si = 0) as Hs0 by lia. apply Hcs0 in Hs0.
      subst ls. by destruct (iter_addrs di).
  - set (n := Z.min (iter_contig di) (iter_contig si)) in *.
    destruct (iter_advance_ok m di ld n Hod Hrd) as (_ & Hod' & Hrd2); [lia|].
    destruct (iter_advance_ok m si ls n Hos Hrs) as (Hls & Hos' & Hrs2); [lia|].
    destruct (iter_advance_addrs di n Hod) as [Had Had']; [lia|].
    destruct (iter_advance_addrs si n Hos) as [Has Has']; [lia|].
    rewrite <- (take_drop (Z.to_nat n) (iter_addrs di)) in Hnd.
    apply list.NoDup_app in Hnd as (Hnd1 & Hnd2 & Hnd3).
    assert (∀ a, a ∈ drop (Z.to_nat n) (iter_addrs di) → a ∈ iter_addrs di)
      as Hsub.
    { intros a Ha. rewrite <- (take_drop (Z.to_nat n) (iter_addrs di)).
      apply elem_of_app. by right. }
    assert (∀ a, a ∈ take (Z.to_nat n) (iter_addrs di) → a ∈ iter_addrs di)
      as Hsub'.
    { intros a Ha. rewrite <- (take_drop (Z.to_nat n) (iter_addrs di)).
      apply elem_of_app. by left. }
    unfold memcpy. rewrite Hls.
    assert (length (take (Z.to_nat n) ls) = Z.to_nat n) as Lchunk.
    { rewrite length_take_le; lia. }
    rewrite store_stores.
    2:{ intros a Ha. apply (loads_mapped m (iter_addrs di) ld); [done|].
        apply Hsub'. rewrite <- Had. apply elem_of_seqZ. lia. }
    rewrite Lchunk, Z2Nat.id, Had by lia.
    set (m1 := stores m (take (Z.to_nat n) (iter_addrs di))
                        (take (Z.to_nat n) ls)).
    assert (∀ a, a ∉ take (Z.to_nat n) (iter_addrs di) → m1 !! a = m !! a)
      as Hfr by (intros a Ha; by apply stores_notin).
    destruct (IH m1 (iter_advance di n) (iter_advance si n)
                (wrap64 (c + n)) (drop (Z.to_nat n) ld)
                (drop (Z.to_nat n) ls)) as [c' Hc']; try done.
    + rewrite iter_rest_loads, Had'. rewrite (loads_ext m m1).
      * by apply loads_take_drop.
      * intros a Ha. apply Hfr. intros Ha'. by apply (Hnd2 a).
    + rewrite iter_rest_loads, Has'. rewrite (loads_ext m m1).
      * by apply loads_take_drop.
      * intros a Ha. apply Hfr. intros Ha'. apply (Hdis a); [by apply Hsub'|].
        rewrite <- (take_drop (Z.to_nat n) (iter_addrs si)).
        apply elem_of_app. by right.
    + by rewrite Had'.
    + rewrite Had', Has'. intros a Ha Ha'. apply (Hdis a); [by apply Hsub|].
      rewrite <- (take_drop (Z.to_nat n) (iter_addrs si)).
      apply elem_of_app. by right.
    + rewrite length_drop. lia.
    + exists c'. rewrite Hc', Had'. unfold m1. by rewrite stores_take_drop.
Qed.

(** ** [scoutfs_kvec_dup_flatten] *)

Lemma fill_notin m p bs a :
  ¬ (p <= a < p + Z.of_nat (length bs)) → fill m p bs !! a = m !! a.
Proof.
  revert p. induction bs as [|b bs IH]; intros p Ha; [done|]. simpl in *.
  rewrite lookup_insert_ne by lia. apply IH. lia.
Qed.

Lemma fill_loads m p bs :
  loads (fill m p bs) (seqZ p (Z.of_nat (length bs))) = Some bs.
Proof.
  revert p. induction bs as [|b bs IH]; intros p; [done|].
  rewrite seqZ_cons by (simpl; lia). simpl.
  rewrite lookup_insert_eq.
  replace (Z.pred (Z.of_nat (S (length bs)))) with (Z.of_nat (length bs))
    by lia.
  replace (Z.succ p) with (p + 1) by lia.
  rewrite (loads_ext (fill m (p + 1) bs)), IH; [done|].
  intros a Ha. apply elem_of_seqZ in Ha. apply lookup_insert_ne. lia.
Qed.

Lemma kvec_total_length m kv bs :
  Forall (λ s, 0 <= iov_len s < 2 ^ 64) kv →
  kvec_bytes m kv = Some bs → Z.of_nat (length bs) = kvec_total kv.
Proof.
  intros Hr Hbs. rewrite (kvec_bytes_length m kv bs Hbs). clear Hbs.
  induction Hr as [|s kv Hs Hr IH]; [done|]. simpl. lia.
Qed.

Lemma kvec_total_nonneg kv :
  Forall (λ s, 0 <= iov_len s < 2 ^ 64) kv → 0 <= kvec_total kv.
Proof. induction 1 as [|s kv Hs Hr IH]; simpl; lia. Qed.

(** The [size_t] sum of the lengths is their sum when that is a [size_t]. *)
Lemma scoutfs_kvec_length_total kv :
  kvec_wf kv → kvec_total kv < 2 ^ 64 →
  scoutfs_kvec_length kv = kvec_total kv.
Proof.
  intros [Hlen Hr] Ht. unfold scoutfs_kvec_length.
  rewrite <- Hlen, firstn_all.
  assert (∀ acc, 0 <= acc → acc + kvec_total kv < 2 ^ 64 →
            foldl (λ len s, wrap64 (len + iov_len s)) acc kv
            = acc + kvec_total kv) as H.
  { clear Hlen Ht. induction Hr as [|s kv Hs Hr IH]; intros acc H0 H1;
      simpl in *; [lia|].
    pose proof (kvec_total_nonneg kv Hr).
    rewrite wrap64_small by lia. rewrite IH; lia. }
  rewrite H; lia.
Qed.

Lemma scoutfs_kvec_init_cons ptr len :
  (1 <= SCOUTFS_KVEC_NR)%nat →
  scoutfs_kvec_init ptr len
  = Kvec ptr len :: replicate (SCOUTFS_KVEC_NR - 1) kvec_null.
Proof.
  unfold scoutfs_kvec_init. destruct SCOUTFS_KVEC_NR as [|n]; [lia|].
  intros _. simpl. by rewrite Nat.sub_0_r.
Qed.

Lemma kvec_addrs_cons s kv :
  kvec_addrs (s :: kv) = seqZ (iov_base s) (iov_len s) ++ kvec_addrs kv.
Proof. done. Qed.

Lemma kvec_null_addrs n : kvec_addrs (replicate n kvec_null) = [].
Proof.
  induction n as [|n IH]; [done|]. simpl. by rewrite kvec_addrs_cons, IH.
Qed.

Lemma kvec_null_total n : kvec_total (replicate n kvec_null) = 0.
Proof. induction n as [|n IH]; [done|]. simpl. by rewrite IH. Qed.

Lemma scoutfs_kvec_init_wf ptr len :
  (1 <= SCOUTFS_KVEC_NR)%nat → 0 <= len < 2 ^ 64 →
  kvec_wf (scoutfs_kvec_init ptr len) ∧
  kvec_addrs (scoutfs_kvec_init ptr len) = seqZ ptr len ∧
  kvec_total (scoutfs_kvec_init ptr len) = len.
Proof.
  intros Hnr Hlen. rewrite scoutfs_kvec_init_cons by done. split_and!.
  - split.
    + simpl. rewrite length_replicate. lia.
    + constructor; [done|]. apply Forall_replicate. simpl. lia.
  - by rewrite kvec_addrs_cons, kvec_null_addrs, app_nil_r.
  - simpl. rewrite kvec_null_total. lia.
Qed.

(** C7: [scoutfs_kvec_dup_flatten] either fails with -ENOMEM, leaving the
    null vector in dst and the heap as it was, or returns 0 with dst the
    single segment [(ptr, scoutfs_kvec_length src)] over a buffer none of
    whose bytes was mapped before (and which the allocator records, when
    it is not empty).  Then dst holds the bytes of src, so
    [scoutfs_kvec_memcmp dst src] is 0 and the two lengths are equal; the
    bytes of src, as every byte that was mapped, are unchanged. *)
Theorem scoutfs_kvec_dup_flatten_spec h c src bs :
  (1 <= SCOUTFS_KVEC_NR)%nat →
  kvec_wf src → kvec_total src < 2 ^ 64 →
  kvec_bytes (heap_bytes h) src = Some bs →
  alloc_fresh h (scoutfs_kvec_length src) c →
  ∃ h' dst ret,
    scoutfs_kvec_dup_flatten h c src = Some (h', dst, ret) ∧
    ((ret = - ENOMEM ∧ c = None ∧ dst = scoutfs_kvec_init_null ∧ h' = h) ∨
     (ret = 0 ∧ ∃ ptr,
        dst = scoutfs_kvec_init ptr (scoutfs_kvec_length src) ∧
        ptr ≠ NULL ∧
        (∀ a, ptr <= a < ptr + scoutfs_kvec_length src →
              heap_bytes h !! a = None) ∧
        (scoutfs_kvec_length src ≠ 0 →
         heap_allocs h' !! ptr = Some (scoutfs_kvec_length src)) ∧
        kvec_bytes (heap_bytes h') dst = Some bs ∧
        scoutfs_kvec_memcmp (heap_bytes h') dst src = Some 0 ∧
        scoutfs_kvec_length dst = scoutfs_kvec_length src ∧
        kvec_bytes (heap_bytes h') src = Some bs ∧
        (∀ a v, heap_bytes h !! a = Some v → heap_bytes h' !! a = Some v))).
Proof.
  intros Hnr Hwf Htot Hbs Hfresh.
  pose proof Hwf as [Hlen Hr].
  pose proof (scoutfs_kvec_length_total src Hwf Htot) as Elen.
  pose proof (kvec_total_length _ _ _ Hr Hbs) as Ebs.
  pose proof (kvec_total_nonneg src Hr) as Hnn.
  unfold scoutfs_kvec_dup_flatten. cbv zeta.
  set (len := scoutfs_kvec_length src) in *.
  (* what the allocator leaves: a heap [h1] and a pointer [ptr] *)
  assert (let '(h1, ptr) := kmalloc h len c in
          (ptr = NULL ∧ c = None ∧ h1 = h ∧ len ≠ 0) ∨
          (ptr ≠ NULL ∧
           (∃ ld, loads (heap_bytes h1) (seqZ ptr len) = Some ld) ∧
           (∀ a, ptr <= a < ptr + len → heap_bytes h !! a = None) ∧
           (∀ a, ¬ (ptr <= a < ptr + len) →
                 heap_bytes h1 !! a = heap_bytes h !! a) ∧
           (len ≠ 0 → heap_allocs h1 !! ptr = Some len))) as Hk.
  { unfold kmalloc. destruct (decide (len = 0)) as [E0|E0].
    - right. rewrite E0. split_and!; try done.
      + by exists [].
      + intros a Ha. lia.
    - destruct c as [[p init]|]; [|by left].
      destruct Hfresh as (Hp & Hinit & Hnew). right. simpl.
      split_and!; try done.
      + unfold NULL, ZERO_SIZE_PTR in *. lia.
      + exists init. rewrite <- Hinit. apply fill_loads.
      + intros a Ha. apply fill_notin. lia.
      + intros _. apply lookup_insert_eq. }
  destruct (kmalloc h len c) as [h1 ptr].
  destruct Hk as [(-> & -> & -> & Hl0)|(Hptr & [ld Hld] & Hnew & Hold & Hal)].
  { rewrite decide_True by done. eexists _, _, _. split; [done|]. by left. }
  rewrite decide_False by done.
  destruct (scoutfs_kvec_init_wf ptr len Hnr) as (Hdwf & Hdaddr & Hdtot);
    [lia|].
  set (dst := scoutfs_kvec_init ptr len) in *.
  set (m1 := heap_bytes h1) in *.
  (* the source is mapped, so it lies apart from the new buffer *)
  assert (∀ a, a ∈ kvec_addrs src → ¬ (ptr <= a < ptr + len)) as Hapart.
  { intros a Ha Hin. rewrite kvec_bytes_loads in Hbs.
    destruct (loads_mapped _ _ _ a Hbs Ha) as [v Hv].
    rewrite Hnew in Hv; done. }
  assert (kvec_bytes m1 src = Some bs) as Hbs1.
  { rewrite kvec_bytes_loads in *. rewrite <- Hbs. apply loads_ext.
    intros a Ha. apply Hold. by apply Hapart. }
  destruct (iter_init_ok m1 dst Hdwf) as [Hod Hrd].
  destruct (iter_init_ok m1 src Hwf) as [Hos Hrs].
  rewrite kvec_bytes_loads, Hdaddr in Hrd.
  destruct (memcpy_loop_spec (kvec_fuel src) m1 (iter_init dst)
              (iter_init src) 0 ld bs) as [c' Hc']; try done.
  { congruence. }
  { congruence. }
  { rewrite iter_init_addrs, Hdaddr by done. apply NoDup_seqZ. }
  { rewrite !iter_init_addrs, Hdaddr by done. intros a Ha Ha'.
    apply elem_of_seqZ in Ha. by apply (Hapart a). }
  { unfold kvec_fuel. rewrite (kvec_bytes_length m1 src bs Hbs1). lia. }
  unfold scoutfs_kvec_memcpy. rewrite Hc'.
  rewrite iter_init_addrs, Hdaddr by done.
  set (m' := stores m1 (seqZ ptr len) bs).
  assert (kvec_bytes m' dst = Some bs) as Hdst.
  { rewrite kvec_bytes_loads, Hdaddr. apply loads_stores; [apply NoDup_seqZ|].
    rewrite length_seqZ. lia. }
  assert (kvec_bytes m' src = Some bs) as Hsrc.
  { rewrite kvec_bytes_loads in *. rewrite <- Hbs1. apply loads_ext.
    intros a Ha. apply stores_notin. intros Ha'.
    apply elem_of_seqZ in Ha'. by apply (Hapart a). }
  eexists _, _, _. split; [done|]. right. split; [done|].
  exists ptr. simpl. split_and!; try done.
  - rewrite (scoutfs_kvec_memcmp_spec m' dst src bs bs) by done.
    by rewrite cmp_bytes_refl.
  - rewrite (scoutfs_kvec_length_total dst Hdwf); lia.
  - intros a v Hv. unfold m'. rewrite stores_notin.
    + unfold m1. rewrite Hold; [done|]. intros Hin. by rewrite Hnew in Hv.
    + intros Ha. apply elem_of_seqZ in Ha. by rewrite Hnew in Hv.
Qed.

(** ** [scoutfs_kvec_kfree] *)

Lemma kvec_owned_ext h h' kv :
  (∀ t, t ∈ kv → ZERO_SIZE_PTR < iov_base t →
        heap_allocs h' !! iov_base t = heap_allocs h !! iov_base t) →
  kvec_owned h kv → kvec_owned h' kv.
Proof.
  induction kv as [|s kv IH]; intros Hext Hown; [done|].
  destruct Hown as [Hs Hkv]. split.
  - destruct Hs as [Hs|[Hs Hd]]; [by left|].
    destruct (decide (iov_base s <= ZERO_SIZE_PTR)); [by left|]. right.
    split; [|done]. rewrite Hext; [done|by left|lia].
  - apply IH; [|done]. intros t Ht. apply Hext. by right.
Qed.

Lemma kvec_kfree_loop_spec rest :
  ∀ pre h, kvec_owned h rest →
  ∃ h',
    kvec_kfree_loop h (pre ++ rest) (length pre) (length rest)
    = Some (h', pre ++ (kvec_freed <$> rest)) ∧
    (∀ p, heap_allocs h' !! p =
          if decide (ZERO_SIZE_PTR < p ∧ p ∈ (iov_base <$> rest))
          then None else heap_allocs h !! p).
Proof.
  induction rest as [|s rest IH]; intros pre h Hown.
  - exists h. simpl. split; [done|]. intros p.
    rewrite decide_False; [done|]. intros [_ Hp]. by inversion Hp.
  - destruct Hown as [Hs Hrest]. cbn [length kvec_kfree_loop].
    rewrite list_lookup_middle by done.
    assert (<[length pre := kvec_freed s]> (pre ++ s :: rest)
            = (pre ++ [kvec_freed s]) ++ rest) as Eins.
    { rewrite insert_app_r_alt by lia. rewrite Nat.sub_diag. simpl.
      by rewrite <- app_assoc. }
    fold (kvec_freed s). rewrite Eins.
    assert (length (pre ++ [kvec_freed s]) = S (length pre)) as Elen.
    { rewrite length_app. simpl. lia. }
    unfold kfree.
    destruct (decide (iov_base s <= ZERO_SIZE_PTR)) as [Hz|Hz].
    + destruct (IH (pre ++ [kvec_freed s]) h Hrest) as (h' & E & Hal).
      rewrite Elen in E. exists h'. rewrite E. split.
      * by rewrite <- app_assoc.
      * intros p. rewrite Hal. simpl.
        destruct (decide (ZERO_SIZE_PTR < p ∧ p ∈ (iov_base <$> rest)))
          as [[H1 H2]|Hn].
        -- rewrite decide_True; [done|]. split; [done|by right].
        -- rewrite decide_False; [done|]. intros [H1 H2].
           inversion H2; subst; [lia|]. by apply Hn.
    + destruct Hs as [Hs|[[size Hsize] Hd]]; [lia|]. rewrite Hsize.
      set (h1 := Heap _ _).
      assert (kvec_owned h1 rest) as Hrest1.
      { apply (kvec_owned_ext h); [|done]. intros t Ht _. simpl.
        apply lookup_delete_ne. rewrite list.Forall_forall in Hd.
        intros E. by apply (Hd t). }
      destruct (IH (pre ++ [kvec_freed s]) h1 Hrest1) as (h' & E & Hal).
      rewrite Elen in E. exists h'. rewrite E. split.
      * by rewrite <- app_assoc.
      * intros p. rewrite Hal. simpl.
        destruct (decide (ZERO_SIZE_PTR < p ∧ p ∈ (iov_base <$> rest)))
          as [[H1 H2]|Hn].
        -- rewrite decide_True; [done|]. split; [done|by right].
        -- destruct (decide (p = iov_base s)) as [->|Hne].
           ++ rewrite lookup_delete_eq. rewrite decide_True; [done|].
              split; [lia|by left].
           ++ rewrite lookup_delete_ne by done.
              rewrite decide_False; [done|]. intros [H1 H2].
              inversion H2; subst; [done|]. by apply Hn.
Qed.

(** C8, as the code has it: [scoutfs_kvec_kfree] frees the buffer of every
    segment (a vector that owns its buffers is freed without a fault, and
    none of its buffers stays allocated) and sets every pointer to NULL;
    it leaves the lengths of the segments as they were, so the length of
    the vector is unchanged. *)
Theorem scoutfs_kvec_kfree_spec h kv :
  length kv = SCOUTFS_KVEC_NR → kvec_owned h kv →
  ∃ h' kv',
    scoutfs_kvec_kfree h kv = Some (h', kv') ∧
    Forall (λ s, iov_base s = NULL) kv' ∧
    iov_len <$> kv' = iov_len <$> kv ∧
    scoutfs_kvec_length kv' = scoutfs_kvec_length kv ∧
    (∀ s, s ∈ kv → ZERO_SIZE_PTR < iov_base s →
          heap_allocs h' !! iov_base s = None) ∧
    (∀ p, p ∉ (iov_base <$> kv) → heap_allocs h' !! p = heap_allocs h !! p).
Proof.
  intros Hlen Hown. unfold scoutfs_kvec_kfree. rewrite <- Hlen.
  destruct (kvec_kfree_loop_spec kv [] h Hown) as (h' & E & Hal).
  simpl in E. exists h', (kvec_freed <$> kv).
  assert (iov_len <$> (kvec_freed <$> kv) = iov_len <$> kv) as Elens.
  { rewrite <- list_fmap_compose. by apply list_fmap_ext. }
  split_and!; try done.
  - apply Forall_fmap. by apply Forall_true.
  - unfold scoutfs_kvec_length. rewrite <- Hlen, firstn_all.
    rewrite <- (length_fmap kvec_freed kv) at 1. rewrite firstn_all.
    clear. generalize 0. induction kv as [|s kv IH]; intros acc; [done|].
    simpl. apply IH.
  - intros s Hs Hp. rewrite Hal. rewrite decide_True; [done|].
    split; [done|]. by apply list_elem_of_fmap_2.
  - intros p Hp. rewrite Hal. rewrite decide_False; [done|]. by intros [_ ?].
Qed.

(** ** super.c: the scan of the replica slots *)

Lemma slot_valid_fun sb i s s' :
  slot_valid sb i s → slot_valid sb i s' → s = s'.
Proof. intros [H1 _] [H2 _]. congruence. Qed.

(** The loop of [read_supers] over the slots [l], in any order: the
    candidate kept is the first of [l] among the valid ones with the
    greatest sequence number. *)
Lemma read_supers_scan_spec sb l :
  Forall (λ i, 0 <= i) l →
  ∃ cur found tr,
    read_supers_scan sb l = (cur, found, tr) ∧
    tr = concat (slot_events sb <$> l) ∧
    ((found = -1 ∧ cur = super (s_fs_info sb) ∧
      ∀ i s, i ∈ l → ¬ slot_valid sb i s) ∨
     (0 <= found ∧ slot_valid sb found cur ∧
      ∃ l1 l2, l = l1 ++ found :: l2 ∧
        (∀ j s, j ∈ l1 → slot_valid sb j s →
                hdr_seq (hdr s) < hdr_seq (hdr cur)) ∧
        (∀ j s, j ∈ l2 → slot_valid sb j s →
                hdr_seq (hdr s) <= hdr_seq (hdr cur)))).
Proof.
  induction l as [|i l IH] using rev_ind; intros Hpos.
  - exists (super (s_fs_info sb)), (-1), []. split_and!; try done.
    left. split_and!; try done. intros i s Hi. by inversion Hi.
  - apply Forall_app in Hpos as [Hpos Hi]. inversion Hi as [|? ? Hi0 _]; subst.
    destruct (IH Hpos) as (cur & found & tr & E & Htr & Hinv).
    unfold read_supers_scan in *. rewrite foldl_app, E. simpl.
    rewrite fmap_app, concat_app. simpl. rewrite app_nil_r.
    unfold slot_events.
    destruct (scoutfs_block_read sb (SCOUTFS_SUPER_BLKNO + i)) as [s|] eqn:Hrd.
    2:{ (* the block cannot be read *)
      eexists _, _, _. split; [done|]. split.
      { rewrite Htr, <- app_assoc. done. }
      destruct Hinv as [(-> & -> & Hno)|(Hf & Hv & l1 & l2 & -> & H1 & H2)].
      - left. split_and!; try done. intros j s' Hj [Hr Hid].
        apply elem_of_app in Hj as [Hj|Hj]; [by apply (Hno j s')|].
        apply list_elem_of_singleton in Hj as ->. congruence.
      - right. split_and!; try done. exists l1, (l2 ++ [i]).
        split_and!; [by rewrite <- (assoc_L (++))|done|].
        intros j s' Hj [Hr Hid].
        apply elem_of_app in Hj as [Hj|Hj]; [by apply (H2 j)|].
        apply list_elem_of_singleton in Hj as ->. congruence. }
    destruct (decide (super_id s ≠ SCOUTFS_SUPER_ID)) as [Hbad|Hgood].
    { (* the block has another identifier *)
      eexists _, _, _. split; [done|]. split.
      { rewrite Htr, <- app_assoc. done. }
      destruct Hinv as [(-> & -> & Hno)|(Hf & Hv & l1 & l2 & -> & H1 & H2)].
      - left. split_and!; try done. intros j s' Hj [Hr Hid].
        apply elem_of_app in Hj as [Hj|Hj]; [by apply (Hno j s')|].
        apply list_elem_of_singleton in Hj as ->. congruence.
      - right. split_and!; try done. exists l1, (l2 ++ [i]).
        split_and!; [by rewrite <- (assoc_L (++))|done|].
        intros j s' Hj [Hr Hid].
        apply elem_of_app in Hj as [Hj|Hj]; [by apply (H2 j)|].
        apply list_elem_of_singleton in Hj as ->. congruence. }
    assert (super_id s = SCOUTFS_SUPER_ID) as Hid.
    { by destruct (decide (super_id s = SCOUTFS_SUPER_ID)). }
    destruct (decide (found < 0 ∨ hdr_seq (hdr s) > hdr_seq (hdr cur)))
      as [Htake|Hkeep].
    + (* a first or a strictly newer candidate *)
      eexists _, _, _. split; [done|]. split.
      { by rewrite Htr, ?app_nil_r. }
      right. split_and!; try done. exists l, []. split_and!; try done.
      * intros j s' Hj Hs'.
        destruct Hinv as [(-> & -> & Hno)|(Hf & Hv & l1 & l2 & -> & H1 & H2)].
        -- by destruct (Hno j s' Hj).
        -- assert (hdr_seq (hdr s') <= hdr_seq (hdr cur)); [|lia].
           apply elem_of_app in Hj as [Hj|Hj].
           ++ pose proof (H1 j s' Hj Hs'). lia.
           ++ inversion Hj; subst.
              ** by rewrite (slot_valid_fun sb _ _ _ Hs' Hv).
              ** by apply (H2 j).
      * intros j s' Hj. by inversion Hj.
    + (* an older candidate, or one of the same age *)
      eexists _, _, _. split; [done|]. split.
      { by rewrite Htr, ?app_nil_r. }
      destruct Hinv as [(-> & -> & Hno)|(Hf & Hv & l1 & l2 & -> & H1 & H2)];
        [lia|].
      right. split_and!; try done. exists l1, (l2 ++ [i]).
      split_and!; [by rewrite <- (assoc_L (++))|done|].
      intros j s' Hj [Hr Hid'].
      apply elem_of_app in Hj as [Hj|Hj]; [by apply (H2 j)|].
      apply list_elem_of_singleton in Hj as ->.
      assert (s' = s) as -> by congruence. lia.
Qed.

Lemma seqZ_split n l1 x l2 :
  seqZ 0 n = l1 ++ x :: l2 →
  0 <= x < n ∧ (∀ j, j ∈ l1 → 0 <= j < x) ∧ (∀ j, j ∈ l2 → x < j < n).
Proof.
  intros E.
  assert (∀ k j, (l1 ++ x :: l2) !! k = Some j → j = Z.of_nat k ∧ j < n) as H.
  { intros k j Hk. rewrite <- E in Hk. apply lookup_seqZ in Hk. lia. }
  destruct (H (length l1) x) as [Hx Hxn]; [by apply list_lookup_middle|].
  split_and!; [lia|lia|..].
  - intros j Hj. apply list_elem_of_lookup in Hj as [k Hk].
    pose proof (lookup_lt_Some _ _ _ Hk).
    destruct (H k j); [by rewrite lookup_app_l|]. lia.
  - intros j Hj. apply list_elem_of_lookup in Hj as [k Hk].
    destruct (H (length l1 + S k)%nat j); [|lia].
    rewrite lookup_app_r by lia.
    by replace (length l1 + S k - length l1)%nat with (S k) by lia.
Qed.

Lemma elem_of_seqZ_0 n i : i ∈ seqZ 0 n ↔ 0 <= i < n.
Proof. rewrite elem_of_seqZ. lia. Qed.

(** The scan in any order of the slots of the ring. *)
Lemma read_supers_scan_perm sb order :
  order ≡ₚ seqZ 0 SCOUTFS_SUPER_NR →
  ∃ cur found tr,
    read_supers_scan sb order = (cur, found, tr) ∧
    tr = concat (slot_events sb <$> order) ∧
    ((found = -1 ∧ cur = super (s_fs_info sb) ∧
      ∀ i s, 0 <= i < SCOUTFS_SUPER_NR → ¬ slot_valid sb i s) ∨
     (0 <= found < SCOUTFS_SUPER_NR ∧ slot_valid sb found cur ∧
      ∀ j s, 0 <= j < SCOUTFS_SUPER_NR → slot_valid sb j s →
             hdr_seq (hdr s) <= hdr_seq (hdr cur))).
Proof.
  intros Hperm.
  assert (∀ i, i ∈ order ↔ 0 <= i < SCOUTFS_SUPER_NR) as Hin.
  { intros i. by rewrite Hperm, elem_of_seqZ_0. }
  destruct (read_supers_scan_spec sb order)
    as (cur & found & tr & E & Htr & Hinv).
  { apply list.Forall_forall. intros i Hi. apply Hin in Hi. lia. }
  exists cur, found, tr. split_and!; try done.
  destruct Hinv as [(-> & -> & Hno)|(Hf & Hv & l1 & l2 & El & H1 & H2)].
  - left. split_and!; try done. intros i s Hi. apply Hno. by apply Hin.
  - right. split_and!; try done.
    + apply Hin. rewrite El. apply elem_of_app. right. by left.
    + intros j s Hj Hs. apply Hin in Hj. rewrite El in Hj.
      apply elem_of_app in Hj as [Hj|Hj].
      * pose proof (H1 j s Hj Hs). lia.
      * inversion Hj; subst; [|by apply (H2 j)].
        by rewrite (slot_valid_fun sb _ _ _ Hs Hv).
Qed.

(** C1: [read_supers] reads every slot of the ring, in order; a slot that
    cannot be read or that has another identifier is warned about and
    skipped, and the scan goes on.  With no valid candidate it fails with
    -EINVAL and leaves the super block info as it was.  Otherwise it
    returns 0 with the current and the stable super block both set to a
    valid candidate whose sequence number no valid candidate exceeds; and
    when the sequence number of one valid candidate is strictly the
    highest, that candidate is the one selected, in whatever order the
    slots are scanned. *)
Theorem read_supers_spec sb :
  ∃ ret sb' tr,
    read_supers sb = (ret, sb', tr) ∧
    s_bdev sb' = s_bdev sb ∧
    (∃ last,
       tr = concat (slot_events sb <$> seqZ 0 SCOUTFS_SUPER_NR) ++ [last]) ∧
    ((ret = - EINVAL ∧ s_fs_info sb' = s_fs_info sb ∧
      ∀ i s, 0 <= i < SCOUTFS_SUPER_NR → ¬ slot_valid sb i s) ∨
     (ret = 0 ∧ ∃ i s,
        0 <= i < SCOUTFS_SUPER_NR ∧ slot_valid sb i s ∧
        s_fs_info sb' = SbInfo s s ∧
        ∀ j s', 0 <= j < SCOUTFS_SUPER_NR → slot_valid sb j s' →
                hdr_seq (hdr s') <= hdr_seq (hdr s))) ∧
    (∀ order i s,
       order ≡ₚ seqZ 0 SCOUTFS_SUPER_NR →
       0 <= i < SCOUTFS_SUPER_NR → slot_valid sb i s →
       (∀ j s', 0 <= j < SCOUTFS_SUPER_NR → j ≠ i → slot_valid sb j s' →
                hdr_seq (hdr s') < hdr_seq (hdr s)) →
       (read_supers_finish sb (read_supers_scan sb order)).1
       = (0, Sb (s_bdev sb) (SbInfo s s))).
Proof.
  unfold read_supers.
  destruct (read_supers_scan_perm sb (seqZ 0 SCOUTFS_SUPER_NR))
    as (cur & found & tr & E & Htr & Hinv); [done|].
  rewrite E. unfold read_supers_finish.
  destruct Hinv as [(-> & -> & Hno)|(Hf & Hv & Hmax)].
  - rewrite decide_True by lia. eexists _, _, _. split; [done|].
    split_and!; try done.
    + eexists. by rewrite Htr.
    + left. split_and!; try done. simpl. by destruct (s_fs_info sb).
    + intros order i s Hperm Hi Hs _. by destruct (Hno i s).
  - rewrite decide_False by lia. eexists _, _, _. split; [done|].
    split_and!; try done.
    + eexists. by rewrite Htr.
    + right. split; [done|]. by exists found, cur.
    + intros order i s Hperm Hi Hs Hstrict.
      destruct (read_supers_scan_perm sb order Hperm)
        as (cur' & found' & tr' & E' & _ & Hinv').
      rewrite E'.
      destruct Hinv' as [(-> & -> & Hno)|(Hf' & Hv' & Hmax')];
        [by destruct (Hno i s)|].
      rewrite decide_False by lia. simpl.
      destruct (decide (found' = i)) as [->|Hne].
      * by rewrite (slot_valid_fun sb _ _ _ Hv' Hs).
      * pose proof (Hstrict found' cur' Hf' Hne Hv').
        pose proof (Hmax' i s Hi Hs). lia.
Qed.

(** C10: when several valid candidates carry the greatest sequence
    number, [read_supers] selects the one in the slot of lowest index: a
    candidate [s] in slot [i] that no valid candidate exceeds and that
    every valid candidate of a lower slot is strictly below is the one
    selected, and [i] is the slot reported. *)
Theorem read_supers_first_of_equals sb i s :
  0 <= i < SCOUTFS_SUPER_NR → slot_valid sb i s →
  (∀ j s', 0 <= j < SCOUTFS_SUPER_NR → slot_valid sb j s' →
           hdr_seq (hdr s') <= hdr_seq (hdr s)) →
  (∀ j s', 0 <= j < i → slot_valid sb j s' →
           hdr_seq (hdr s') < hdr_seq (hdr s)) →
  read_supers sb =
    (0, Sb (s_bdev sb) (SbInfo s s),
     concat (slot_events sb <$> seqZ 0 SCOUTFS_SUPER_NR)
     ++ [Ev_info_using i (hdr_seq (hdr s))]).
Proof.
  intros Hi Hs Hmax Hlow. unfold read_supers.
  destruct (read_supers_scan_spec sb (seqZ 0 SCOUTFS_SUPER_NR))
    as (cur & found & tr & E & Htr & Hinv).
  { apply list.Forall_forall. intros j Hj. apply elem_of_seqZ_0 in Hj. lia. }
  rewrite E. unfold read_supers_finish.
  destruct Hinv as [(-> & -> & Hno)|(Hf & Hv & l1 & l2 & El & H1 & H2)].
  { destruct (Hno i s); [by apply elem_of_seqZ_0|done]. }
  rewrite decide_False by lia.
  destruct (seqZ_split _ _ _ _ El) as (Hfound & Hl1 & Hl2).
  assert (i ∈ l1 ++ found :: l2) as Hin.
  { rewrite <- El. by apply elem_of_seqZ_0. }
  assert (found = i) as ->.
  { apply elem_of_app in Hin as [Hin|Hin].
    - (* a later slot was kept: it would be strictly newer than [s] *)
      pose proof (H1 i s Hin Hs). pose proof (Hmax found cur Hfound Hv). lia.
    - inversion Hin as [|? ? ? Hin']; subst; [done|].
      (* an earlier slot was kept: it is strictly older than [s] *)
      pose proof (Hl2 i Hin'). pose proof (H2 i s Hin' Hs).
      pose proof (Hlow found cur ltac:(lia) Hv). lia. }
  rewrite (slot_valid_fun sb _ _ _ Hv Hs). by rewrite Htr.
Qed.

(** ** super.c: advancing the dirty super block *)

(** C2: [scoutfs_advance_dirty_super] copies the current super block to
    the stable one, moves the block number of the current one to the next
    slot of the ring, the last slot being followed by the first, and adds
    1 to its sequence number; the device and the other fields are not
    touched.  The ring has at least two slots, so the current super block
    then names another slot than the stable one. *)
Theorem scoutfs_advance_dirty_super_spec sb k :
  2 <= SCOUTFS_SUPER_NR → 0 <= SCOUTFS_SUPER_BLKNO →
  SCOUTFS_SUPER_BLKNO + SCOUTFS_SUPER_NR < 2 ^ 64 →
  0 <= k < SCOUTFS_SUPER_NR →
  hdr_blkno (hdr (super (s_fs_info sb))) = SCOUTFS_SUPER_BLKNO + k →
  0 <= hdr_seq (hdr (super (s_fs_info sb))) < 2 ^ 64 - 1 →
  let old := super (s_fs_info sb) in
  let sb' := scoutfs_advance_dirty_super sb in
  let new := super (s_fs_info sb') in
  stable_super (s_fs_info sb') = old ∧
  hdr_blkno (hdr new) = SCOUTFS_SUPER_BLKNO + (k + 1) mod SCOUTFS_SUPER_NR ∧
  hdr_seq (hdr new) = hdr_seq (hdr old) + 1 ∧
  hdr_blkno (hdr new) ≠ hdr_blkno (hdr (stable_super (s_fs_info sb'))) ∧
  s_bdev sb' = s_bdev sb ∧
  super_id new = super_id old ∧ hdr_crc (hdr new) = hdr_crc (hdr old) ∧
  total_blocks new = total_blocks old ∧ uuid new = uuid old.
Proof.
  intros Hnr Hblk Hfit Hk Hcur Hseq. cbv zeta.
  unfold scoutfs_advance_dirty_super. cbv zeta. cbn [s_fs_info super stable_super s_bdev].
  destruct (s_fs_info sb) as [[sid [c b q] tb uu] st]. simpl in *. subst b.
  rewrite (wrap64_small (SCOUTFS_SUPER_BLKNO + k + 1)) by lia.
  destruct (decide (SCOUTFS_SUPER_BLKNO + k + 1
                    = SCOUTFS_SUPER_BLKNO + SCOUTFS_SUPER_NR)) as [E|E]; simpl.
  - assert (k + 1 = SCOUTFS_SUPER_NR) as -> by lia.
    rewrite Z.mod_same by lia. rewrite wrap64_small by lia.
    split_and!; try done; lia.
  - rewrite Z.mod_small by lia. rewrite wrap64_small by lia.
    split_and!; try done; lia.
Qed.

(** ** super.c: statfs *)

Lemma wrap32_sint32 z : wrap32 (sint32 z) = wrap32 z.
Proof.
  unfold wrap32, sint32. rewrite Zminus_mod_idemp_l. f_equal. lia.
Qed.

Lemma le32_range b0 b1 b2 b3 : 0 <= le32 b0 b1 b2 b3 < 2 ^ 32.
Proof.
  unfold le32. pose proof (u8_val_range b0). pose proof (u8_val_range b1).
  pose proof (u8_val_range b2). pose proof (u8_val_range b3). lia.
Qed.

Lemma lxor_u32 a b :
  0 <= a < 2 ^ 32 → 0 <= b < 2 ^ 32 → wrap32 (Z.lxor a b) = Z.lxor a b.
Proof.
  intros Ha Hb. unfold wrap32. apply Z.bits_inj'. intros n Hn.
  destruct (decide (n < 32)) as [Hlt|Hge].
  - by rewrite Z.mod_pow2_bits_low.
  - rewrite Z.mod_pow2_bits_high by lia. rewrite Z.lxor_spec.
    rewrite <- (Z.mod_small a (2 ^ 32)), <- (Z.mod_small b (2 ^ 32)) by lia.
    by rewrite !Z.mod_pow2_bits_high by lia.
Qed.

(** C9: when [scoutfs_buddy_bfree] succeeds with [bfree] free blocks,
    [scoutfs_statfs] returns 0 and reports [bfree * 17] free inodes, that
    many plus the last inode number as the total number of inodes, and as
    the file system identifier the two 32-bit words that are the xor of the
    first two and of the last two little endian 32-bit words of the 16
    bytes of the UUID.  The counts are [u64] values: they are exact as long
    as they do not exceed the 64 bits. *)
Theorem scoutfs_statfs_spec sb kst bfree
    u0 u1 u2 u3 u4 u5 u6 u7 u8 u9 u10 u11 u12 u13 u14 u15 :
  scoutfs_buddy_bfree sb (f_bfree kst) = (0, bfree) →
  0 <= bfree → 0 <= scoutfs_last_ino sb →
  bfree * 17 + scoutfs_last_ino sb < 2 ^ 64 →
  uuid (super (s_fs_info sb))
    = [u0; u1; u2; u3; u4; u5; u6; u7; u8; u9; u10; u11; u12; u13; u14; u15] →
  ∃ kst',
    scoutfs_statfs sb kst = (0, kst') ∧
    f_bfree kst' = bfree ∧
    f_ffree kst' = f_bfree kst' * 17 ∧
    f_files kst' = f_ffree kst' + scoutfs_last_ino sb ∧
    wrap32 (f_fsid kst').1
      = Z.lxor (le32 u0 u1 u2 u3) (le32 u4 u5 u6 u7) ∧
    wrap32 (f_fsid kst').2
      = Z.lxor (le32 u8 u9 u10 u11) (le32 u12 u13 u14 u15).
Proof.
  intros Hb Hb0 Hi0 Hfit Hu. unfold scoutfs_statfs. cbv zeta.
  rewrite Hb, Hu. rewrite decide_False by lia.
  eexists. split; [done|]. simpl.
  rewrite !wrap32_sint32.
  rewrite (wrap64_small (bfree * 17)) by lia.
  rewrite wrap64_small by lia.
  split_and!; try done.
  - apply (lxor_u32 (le32 u0 u1 u2 u3) (le32 u4 u5 u6 u7)); apply le32_range.
  - apply (lxor_u32 (le32 u8 u9 u10 u11) (le32 u12 u13 u14 u15));
      apply le32_range.
Qed.

(** * Further properties of kvec.c and super.c *)

(** ** [scoutfs_kvec_memcmp] is a total order on the bytes of keys *)

Lemma cmp_bytes_neg xs ys : cmp_bytes ys xs = - cmp_bytes xs ys.
Proof.
  revert ys. induction xs as [|x xs IH]; intros [|y ys]; simpl; try done.
  destruct (decide (u8_val x = u8_val y)) as [E|E].
  - rewrite decide_True by done. apply IH.
  - rewrite decide_False by lia. lia.
Qed.

(** X1: comparing two keys the other way round negates the result, and a
    key compares 0 with itself. *)
Theorem scoutfs_kvec_memcmp_antisym m a b :
  kvec_key m a → kvec_key m b →
  ∃ r,
    scoutfs_kvec_memcmp m a b = Some r ∧
    scoutfs_kvec_memcmp m b a = Some (- r) ∧
    scoutfs_kvec_memcmp m a a = Some 0.
Proof.
  intros [Ha [la Hla]] [Hb [lb Hlb]]. exists (cmp_bytes la lb).
  rewrite (scoutfs_kvec_memcmp_spec m a b la lb) by done.
  rewrite (scoutfs_kvec_memcmp_spec m b a lb la) by done.
  rewrite (scoutfs_kvec_memcmp_spec m a a la la) by done.
  by rewrite (cmp_bytes_neg la lb), cmp_bytes_refl.
Qed.

(** X2: the comparison is transitive and total: from [a <= b] and [b <= c]
    follows [a <= c], a strict step making the result strict, and of two
    keys one is below the other. *)
Theorem scoutfs_kvec_memcmp_trans m a b c :
  kvec_key m a → kvec_key m b → kvec_key m c →
  (kvec_le m a b → kvec_le m b c → kvec_le m a c) ∧
  (kvec_lt m a b → kvec_le m b c → kvec_lt m a c) ∧
  (kvec_le m a b → kvec_lt m b c → kvec_lt m a c) ∧
  (kvec_le m a b ∨ kvec_lt m b a).
Proof.
  intros [Ha [la Hla]] [Hb [lb Hlb]] [Hc [lc Hlc]].
  rewrite (kvec_le_bytes m a b la lb), (kvec_le_bytes m b c lb lc),
    (kvec_le_bytes m a c la lc), (kvec_lt_bytes m a b la lb),
    (kvec_lt_bytes m b c lb lc), (kvec_lt_bytes m a c la lc),
    (kvec_lt_bytes m b a lb la) by done.
  split_and!.
  - apply cmp_bytes_le_trans.
  - apply cmp_bytes_lt_le_trans.
  - apply cmp_bytes_le_lt_trans.
  - rewrite (cmp_bytes_neg la lb). lia.
Qed.

(** X3: the comparison returns 0 exactly for keys with the same bytes: two
    keys that differ in a byte or in length never compare equal. *)
Theorem scoutfs_kvec_memcmp_zero m a b :
  kvec_key m a → kvec_key m b →
  (scoutfs_kvec_memcmp m a b = Some 0 ↔ kvec_bytes m a = kvec_bytes m b).
Proof.
  intros [Ha [la Hla]] [Hb [lb Hlb]].
  rewrite (scoutfs_kvec_memcmp_spec m a b la lb) by done.
  rewrite Hla, Hlb. split.
  - intros [= H]. by apply cmp_bytes_eq in H as ->.
  - intros [= ->]. by rewrite cmp_bytes_refl.
Qed.

(** ** Incrementing a key gives the next key of its length *)





(** ** [scoutfs_kvec_clone] and [scoutfs_kvec_clone_less] *)

Lemma kvec_clone_loop_spec src :
  ∀ pre dst, length dst = length src →
  kvec_clone_loop (pre ++ dst) (pre ++ src) (length pre) (length src)
  = Some (pre ++ src).
Proof.
  induction src as [|s src IH]; intros pre dst Hlen.
  - destruct dst; [|done]. done.
  - destruct dst as [|d dst]; [done|]. cbn [length kvec_clone_loop].
    rewrite !list_lookup_middle by done.
    rewrite insert_app_r_alt by lia. rewrite Nat.sub_diag. simpl.
    specialize (IH (pre ++ [s]) dst).
    rewrite length_app, <- !app_assoc in IH. simpl in IH.
    rewrite Nat.add_1_r in IH. apply IH. simpl in Hlen. lia.
Qed.

Lemma scoutfs_kvec_clone_spec dst src :
  length dst = SCOUTFS_KVEC_NR → length src = SCOUTFS_KVEC_NR →
  scoutfs_kvec_clone dst src = Some src.
Proof.
  intros Hd Hs. unfold scoutfs_kvec_clone. rewrite <- Hs.
  apply (kvec_clone_loop_spec src [] dst). lia.
Qed.

(** X5: [scoutfs_kvec_clone_less] keeps a running minimum without copying
    a byte: the result is [dst] or [src] themselves (the same pointers),
    it is never above [src], and never above a [dst] that is not empty.
    An empty [dst] counts as not set, not as the least key: it is always
    replaced by [src]. *)
Theorem scoutfs_kvec_clone_less_spec m dst src :
  kvec_key m dst → kvec_key m src →
  ∃ res,
    scoutfs_kvec_clone_less m dst src = Some res ∧
    (res = dst ∨ res = src) ∧
    kvec_le m res src ∧
    (scoutfs_kvec_length dst ≠ 0 → kvec_le m res dst) ∧
    (scoutfs_kvec_length dst = 0 → res = src).
Proof.
  intros [Hd [ld Hld]] [Hs [ls Hls]].
  pose proof (scoutfs_kvec_clone_spec dst src (proj1 Hd) (proj1 Hs)) as Hcl.
  assert (kvec_le m src src) as Hss.
  { apply (kvec_le_bytes m src src ls ls); try done.
    by rewrite cmp_bytes_refl. }
  assert (kvec_le m dst dst) as Hdd.
  { apply (kvec_le_bytes m dst dst ld ld); try done.
    by rewrite cmp_bytes_refl. }
  unfold scoutfs_kvec_clone_less.
  destruct (decide (scoutfs_kvec_length dst = 0)) as [E|E].
  { exists src. rewrite Hcl. split_and!; try done. by right. }
  rewrite (scoutfs_kvec_memcmp_spec m src dst ls ld) by done.
  destruct (decide (cmp_bytes ls ld < 0)) as [Hlt|Hge].
  - exists src. rewrite Hcl. split_and!; try done; [by right|].
    intros _. apply (kvec_le_bytes m src dst ls ld); try done. lia.
  - exists dst. split_and!; try done; [by left|].
    apply (kvec_le_bytes m dst src ld ls); try done.
    rewrite (cmp_bytes_neg ls ld). lia.
Qed.

(** ** [scoutfs_kvec_memcpy] and [scoutfs_kvec_memcpy_truncate] *)

(** Writing [bs] at the addresses [l] and reading them back: the bytes
    written, as many as fit, then what was there. *)
Lemma loads_stores_over m l bs ld :
  NoDup l → loads m l = Some ld →
  loads (stores m l bs) l = Some (take (length l) bs ++ drop (length bs) ld).
Proof.
  revert m bs ld. induction l as [|a l IH]; intros m bs ld Hnd Hld.
  - simpl in Hld. injection Hld as <-. simpl. by rewrite drop_nil.
  - destruct bs as [|v bs]; [exact Hld|].
    inversion Hnd as [|? ? Ha Hnd']; subst. simpl in Hld.
    destruct (m !! a) as [b|] eqn:Hb; [|done].
    destruct (loads m l) as [ld'|] eqn:Hl; [|done]. injection Hld as <-.
    simpl. rewrite stores_notin, lookup_insert_eq by done.
    rewrite (IH (<[a := v]> m) bs ld'); [done|done|].
    rewrite <- Hl. apply loads_ext. intros x Hx. apply lookup_insert_ne.
    by intros ->.
Qed.

Lemma wrap64_add_l a b : wrap64 (wrap64 a + b) = wrap64 (a + b).
Proof. unfold wrap64. by rewrite Zplus_mod_idemp_l. Qed.

(** The loop of [scoutfs_kvec_memcpy], with the bytes it counts. *)
Lemma memcpy_loop_copied fuel :
  ∀ m di si c ld ls,
  iter_ok di → iter_ok si →
  iter_rest m di = Some ld → iter_rest m si = Some ls →
  NoDup (iter_addrs di) →
  (∀ a, a ∈ iter_addrs di → a ∉ iter_addrs si) →
  (length ls < fuel)%nat → 0 <= c < 2 ^ 64 →
  memcpy_loop fuel m di si c
  = Some (stores m (iter_addrs di) ls,
          wrap64 (c + Z.of_nat (length ld `min` length ls))).
Proof.
  induction fuel as [|fuel IH]; intros m di si c ld ls Hod Hos Hrd Hrs
    Hnd Hdis Hfuel Hc; [lia|].
  pose proof (iter_contig_0 m di ld Hod Hrd) as [Hcd Hcd0].
  pose proof (iter_contig_0 m si ls Hos Hrs) as [Hcs Hcs0].
  pose proof Hrd as Hrd'. pose proof Hrs as Hrs'.
  rewrite iter_rest_loads in Hrd', Hrs'.
  pose proof (loads_length _ _ _ Hrd') as Lld.
  pose proof (loads_length _ _ _ Hrs') as Lls.
  cbn [memcpy_loop]. cbv zeta.
  destruct (decide (Z.min (iter_contig di) (iter_contig si) = 0)) as [Hz|Hnz].
  - assert (ld = [] ∨ ls = []) as Hemp.
    { destruct (decide (iter_contig di = 0)) as [Hd0|Hd0].
      - left. by apply Hcd0.
      - right. apply Hcs0. lia. }
    assert (length ld `min` length ls = 0)%nat as ->.
    { destruct Hemp as [-> | ->]; simpl; lia. }
    rewrite Z.add_0_r, wrap64_small by done. do 2 f_equal.
    destruct Hemp as [-> | ->]; [|by destruct (iter_addrs di)].
    simpl in Lld. symmetry in Lld. apply length_zero_iff_nil in Lld.
    by rewrite Lld.
  - set (n := Z.min (iter_contig di) (iter_contig si)) in *.
    destruct (iter_advance_ok m di ld n Hod Hrd) as (_ & Hod' & Hrd2); [lia|].
    destruct (iter_advance_ok m si ls n Hos Hrs) as (Hls & Hos' & Hrs2); [lia|].
    destruct (iter_advance_addrs di n Hod) as [Had Had']; [lia|].
    destruct (iter_advance_addrs si n Hos) as [Has Has']; [lia|].
    rewrite <- (take_drop (Z.to_nat n) (iter_addrs di)) in Hnd.
    apply list.NoDup_app in Hnd as (Hnd1 & Hnd2 & Hnd3).
    assert (∀ a, a ∈ drop (Z.to_nat n) (iter_addrs di) → a ∈ iter_addrs di)
      as Hsub.
    { intros a Ha. rewrite <- (take_drop (Z.to_nat n) (iter_addrs di)).
      apply elem_of_app. by right. }
    assert (∀ a, a ∈ take (Z.to_nat n) (iter_addrs di) → a ∈ iter_addrs di)
      as Hsub'.
    { intros a Ha. rewrite <- (take_drop (Z.to_nat n) (iter_addrs di)).
      apply elem_of_app. by left. }
    unfold memcpy. rewrite Hls.
    assert (length (take (Z.to_nat n) ls) = Z.to_nat n) as Lchunk.
    { rewrite length_take_le; lia. }
    rewrite store_stores.
    2:{ intros a Ha. apply (loads_mapped m (iter_addrs di) ld); [done|].
        apply Hsub'. rewrite <- Had. apply elem_of_seqZ. lia. }
    rewrite Lchunk, Z2Nat.id, Had by lia.
    set (m1 := stores m (take (Z.to_nat n) (iter_addrs di))
                        (take (Z.to_nat n) ls)).
    assert (∀ a, a ∉ take (Z.to_nat n) (iter_addrs di) → m1 !! a = m !! a)
      as Hfr by (intros a Ha; by apply stores_notin).
    rewrite (IH m1 (iter_advance di n) (iter_advance si n)
                (wrap64 (c + n)) (drop (Z.to_nat n) ld)
                (drop (Z.to_nat n) ls)); try done.
    + rewrite Had'. unfold m1. rewrite stores_take_drop. do 2 f_equal.
      rewrite wrap64_add_l, !length_drop. f_equal. lia.
    + rewrite iter_rest_loads, Had'. rewrite (loads_ext m m1).
      * by apply loads_take_drop.
      * intros a Ha. apply Hfr. intros Ha'. by apply (Hnd2 a).
    + rewrite iter_rest_loads, Has'. rewrite (loads_ext m m1).
      * by apply loads_take_drop.
      * intros a Ha. apply Hfr. intros Ha'. apply (Hdis a); [by apply Hsub'|].
        rewrite <- (take_drop (Z.to_nat n) (iter_addrs si)).
        apply elem_of_app. by right.
    + by rewrite Had'.
    + rewrite Had', Has'. intros a Ha Ha'. apply (Hdis a); [by apply Hsub|].
      rewrite <- (take_drop (Z.to_nat n) (iter_addrs si)).
      apply elem_of_app. by right.
    + rewrite length_drop. lia.
    + unfold wrap64. apply Z.mod_pos_bound. lia.
Qed.

(** On segments that share no byte with each other or with src, the
    function writes the bytes of src at the addresses of dst, as many as
    fit, and counts them. *)
Lemma scoutfs_kvec_memcpy_stores m dst src ld ls :
  kvec_wf dst → kvec_wf src →
  kvec_bytes m dst = Some ld → kvec_bytes m src = Some ls →
  NoDup (kvec_addrs dst) →
  (∀ a, a ∈ kvec_addrs dst → a ∉ kvec_addrs src) →
  Z.of_nat (length ld `min` length ls) < 2 ^ 31 →
  scoutfs_kvec_memcpy m dst src
  = Some (stores m (kvec_addrs dst) ls,
          Z.of_nat (length ld `min` length ls)).
Proof.
  intros Hdwf Hswf Hld Hls Hnd Hdis Hint.
  destruct (iter_init_ok m dst Hdwf) as [Hod Hrd].
  destruct (iter_init_ok m src Hswf) as [Hos Hrs].
  pose proof (memcpy_loop_copied (kvec_fuel src) m (iter_init dst)
                (iter_init src) 0 ld ls Hod Hos) as Hloop.
  rewrite !iter_init_addrs in Hloop by done.
  unfold scoutfs_kvec_memcpy. rewrite Hloop; try done; try congruence.
  2:{ unfold kvec_fuel. rewrite (kvec_bytes_length m src ls Hls). lia. }
  by rewrite Z.add_0_l, wrap64_small, sint32_small by lia.
Qed.

Lemma stores_kvec_bytes m dst src ld ls :
  kvec_bytes m dst = Some ld → kvec_bytes m src = Some ls →
  NoDup (kvec_addrs dst) →
  (∀ a, a ∈ kvec_addrs dst → a ∉ kvec_addrs src) →
  let m' := stores m (kvec_addrs dst) ls in
  kvec_bytes m' dst = Some (take (length ld) ls ++ drop (length ls) ld) ∧
  kvec_bytes m' src = Some ls ∧
  (∀ a, a ∉ kvec_addrs dst → m' !! a = m !! a).
Proof.
  intros Hld Hls Hnd Hdis. cbv zeta. rewrite kvec_bytes_loads in Hld, Hls.
  pose proof (loads_length _ _ _ Hld) as Lld. split_and!.
  - rewrite kvec_bytes_loads, Lld. by apply loads_stores_over.
  - rewrite kvec_bytes_loads, <- Hls. apply loads_ext. intros a Ha.
    apply stores_notin. intros Ha'. by apply (Hdis a).
  - intros a Ha. by apply stores_notin.
Qed.

(** X6: [scoutfs_kvec_memcpy] copies as much of src as fits in dst: it
    returns the smaller of the two lengths, and then dst holds that many
    bytes of src followed by what it held beyond them.  Only the buffers of
    dst are written: src and every other byte are as before.  The segments
    of dst share no byte with each other or with src, and the count is a
    value of the [int] returned. *)
Theorem scoutfs_kvec_memcpy_spec m dst src ld ls :
  kvec_wf dst → kvec_wf src →
  kvec_bytes m dst = Some ld → kvec_bytes m src = Some ls →
  NoDup (kvec_addrs dst) →
  (∀ a, a ∈ kvec_addrs dst → a ∉ kvec_addrs src) →
  Z.of_nat (length ld `min` length ls) < 2 ^ 31 →
  ∃ m',
    scoutfs_kvec_memcpy m dst src
      = Some (m', Z.of_nat (length ld `min` length ls)) ∧
    kvec_bytes m' dst = Some (take (length ld) ls ++ drop (length ls) ld) ∧
    kvec_bytes m' src = Some ls ∧
    (∀ a, a ∉ kvec_addrs dst → m' !! a = m !! a).
Proof.
  intros Hdwf Hswf Hld Hls Hnd Hdis Hint. eexists. split.
  - by apply (scoutfs_kvec_memcpy_stores m dst src ld ls).
  - by apply stores_kvec_bytes.
Qed.

Lemma memcpy_truncate_loop_spec kv :
  ∀ pre bytes,
  Forall (λ s, 0 <= iov_len s < 2 ^ 64) kv → 0 <= bytes < 2 ^ 64 →
  memcpy_truncate_loop (pre ++ kv) bytes (length pre) (length kv)
  = Some (pre ++ kvec_trunc kv bytes).
Proof.
  induction kv as [|s kv IH]; intros pre bytes Hr Hb; [done|].
  inversion Hr as [|? ? Hs Hr']; subst. cbn [length memcpy_truncate_loop].
  rewrite list_lookup_middle by done. cbv zeta.
  rewrite insert_app_r_alt by lia. rewrite Nat.sub_diag. simpl.
  rewrite wrap64_small by lia.
  specialize (IH (pre ++ [Kvec (iov_base s) (iov_len s `min` bytes)])
                 (bytes - iov_len s `min` bytes) Hr').
  rewrite length_app, <- !app_assoc in IH. simpl in IH.
  rewrite Nat.add_1_r in IH. apply IH. lia.
Qed.

Lemma kvec_trunc_bases kv bytes :
  iov_base <$> kvec_trunc kv bytes = iov_base <$> kv.
Proof.
  revert bytes. induction kv as [|s kv IH]; intros bytes; [done|].
  simpl. by rewrite IH.
Qed.

Lemma kvec_trunc_wf kv bytes :
  kvec_wf kv → 0 <= bytes → kvec_wf (kvec_trunc kv bytes).
Proof.
  intros [Hlen Hr] Hb. split.
  - rewrite <- Hlen. clear. revert bytes.
    induction kv as [|s kv IH]; intros bytes; [done|]. simpl. by rewrite IH.
  - clear Hlen. revert bytes Hb.
    induction Hr as [|s kv Hs Hr IH]; intros bytes Hb; simpl; [done|].
    constructor; [simpl; lia|]. apply IH. lia.
Qed.

(** The truncated vector spans the first [bytes] addresses of the vector. *)
Lemma kvec_trunc_addrs kv bytes :
  Forall (λ s, 0 <= iov_len s < 2 ^ 64) kv → 0 <= bytes →
  kvec_addrs (kvec_trunc kv bytes) = take (Z.to_nat bytes) (kvec_addrs kv).
Proof.
  intros Hr. revert bytes.
  induction Hr as [|s kv Hs Hr IH]; intros bytes Hb.
  { by destruct (Z.to_nat bytes). }
  cbn [kvec_trunc]. rewrite !kvec_addrs_cons. cbn [iov_base iov_len].
  destruct (decide (iov_len s <= bytes)) as [Hle|Hgt].
  - rewrite Z.min_l by done. rewrite IH by lia.
    rewrite take_app_ge by (rewrite length_seqZ; lia).
    rewrite length_seqZ. do 2 f_equal. lia.
  - rewrite Z.min_r by lia. rewrite Z.sub_diag, IH by lia. simpl.
    rewrite take_0, app_nil_r.
    assert (seqZ (iov_base s) (iov_len s)
            = seqZ (iov_base s) bytes
              ++ seqZ (iov_base s + bytes) (iov_len s - bytes)) as ->.
    { rewrite <- seqZ_app by lia. f_equal. lia. }
    rewrite <- app_assoc.
    by rewrite take_app_length' by (rewrite length_seqZ; lia).
Qed.

(** X7: [scoutfs_kvec_memcpy_truncate] returns the number of bytes it
    copied, keeps the pointers of dst and leaves dst spanning exactly the
    bytes copied: its length is the number returned.  When src fits in dst,
    dst then compares equal to src; when dst is full its descriptor is not
    touched. *)
Theorem scoutfs_kvec_memcpy_truncate_spec m dst src ld ls :
  kvec_wf dst → kvec_wf src →
  kvec_bytes m dst = Some ld → kvec_bytes m src = Some ls →
  NoDup (kvec_addrs dst) →
  (∀ a, a ∈ kvec_addrs dst → a ∉ kvec_addrs src) →
  Z.of_nat (length ld `min` length ls) < 2 ^ 31 →
  Z.of_nat (length ld) < 2 ^ 64 →
  ∃ m' dst',
    scoutfs_kvec_memcpy_truncate m dst src
      = Some (m', dst', Z.of_nat (length ld `min` length ls)) ∧
    kvec_wf dst' ∧
    iov_base <$> dst' = iov_base <$> dst ∧
    kvec_bytes m' dst' = Some (take (length ld) ls) ∧
    scoutfs_kvec_length dst' = Z.of_nat (length ld `min` length ls) ∧
    ((length ls <= length ld)%nat →
     scoutfs_kvec_memcmp m' dst' src = Some 0) ∧
    ((length ld <= length ls)%nat → dst' = dst) ∧
    kvec_bytes m' src = Some ls ∧
    (∀ a, a ∉ kvec_addrs dst → m' !! a = m !! a).
Proof.
  intros Hdwf Hswf Hld Hls Hnd Hdis Hint Hfit.
  pose proof Hdwf as [Hdlen Hdr].
  pose proof (kvec_total_length _ _ _ Hdr Hld) as Etot.
  pose proof (scoutfs_kvec_length_total dst Hdwf ltac:(lia)) as Elen.
  assert (∃ m' dst',
    scoutfs_kvec_memcpy_truncate m dst src
      = Some (m', dst', Z.of_nat (length ld `min` length ls)) ∧
    kvec_wf dst' ∧
    iov_base <$> dst' = iov_base <$> dst ∧
    kvec_bytes m' dst' = Some (take (length ld) ls) ∧
    ((length ld <= length ls)%nat → dst' = dst) ∧
    kvec_bytes m' src = Some ls ∧
    (∀ a, a ∉ kvec_addrs dst → m' !! a = m !! a)) as Hmain.
  { pose proof (scoutfs_kvec_memcpy_stores m dst src ld ls Hdwf Hswf Hld Hls
                  Hnd Hdis Hint) as Hcp.
    destruct (stores_kvec_bytes m dst src ld ls Hld Hls Hnd Hdis)
      as (Hd' & Hs' & Hfr).
    unfold scoutfs_kvec_memcpy_truncate. rewrite Hcp.
    rewrite wrap64_small by lia. rewrite Elen, <- Etot.
    destruct (decide (Z.of_nat (length ld `min` length ls)
                      < Z.of_nat (length ld))) as [Hlt|Hge].
    - (* src is shorter: the lengths of dst are cut *)
      assert (length ld `min` length ls = length ls)%nat as Emin by lia.
      rewrite <- Hdlen.
      rewrite (memcpy_truncate_loop_spec dst []) by (done || lia).
      simpl. eexists _, _. split; [done|]. split_and!; try done.
      + apply kvec_trunc_wf; [done|lia].
      + apply kvec_trunc_bases.
      + rewrite kvec_bytes_loads, kvec_trunc_addrs by (done || lia).
        rewrite Nat2Z.id, Emin. rewrite kvec_bytes_loads in Hd'.
        destruct (loads_take_drop _ _ _ (length ls) Hd') as [-> _].
        f_equal. rewrite (take_ge ls (length ld)) by lia.
        by rewrite take_app_length.
      + intros Hle. lia.
    - (* dst is full *)
      eexists _, _. split; [done|]. split_and!; try done.
      rewrite Hd'. f_equal. rewrite drop_ge by lia. by rewrite app_nil_r. }
  destruct Hmain as (m' & dst' & E & Hwf' & Hb' & Hd' & Hsame & Hs' & Hfr).
  exists m', dst'. split_and!; try done.
  - pose proof Hwf' as [_ Hr'].
    pose proof (kvec_total_length _ _ _ Hr' Hd') as Etot'.
    rewrite length_take in Etot'.
    rewrite scoutfs_kvec_length_total; [lia|done|lia].
  - intros Hle. rewrite (scoutfs_kvec_memcmp_spec m' dst' src _ ls Hwf' Hswf Hd' Hs').
    rewrite take_ge by lia. by rewrite cmp_bytes_refl.
Qed.

(** ** Key buffers: [scoutfs_kvec_alloc_key], [scoutfs_kvec_init_key] and
    [scoutfs_kvec_set_max_key] *)

Lemma lookup_unmap m p n a :
  unmap m p n !! a
  = if decide (p <= a < p + Z.of_nat n) then None else m !! a.
Proof.
  revert p. induction n as [|n IH]; intros p.
  - simpl. rewrite decide_False; [done|lia].
  - cbn [unmap]. destruct (decide (p = a)) as [->|Hne].
    + rewrite lookup_delete_eq. rewrite decide_True; [done|lia].
    + rewrite lookup_delete_ne, IH by done.
      destruct (decide (p + 1 <= a < p + 1 + Z.of_nat n)).
      * rewrite decide_True; [done|lia].
      * rewrite decide_False; [done|lia].
Qed.

(** Freeing what was just mapped gives the memory back. *)
Lemma unmap_fill m p bs :
  (∀ a, p <= a < p + Z.of_nat (length bs) → m !! a = None) →
  unmap (fill m p bs) p (length bs) = m.
Proof.
  intros Hnew. apply map_eq. intros a. rewrite lookup_unmap.
  destruct (decide (p <= a < p + Z.of_nat (length bs))) as [Hin|Hout].
  - by rewrite Hnew.
  - by apply fill_notin.
Qed.

(** Freeing segments that are null does nothing. *)
Lemma kvec_kfree_loop_null h n :
  ∀ pre,
  kvec_kfree_loop h (pre ++ replicate n kvec_null) (length pre) n
  = Some (h, pre ++ replicate n kvec_null).
Proof.
  induction n as [|n IH]; intros pre; [done|].
  cbn [replicate kvec_kfree_loop]. rewrite list_lookup_middle by done.
  unfold kfree at 1. rewrite decide_True by done.
  rewrite insert_app_r_alt by lia. rewrite Nat.sub_diag. simpl.
  specialize (IH (pre ++ [kvec_null])).
  rewrite length_app, <- !app_assoc in IH. simpl in IH.
  rewrite Nat.add_1_r in IH. exact IH.
Qed.

(** X8: [scoutfs_kvec_alloc_key] either fails with -ENOMEM, leaving the
    null vector and the heap as it was, or returns 0 with the vector the
    single segment over a new object of [SCOUTFS_MAX_KEY_SIZE] bytes, all
    zero, the bytes mapped before being unchanged.  In both cases
    [scoutfs_kvec_kfree] on the result does not fault, leaves every
    pointer null and gives back the heap as it was before the call. *)
Theorem scoutfs_kvec_alloc_key_spec h c :
  (1 <= SCOUTFS_KVEC_NR)%nat → 0 < SCOUTFS_MAX_KEY_SIZE < 2 ^ 64 →
  alloc_fresh h SCOUTFS_MAX_KEY_SIZE c →
  (∀ p init, c = Some (p, init) → heap_allocs h !! p = None) →
  ∃ h1 kv ret,
    scoutfs_kvec_alloc_key h c = (h1, kv, ret) ∧
    ((ret = - ENOMEM ∧ c = None ∧ kv = scoutfs_kvec_init_null ∧ h1 = h) ∨
     (ret = 0 ∧ ∃ ptr,
        kv = scoutfs_kvec_init ptr SCOUTFS_MAX_KEY_SIZE ∧ ptr ≠ NULL ∧
        heap_allocs h1 !! ptr = Some SCOUTFS_MAX_KEY_SIZE ∧
        scoutfs_kvec_length kv = SCOUTFS_MAX_KEY_SIZE ∧
        kvec_bytes (heap_bytes h1) kv
          = Some (replicate (Z.to_nat SCOUTFS_MAX_KEY_SIZE) x00) ∧
        (∀ a v, heap_bytes h !! a = Some v → heap_bytes h1 !! a = Some v))) ∧
    ∃ kv',
      scoutfs_kvec_kfree h1 kv = Some (h, kv') ∧
      Forall (λ s, iov_base s = NULL) kv'.
Proof.
  intros Hnr Hmax Hfresh Hdead.
  unfold scoutfs_kvec_alloc_key, kzalloc, kmalloc. cbv zeta.
  rewrite decide_False by lia.
  destruct c as [[p init]|].
  2:{ (* the allocation fails *)
    rewrite decide_True by done. eexists _, _, _. split; [done|]. split.
    { by left. }
    exists (replicate SCOUTFS_KVEC_NR kvec_null). split.
    - unfold scoutfs_kvec_kfree, scoutfs_kvec_init_null.
      apply (kvec_kfree_loop_null h SCOUTFS_KVEC_NR []).
    - by apply Forall_replicate. }
  destruct Hfresh as (Hp & Hinit & Hnew).
  assert (p ≠ NULL) as Hnull by (unfold NULL, ZERO_SIZE_PTR in *; lia).
  rewrite decide_False by done.
  set (zeros := replicate (length init) x00).
  assert (length zeros = length init) as Lz by apply length_replicate.
  destruct (scoutfs_kvec_init_wf p SCOUTFS_MAX_KEY_SIZE Hnr)
    as (Hwf & Haddr & Htot); [lia|].
  eexists _, _, _. split; [done|]. split.
  - right. split; [done|]. exists p. cbn [heap_bytes heap_allocs].
    split_and!; try done.
    + apply lookup_insert_eq.
    + rewrite scoutfs_kvec_length_total; [done|done|lia].
    + rewrite kvec_bytes_loads, Haddr, <- Hinit, Nat2Z.id. fold zeros.
      rewrite <- Lz. apply fill_loads.
    + intros a v Hv. rewrite fill_notin; [done|]. intros Hin.
      rewrite Hnew in Hv; [done|lia].
  - exists (Kvec NULL SCOUTFS_MAX_KEY_SIZE
            :: replicate (SCOUTFS_KVEC_NR - 1) kvec_null). split.
    + unfold scoutfs_kvec_kfree. rewrite scoutfs_kvec_init_cons by done.
      destruct SCOUTFS_KVEC_NR as [|n]; [lia|].
      cbn [kvec_kfree_loop lookup list_lookup iov_base iov_len].
      unfold kfree at 1. cbn [heap_bytes heap_allocs].
      rewrite decide_False by lia. rewrite lookup_insert_eq.
      replace (S n - 1)%nat with n by lia. cbn [insert list_insert].
      rewrite (kvec_kfree_loop_null _ n [Kvec NULL SCOUTFS_MAX_KEY_SIZE]).
      do 2 f_equal. destruct h as [hb ha]. simpl in *. f_equal.
      * rewrite <- Hinit, Nat2Z.id, <- Lz. apply unmap_fill.
        intros a Ha. apply Hnew. lia.
      * apply delete_insert_id. by apply (Hdead p init).
    + constructor; [done|]. by apply Forall_replicate.
Qed.

(** X9: [scoutfs_kvec_set_max_key] writes the one byte
    [SCOUTFS_MAX_UNUSED_KEY] at the start of the key buffer and makes the
    vector that byte alone.  The key it leaves is above the empty key and
    above every key whose first byte is smaller, and below every key whose
    first byte is greater.  [scoutfs_kvec_init_key] then makes the vector
    the whole buffer again, as it does before the call. *)
Theorem scoutfs_kvec_set_max_key_spec m kv s :
  (1 <= SCOUTFS_KVEC_NR)%nat → 0 <= SCOUTFS_MAX_UNUSED_KEY < 256 →
  kv !! 0%nat = Some s → is_Some (m !! iov_base s) →
  ∃ m' kv',
    scoutfs_kvec_set_max_key m kv = Some (m', kv') ∧
    kvec_wf kv' ∧
    kvec_bytes m' kv' = Some [u8_of SCOUTFS_MAX_UNUSED_KEY] ∧
    (∀ a, a ≠ iov_base s → m' !! a = m !! a) ∧
    scoutfs_kvec_init_key kv' = scoutfs_kvec_init_key kv ∧
    (∀ x, kvec_wf x → kvec_bytes m' x = Some [] → kvec_lt m' x kv') ∧
    (∀ x b lx, kvec_wf x → kvec_bytes m' x = Some (b :: lx) →
       (u8_val b < SCOUTFS_MAX_UNUSED_KEY → kvec_lt m' x kv') ∧
       (SCOUTFS_MAX_UNUSED_KEY < u8_val b → kvec_lt m' kv' x)).
Proof.
  intros Hnr Htag Hs [v Hv].
  unfold scoutfs_kvec_set_max_key. rewrite Hs. cbv zeta. cbn [store].
  rewrite Hv.
  destruct (scoutfs_kvec_init_wf (iov_base s) 1 Hnr) as (Hwf & Haddr & Htot);
    [lia|].
  set (m' := <[iov_base s := u8_of SCOUTFS_MAX_UNUSED_KEY]> m).
  set (kv' := scoutfs_kvec_init (iov_base s) 1) in *.
  assert (kvec_bytes m' kv' = Some [u8_of SCOUTFS_MAX_UNUSED_KEY]) as Hb.
  { rewrite kvec_bytes_loads, Haddr. unfold m'. simpl.
    by rewrite lookup_insert_eq. }
  assert (u8_val (u8_of SCOUTFS_MAX_UNUSED_KEY) = SCOUTFS_MAX_UNUSED_KEY)
    as Etag by (rewrite u8_val_of; by apply Z.mod_small).
  exists m', kv'. split_and!; try done.
  - intros a Ha. by apply lookup_insert_ne.
  - unfold scoutfs_kvec_init_key, kv'. rewrite Hs.
    by rewrite scoutfs_kvec_init_cons by done.
  - intros x Hx Hbx. by apply (kvec_lt_bytes m' x kv' [] [u8_of SCOUTFS_MAX_UNUSED_KEY]).
  - intros x b lx Hx Hbx. split; intros Hlt.
    + apply (kvec_lt_bytes m' x kv' (b :: lx)
               [u8_of SCOUTFS_MAX_UNUSED_KEY]); try done. simpl.
      rewrite decide_False by lia. lia.
    + apply (kvec_lt_bytes m' kv' x [u8_of SCOUTFS_MAX_UNUSED_KEY]
               (b :: lx)); try done. simpl.
      rewrite decide_False by lia. lia.
Qed.

(** ** [scoutfs_kvec_cmp_overlap] seen from the other range *)

(** X10: for two ranges [[a, b]] and [[c, d]] given with their ends in
    order, asking the question from the other range negates the answer:
    [[c, d]] is to the right of [[a, b]] exactly when [[a, b]] is to its
    left, and they overlap one way exactly when they do the other way.  A
    range overlaps itself. *)
Theorem scoutfs_kvec_cmp_overlap_antisym m a b c d :
  kvec_key m a → kvec_key m b → kvec_key m c → kvec_key m d →
  kvec_le m a b → kvec_le m c d →
  ∃ r,
    scoutfs_kvec_cmp_overlap m a b c d = Some r ∧
    scoutfs_kvec_cmp_overlap m c d a b = Some (- r) ∧
    scoutfs_kvec_cmp_overlap m a b a b = Some 0.
Proof.
  intros [Ha [la Hla]] [Hb [lb Hlb]] [Hc [lc Hlc]] [Hd [ld Hld]].
  rewrite (kvec_le_bytes m a b la lb), (kvec_le_bytes m c d lc ld) by done.
  intros Hab Hcd. unfold scoutfs_kvec_cmp_overlap.
  rewrite (scoutfs_kvec_memcmp_spec m b c lb lc),
    (scoutfs_kvec_memcmp_spec m a d la ld),
    (scoutfs_kvec_memcmp_spec m d a ld la),
    (scoutfs_kvec_memcmp_spec m c b lc lb),
    (scoutfs_kvec_memcmp_spec m b a lb la),
    (scoutfs_kvec_memcmp_spec m a b la lb) by done.
  rewrite (cmp_bytes_neg la ld), (cmp_bytes_neg lb lc), (cmp_bytes_neg la lb).
  assert (cmp_bytes lb lc < 0 → cmp_bytes la ld < 0) as Hleft.
  { intros Hbc. eapply cmp_bytes_le_lt_trans; [exact Hab|].
    eapply cmp_bytes_lt_le_trans; [exact Hbc|exact Hcd]. }
  repeat case_decide; try lia;
    (eexists; split_and!; [reflexivity|f_equal; lia|done]).
Qed.

(** ** super.c: the ring of replicas over mounts, commits and crashes *)

(** The candidate in a selected slot is the one [read_supers] returns. *)
Lemma read_supers_selects sb i s :
  slot_selected sb i s →
  read_supers sb =
    (0, Sb (s_bdev sb) (SbInfo s s),
     concat (slot_events sb <$> seqZ 0 SCOUTFS_SUPER_NR)
     ++ [Ev_info_using i (hdr_seq (hdr s))]).
Proof.
  intros (Hi & Hs & Hmax & Hlow). unfold read_supers.
  destruct (read_supers_scan_spec sb (seqZ 0 SCOUTFS_SUPER_NR))
    as (cur & found & tr & E & Htr & Hinv).
  { apply list.Forall_forall. intros j Hj. apply elem_of_seqZ_0 in Hj. lia. }
  rewrite E. unfold read_supers_finish.
  destruct Hinv as [(-> & -> & Hno)|(Hf & Hv & l1 & l2 & El & H1 & H2)].
  { destruct (Hno i s); [by apply elem_of_seqZ_0|done]. }
  rewrite decide_False by lia.
  destruct (seqZ_split _ _ _ _ El) as (Hfound & Hl1 & Hl2).
  assert (i ∈ l1 ++ found :: l2) as Hin.
  { rewrite <- El. by apply elem_of_seqZ_0. }
  assert (found = i) as ->.
  { apply elem_of_app in Hin as [Hin|Hin].
    - pose proof (H1 i s Hin Hs). pose proof (Hmax found cur Hfound Hv). lia.
    - inversion Hin as [|? ? ? Hin']; subst; [done|].
      pose proof (Hl2 i Hin'). pose proof (H2 i s Hin' Hs).
      pose proof (Hlow found cur ltac:(lia) Hv). lia. }
  rewrite (slot_valid_fun sb _ _ _ Hv Hs). by rewrite Htr.
Qed.

(** What [read_supers] returns with 0 is the candidate of a selected
    slot. *)
Lemma read_supers_selected sb sb1 tr :
  read_supers sb = (0, sb1, tr) →
  ∃ i s, slot_selected sb i s ∧ sb1 = Sb (s_bdev sb) (SbInfo s s).
Proof.
  unfold read_supers.
  destruct (read_supers_scan_spec sb (seqZ 0 SCOUTFS_SUPER_NR))
    as (cur & found & tr0 & E & Htr & Hinv).
  { apply list.Forall_forall. intros j Hj. apply elem_of_seqZ_0 in Hj. lia. }
  rewrite E. unfold read_supers_finish.
  destruct Hinv as [(-> & -> & Hno)|(Hf & Hv & l1 & l2 & El & H1 & H2)].
  { rewrite decide_True by lia. by intros [= H]. }
  rewrite decide_False by lia. intros [= <- _].
  destruct (seqZ_split _ _ _ _ El) as (Hfound & Hl1 & Hl2).
  exists found, cur. split; [|done]. unfold slot_selected.
  split_and!; [lia|lia|done|..].
  - intros j s' Hj Hs'.
    assert (j ∈ l1 ++ found :: l2) as Hin.
    { rewrite <- El. by apply elem_of_seqZ_0. }
    apply elem_of_app in Hin as [Hin|Hin].
    + pose proof (H1 j s' Hin Hs'). lia.
    + inversion Hin as [|? ? ? Hin']; subst.
      * by rewrite (slot_valid_fun sb _ _ _ Hs' Hv).
      * by apply (H2 j).
  - intros j s' Hj Hs'. apply (H1 j); [|done].
    assert (j ∈ l1 ++ found :: l2) as Hin.
    { rewrite <- El. apply elem_of_seqZ_0. lia. }
    apply elem_of_app in Hin as [Hin|Hin]; [done|].
    inversion Hin as [|? ? ? Hin']; subst; [lia|].
    pose proof (Hl2 j Hin'). lia.
Qed.

(** One advance, for a current super block in slot [k] of the ring. *)
Lemma advance_step sb k :
  1 <= SCOUTFS_SUPER_NR → 0 <= SCOUTFS_SUPER_BLKNO →
  SCOUTFS_SUPER_BLKNO + SCOUTFS_SUPER_NR < 2 ^ 64 →
  0 <= k < SCOUTFS_SUPER_NR →
  hdr_blkno (hdr (super (s_fs_info sb))) = SCOUTFS_SUPER_BLKNO + k →
  scoutfs_advance_dirty_super sb
  = Sb (s_bdev sb)
       (SbInfo (set_seq (set_blkno (super (s_fs_info sb))
                           (SCOUTFS_SUPER_BLKNO + (k + 1) mod SCOUTFS_SUPER_NR))
                        (wrap64 (hdr_seq (hdr (super (s_fs_info sb))) + 1)))
               (super (s_fs_info sb))).
Proof.
  intros Hnr Hblk Hfit Hk Hcur. unfold scoutfs_advance_dirty_super. cbv zeta.
  destruct (s_fs_info sb) as [[sid [c b q] tb uu] st]. simpl in *. subst b.
  rewrite (wrap64_small (SCOUTFS_SUPER_BLKNO + k + 1)) by lia.
  destruct (decide (SCOUTFS_SUPER_BLKNO + k + 1
                    = SCOUTFS_SUPER_BLKNO + SCOUTFS_SUPER_NR)) as [E|E]; simpl.
  - assert (k + 1 = SCOUTFS_SUPER_NR) as -> by lia.
    rewrite Z.mod_same by lia. unfold set_seq, set_blkno. simpl.
    by rewrite Z.add_0_r.
  - rewrite Z.mod_small by lia. unfold set_seq, set_blkno. simpl.
    by rewrite Z.add_assoc.
Qed.

(** X11: advancing [n] times from slot [k] walks the ring: the current
    super block then names slot [(k + n) mod SCOUTFS_SUPER_NR], so it
    stays inside the ring and is back at its slot after a full turn, its
    sequence number has grown by [n], and the device is not touched. *)
Theorem scoutfs_advance_dirty_super_iter sb k n :
  1 <= SCOUTFS_SUPER_NR → 0 <= SCOUTFS_SUPER_BLKNO →
  SCOUTFS_SUPER_BLKNO + SCOUTFS_SUPER_NR < 2 ^ 64 →
  0 <= k < SCOUTFS_SUPER_NR →
  hdr_blkno (hdr (super (s_fs_info sb))) = SCOUTFS_SUPER_BLKNO + k →
  0 <= hdr_seq (hdr (super (s_fs_info sb))) →
  hdr_seq (hdr (super (s_fs_info sb))) + Z.of_nat n < 2 ^ 64 →
  let sb' := Nat.iter n scoutfs_advance_dirty_super sb in
  let new := super (s_fs_info sb') in
  hdr_blkno (hdr new)
    = SCOUTFS_SUPER_BLKNO + (k + Z.of_nat n) mod SCOUTFS_SUPER_NR ∧
  SCOUTFS_SUPER_BLKNO <= hdr_blkno (hdr new)
    < SCOUTFS_SUPER_BLKNO + SCOUTFS_SUPER_NR ∧
  (Z.of_nat n = SCOUTFS_SUPER_NR →
   hdr_blkno (hdr new) = hdr_blkno (hdr (super (s_fs_info sb)))) ∧
  hdr_seq (hdr new) = hdr_seq (hdr (super (s_fs_info sb))) + Z.of_nat n ∧
  s_bdev sb' = s_bdev sb.
Proof.
  intros Hnr Hblk Hfit Hk Hcur Hseq0 Hseq. cbv zeta.
  assert (hdr_blkno (hdr (super (s_fs_info
            (Nat.iter n scoutfs_advance_dirty_super sb))))
          = SCOUTFS_SUPER_BLKNO + (k + Z.of_nat n) mod SCOUTFS_SUPER_NR ∧
          hdr_seq (hdr (super (s_fs_info
            (Nat.iter n scoutfs_advance_dirty_super sb))))
          = hdr_seq (hdr (super (s_fs_info sb))) + Z.of_nat n ∧
          s_bdev (Nat.iter n scoutfs_advance_dirty_super sb) = s_bdev sb)
    as (Hb & Hs & Hd).
  { induction n as [|n IH].
    - simpl. rewrite !Z.add_0_r, Z.mod_small by lia. done.
    - destruct IH as (Hb & Hs & Hd); [lia|]. rewrite !Nat.iter_succ.
      pose proof (Z.mod_pos_bound (k + Z.of_nat n) SCOUTFS_SUPER_NR
                    ltac:(lia)) as Hr.
      rewrite (advance_step _ _ Hnr Hblk Hfit Hr Hb). simpl.
      rewrite Hs, Hd. rewrite wrap64_small by lia. split_and!; [|lia|done].
      f_equal. rewrite Zplus_mod_idemp_l. f_equal. lia. }
  pose proof (Z.mod_pos_bound (k + Z.of_nat n) SCOUTFS_SUPER_NR ltac:(lia)).
  split_and!; try done; try lia.
  intros En. rewrite Hb, Hcur, En. f_equal.
  rewrite <- Zplus_mod_idemp_r, Z.mod_same, Z.add_0_r by lia.
  apply Z.mod_small. lia.
Qed.

(** The scan from two super block infos over the same device: the same
    slot and the same events, and the same candidate once there is one. *)
Lemma read_supers_scan_memory d i1 i2 l :
  Forall (λ i, 0 <= i) l →
  ∃ c1 c2 found tr,
    read_supers_scan (Sb d i1) l = (c1, found, tr) ∧
    read_supers_scan (Sb d i2) l = (c2, found, tr) ∧
    ((found = -1 ∧ c1 = super i1 ∧ c2 = super i2) ∨ (0 <= found ∧ c1 = c2)).
Proof.
  induction l as [|i l IH] using rev_ind; intros Hpos.
  - eexists _, _, _, _. split_and!; try done. by left.
  - apply Forall_app in Hpos as [Hpos Hi]. inversion Hi as [|? ? Hi0 _]; subst.
    destruct (IH Hpos) as (c1 & c2 & found & tr & E1 & E2 & Hinv).
    unfold read_supers_scan in *. rewrite !foldl_app, E1, E2. simpl.
    unfold scoutfs_block_read. simpl.
    destruct (d !! (SCOUTFS_SUPER_BLKNO + i)) as [s|];
      [|by eexists _, _, _, _].
    destruct (decide (super_id s ≠ SCOUTFS_SUPER_ID));
      [by eexists _, _, _, _|].
    destruct Hinv as [(-> & -> & ->)|[Hf ->]].
    + rewrite !decide_True by (left; lia).
      eexists _, _, _, _. split_and!; try done. by right.
    + destruct (decide (found < 0 ∨ hdr_seq (hdr s) > hdr_seq (hdr c2))).
      * eexists _, _, _, _. split_and!; try done. by right.
      * eexists _, _, _, _. split_and!; try done. by right.
Qed.

(** X12: what [read_supers] returns, logs and, on success, leaves in the
    super block info is a function of the device alone: the super block
    held in memory before the call, whatever its sequence number, takes no
    part in the selection.  On failure each info is left as it was. *)
Theorem read_supers_ignores_memory d i1 i2 :
  ∃ ret tr sb1 sb2,
    read_supers (Sb d i1) = (ret, sb1, tr) ∧
    read_supers (Sb d i2) = (ret, sb2, tr) ∧
    ((ret = 0 ∧ sb1 = sb2) ∨
     (ret = - EINVAL ∧ sb1 = Sb d i1 ∧ sb2 = Sb d i2)).
Proof.
  unfold read_supers.
  destruct (read_supers_scan_memory d i1 i2 (seqZ 0 SCOUTFS_SUPER_NR))
    as (c1 & c2 & found & tr & E1 & E2 & Hinv).
  { apply list.Forall_forall. intros j Hj. apply elem_of_seqZ_0 in Hj. lia. }
  rewrite E1, E2. unfold read_supers_finish.
  destruct Hinv as [(-> & -> & ->)|[Hf ->]].
  - rewrite !decide_True by lia. eexists _, _, _, _. split_and!; try done.
    right. simpl. by destruct i1, i2.
  - rewrite !decide_False by lia. eexists _, _, _, _. split_and!; try done.
    by left.
Qed.

(** A selected slot stays selected on a device that has the same block in
    it and no valid candidate that the first device has not. *)
Lemma slot_selected_shrink sb sb' i s :
  slot_selected sb i s → slot_valid sb' i s →
  (∀ j x, slot_valid sb' j x → slot_valid sb j x) →
  slot_selected sb' i s.
Proof.
  intros (Hi & Hs & Hmax & Hlow) Hs' Hsub. unfold slot_selected.
  split_and!; [lia|lia|done|..].
  - intros j x Hj Hx. apply (Hmax j); [done|]. by apply Hsub.
  - intros j x Hj Hx. apply (Hlow j); [done|]. by apply Hsub.
Qed.

(** X13: a commit survives a remount.  After a mount has selected a
    replica, advancing and writing the super block with a sync that succeeds
    puts on the device a replica that the next [read_supers] selects,
    whatever the super block info then holds: the image written, whose
    sequence number is the selected one plus 1.  The write leaves the super
    block info as it is. *)
Theorem scoutfs_write_dirty_super_remount sb sb1 tr k after sbi' :
  1 <= SCOUTFS_SUPER_NR → 0 <= SCOUTFS_SUPER_BLKNO →
  SCOUTFS_SUPER_BLKNO + SCOUTFS_SUPER_NR < 2 ^ 64 →
  read_supers sb = (0, sb1, tr) →
  0 <= k < SCOUTFS_SUPER_NR →
  hdr_blkno (hdr (super (s_fs_info sb1))) = SCOUTFS_SUPER_BLKNO + k →
  0 <= hdr_seq (hdr (super (s_fs_info sb1))) < 2 ^ 64 - 1 →
  let sb2 := scoutfs_advance_dirty_super sb1 in
  ∃ sb3 image tr',
    scoutfs_write_dirty_super sb2 (Wr_sync 0 after) = (0, sb3) ∧
    s_fs_info sb3 = s_fs_info sb2 ∧
    image = set_crc (super (s_fs_info sb2))
                    (scoutfs_block_crc (super (s_fs_info sb2))) ∧
    hdr_seq (hdr image) = hdr_seq (hdr (super (s_fs_info sb1))) + 1 ∧
    read_supers (Sb (s_bdev sb3) sbi')
    = (0, Sb (s_bdev sb3) (SbInfo image image), tr').
Proof.
  intros Hnr Hblk Hfit Hrd Hk Hcur Hseq. cbv zeta.
  destruct (read_supers_selected sb sb1 tr Hrd) as (i & s & Hsel & ->).
  simpl in Hcur, Hseq.
  rewrite (advance_step (Sb (s_bdev sb) (SbInfo s s)) k) by done. simpl.
  rewrite wrap64_small by lia.
  unfold scoutfs_write_dirty_super. simpl.
  set (j := (k + 1) mod SCOUTFS_SUPER_NR).
  set (s2 := set_seq (set_blkno s (SCOUTFS_SUPER_BLKNO + j))
                     (hdr_seq (hdr s) + 1)).
  set (image := set_crc s2 (scoutfs_block_crc s2)).
  assert (0 <= j < SCOUTFS_SUPER_NR) as Hj by (apply Z.mod_pos_bound; lia).
  destruct Hsel as (Hi & [Hrs Hid] & Hmax & Hlow).
  eexists _, image, _. split_and!; try done. simpl.
  pose proof (read_supers_selects
           (Sb (<[SCOUTFS_SUPER_BLKNO + j := image]> (s_bdev sb)) sbi')
           j image) as Hre.
  cbn [s_bdev] in Hre. apply Hre. clear Hre.
  unfold slot_selected. split_and!; [lia|lia|..].
  - split; [|done]. unfold scoutfs_block_read. simpl.
    apply lookup_insert_eq.
  - intros j' s' Hj' [Hrs' Hid']. unfold scoutfs_block_read in Hrs'.
    simpl in Hrs'. destruct (decide (j' = j)) as [->|Hne].
    + rewrite lookup_insert_eq in Hrs'. by injection Hrs' as <-.
    + rewrite lookup_insert_ne in Hrs' by lia.
      pose proof (Hmax j' s' Hj' (conj Hrs' Hid')). simpl. lia.
  - intros j' s' Hj' [Hrs' Hid']. unfold scoutfs_block_read in Hrs'.
    simpl in Hrs'. rewrite lookup_insert_ne in Hrs' by lia.
    pose proof (Hmax j' s' ltac:(lia) (conj Hrs' Hid')). simpl. lia.
Qed.

(** X14: a write that fails loses nothing.  On a ring of at least two
    slots whose valid replicas carry their own block number, the write
    that follows the advance never touches the block of the replica that
    the mount selected, and it leaves the super block info as it is.  When
    the write fails (no buffer, or a sync error that leaves the block
    unreadable, with another identifier, or as it was) the next
    [read_supers] selects the same replica again. *)
Theorem scoutfs_write_dirty_super_crash sb sb1 tr c sbi' :
  2 <= SCOUTFS_SUPER_NR → 0 <= SCOUTFS_SUPER_BLKNO →
  SCOUTFS_SUPER_BLKNO + SCOUTFS_SUPER_NR < 2 ^ 64 →
  (∀ i s, 0 <= i < SCOUTFS_SUPER_NR → slot_valid sb i s →
          hdr_blkno (hdr s) = SCOUTFS_SUPER_BLKNO + i) →
  read_supers sb = (0, sb1, tr) →
  let sb2 := scoutfs_advance_dirty_super sb1 in
  let stable := stable_super (s_fs_info sb2) in
  ∃ ret sb3,
    scoutfs_write_dirty_super sb2 c = (ret, sb3) ∧
    s_fs_info sb3 = s_fs_info sb2 ∧
    stable = super (s_fs_info sb1) ∧
    s_bdev sb3 !! hdr_blkno (hdr stable) = Some stable ∧
    (write_failed sb2 c →
     ret ≠ 0 ∧
     ∃ tr', read_supers (Sb (s_bdev sb3) sbi')
            = (0, Sb (s_bdev sb3) (SbInfo stable stable), tr')).
Proof.
  intros Hnr Hblk Hfit Hown Hrd. cbv zeta.
  destruct (read_supers_selected sb sb1 tr Hrd) as (i & s & Hsel & ->).
  pose proof Hsel as (Hi & Hs & Hmax & Hlow).
  pose proof (Hown i s Hi Hs) as Hcur. pose proof Hs as [Hrs Hid].
  unfold scoutfs_block_read in Hrs.
  rewrite (advance_step (Sb (s_bdev sb) (SbInfo s s)) i) by (done || lia).
  simpl.
  set (j := (i + 1) mod SCOUTFS_SUPER_NR).
  assert (0 <= j < SCOUTFS_SUPER_NR) as Hj by (apply Z.mod_pos_bound; lia).
  assert (j ≠ i) as Hji.
  { unfold j. destruct (decide (i + 1 = SCOUTFS_SUPER_NR)) as [E|E].
    - rewrite E, Z.mod_same by lia. lia.
    - rewrite Z.mod_small by lia. lia. }
  set (s2 := set_seq (set_blkno s (SCOUTFS_SUPER_BLKNO + j))
                     (wrap64 (hdr_seq (hdr s) + 1))).
  (* a device that differs from the first one in the target block only *)
  assert (∀ bdev,
    (∀ nr, nr ≠ SCOUTFS_SUPER_BLKNO + j → bdev !! nr = s_bdev sb !! nr) →
    bdev !! hdr_blkno (hdr s) = Some s ∧
    ((∀ x, bdev !! (SCOUTFS_SUPER_BLKNO + j) = Some x →
           super_id x ≠ SCOUTFS_SUPER_ID ∨
           s_bdev sb !! (SCOUTFS_SUPER_BLKNO + j) = Some x) →
     ∃ tr', read_supers (Sb bdev sbi') = (0, Sb bdev (SbInfo s s), tr')))
    as Hdev.
  { intros bdev Hsame. split.
    { rewrite Hcur, Hsame by lia. done. }
    intros Htarget. eexists.
    pose proof (read_supers_selects (Sb bdev sbi') i s) as Hre.
    cbn [s_bdev] in Hre. apply Hre. clear Hre.
    apply (slot_selected_shrink sb); [done|..].
    - split; [|done]. unfold scoutfs_block_read. simpl.
      rewrite Hsame by lia. done.
    - intros j' x [Hrx Hidx]. unfold scoutfs_block_read in Hrx.
      simpl in Hrx. split; [|done]. unfold scoutfs_block_read.
      destruct (decide (j' = j)) as [->|Hne].
      + destruct (Htarget x Hrx) as [Hbad|Hold]; [done|exact Hold].
      + rewrite <- Hsame; [done|lia]. }
  unfold scoutfs_write_dirty_super, write_failed. simpl.
  destruct c as [|ret after].
  { (* no buffer *)
    eexists _, _. split; [done|]. simpl.
    destruct (Hdev (s_bdev sb)) as [Hst Hre]; [done|].
    split_and!; try done. intros _. split; [done|]. apply Hre. by right. }
  destruct (decide (ret = 0)) as [->|Hret].
  { (* the sync succeeds *)
    eexists _, _. split; [done|]. simpl.
    destruct (Hdev (<[SCOUTFS_SUPER_BLKNO + j :=
                      set_crc s2 (scoutfs_block_crc s2)]> (s_bdev sb)))
      as [Hst _]; [intros nr Hnr'; by apply lookup_insert_ne|].
    split_and!; try done. by intros [? _]. }
  destruct after as [b|].
  - (* the sync fails and leaves some block *)
    eexists _, _. split; [done|]. simpl.
    destruct (Hdev (<[SCOUTFS_SUPER_BLKNO + j := b]> (s_bdev sb)))
      as [Hst Hre]; [intros nr Hnr'; by apply lookup_insert_ne|].
    split_and!; try done. intros [_ Hb]. split; [done|]. apply Hre.
    intros x Hx. rewrite lookup_insert_eq in Hx. injection Hx as <-.
    destruct Hb as [Hb|Hb]; [by left|by right].
  - (* the sync fails and the block cannot be read *)
    eexists _, _. split; [done|]. simpl.
    destruct (Hdev (delete (SCOUTFS_SUPER_BLKNO + j) (s_bdev sb)))
      as [Hst Hre]; [intros nr Hnr'; by apply lookup_delete_ne|].
    split_and!; try done. intros _. split; [done|]. apply Hre.
    intros x Hx. by rewrite lookup_delete_eq in Hx.
Qed.

(** ** [scoutfs_kvec_dup_flatten] followed by [scoutfs_kvec_kfree] *)

(** Freeing a vector of one segment is freeing its pointer. *)
Lemma scoutfs_kvec_kfree_init h h' ptr len :
  (1 <= SCOUTFS_KVEC_NR)%nat → kfree h ptr = Some h' →
  scoutfs_kvec_kfree h (scoutfs_kvec_init ptr len)
  = Some (h', Kvec NULL len :: replicate (SCOUTFS_KVEC_NR - 1) kvec_null).
Proof.
  intros Hnr Hfree. unfold scoutfs_kvec_kfree.
  rewrite scoutfs_kvec_init_cons by done.
  destruct SCOUTFS_KVEC_NR as [|n]; [lia|].
  cbn [kvec_kfree_loop lookup list_lookup iov_base iov_len]. rewrite Hfree.
  replace (S n - 1)%nat with n by lia. cbn [insert list_insert].
  apply (kvec_kfree_loop_null h' n [Kvec NULL len]).
Qed.

(** X15: the copy that [scoutfs_kvec_dup_flatten] leaves in dst is freed by
    [scoutfs_kvec_kfree] without a fault, whether the allocation failed,
    the key was empty or a buffer was allocated, and the heap is then what
    it was before the copy: the allocation is not leaked and no other byte
    has changed. *)
Theorem scoutfs_kvec_dup_flatten_kfree h c src bs :
  (1 <= SCOUTFS_KVEC_NR)%nat →
  kvec_wf src → kvec_total src < 2 ^ 64 →
  kvec_bytes (heap_bytes h) src = Some bs →
  alloc_fresh h (scoutfs_kvec_length src) c →
  (∀ p init, c = Some (p, init) → heap_allocs h !! p = None) →
  ∃ h1 dst ret kv',
    scoutfs_kvec_dup_flatten h c src = Some (h1, dst, ret) ∧
    (ret = 0 ∨ ret = - ENOMEM) ∧
    scoutfs_kvec_kfree h1 dst = Some (h, kv') ∧
    Forall (λ s, iov_base s = NULL) kv'.
Proof.
  intros Hnr Hwf Htot Hbs Hfresh Hdead.
  pose proof Hwf as [Hlen Hr].
  pose proof (scoutfs_kvec_length_total src Hwf Htot) as Elen.
  pose proof (kvec_total_length _ _ _ Hr Hbs) as Ebs.
  pose proof (kvec_total_nonneg src Hr) as Hnn.
  assert (∀ n,
    Forall (λ s, iov_base s = NULL)
      (Kvec NULL n :: replicate (SCOUTFS_KVEC_NR - 1) kvec_null)) as Hnull.
  { intros n. constructor; [done|]. by apply Forall_replicate. }
  unfold scoutfs_kvec_dup_flatten. cbv zeta.
  set (len := scoutfs_kvec_length src) in *.
  (* the copy into a buffer [ptr] of [len] bytes of the heap [h1] *)
  assert (∀ h1 ptr ld,
    loads (heap_bytes h1) (seqZ ptr len) = Some ld →
    (∀ a, a ∈ kvec_addrs src → ¬ (ptr <= a < ptr + len)) →
    (∀ a, ¬ (ptr <= a < ptr + len) →
          heap_bytes h1 !! a = heap_bytes h !! a) →
    ∃ r, scoutfs_kvec_memcpy (heap_bytes h1) (scoutfs_kvec_init ptr len) src
         = Some (stores (heap_bytes h1) (seqZ ptr len) bs, r)) as Hcopy.
  { intros h1 ptr ld Hld Hapart Hold.
    destruct (scoutfs_kvec_init_wf ptr len Hnr) as (Hdwf & Hdaddr & Hdtot);
      [lia|].
    assert (kvec_bytes (heap_bytes h1) src = Some bs) as Hbs1.
    { rewrite kvec_bytes_loads in *. rewrite <- Hbs. apply loads_ext.
      intros a Ha. apply Hold. by apply Hapart. }
    destruct (iter_init_ok (heap_bytes h1) _ Hdwf) as [Hod Hrd].
    destruct (iter_init_ok (heap_bytes h1) src Hwf) as [Hos Hrs].
    rewrite kvec_bytes_loads, Hdaddr in Hrd.
    pose proof (memcpy_loop_copied (kvec_fuel src) (heap_bytes h1)
                  (iter_init (scoutfs_kvec_init ptr len)) (iter_init src)
                  0 ld bs Hod Hos) as Hloop.
    rewrite !iter_init_addrs, Hdaddr in Hloop by done.
    unfold scoutfs_kvec_memcpy. rewrite Hloop; try congruence.
    - by eexists.
    - apply NoDup_seqZ.
    - intros a Ha Ha'. apply elem_of_seqZ in Ha. by apply (Hapart a).
    - unfold kvec_fuel.
      rewrite (kvec_bytes_length (heap_bytes h1) src bs Hbs1). lia.
    - lia. }
  unfold kmalloc. destruct (decide (len = 0)) as [E0|E0].
  { (* an empty key: no allocation is made *)
    rewrite decide_False by done.
    destruct (Hcopy h ZERO_SIZE_PTR []) as [r Hr0].
    { by rewrite E0. }
    { intros a _. lia. }
    { done. }
    rewrite Hr0, E0. simpl. eexists _, _, _, _. split; [done|].
    split; [by left|]. split; [|apply Hnull].
    apply scoutfs_kvec_kfree_init; [done|]. unfold kfree.
    rewrite decide_True by done. by destruct h. }
  destruct c as [[p init]|].
  2:{ (* the allocation fails *)
    rewrite decide_True by done. eexists _, _, _, _. split; [done|].
    split; [by right|]. split.
    - apply (kvec_kfree_loop_null h SCOUTFS_KVEC_NR []).
    - by apply Forall_replicate. }
  destruct Hfresh as (Hp & Hinit & Hnew).
  assert (p ≠ NULL) as Hpn by (unfold NULL, ZERO_SIZE_PTR in *; lia).
  rewrite decide_False by done.
  set (h1 := Heap (fill (heap_bytes h) p init) (<[p := len]> (heap_allocs h))).
  destruct (Hcopy h1 p init) as [r Hr1].
  { rewrite <- Hinit. apply fill_loads. }
  { intros a Ha Hin. rewrite kvec_bytes_loads in Hbs.
    destruct (loads_mapped _ _ _ a Hbs Ha) as [v Hv].
    rewrite Hnew in Hv; done. }
  { intros a Ha. apply fill_notin. lia. }
  rewrite Hr1. eexists _, _, _, _. split; [done|]. split; [by left|].
  split; [|apply Hnull].
  apply scoutfs_kvec_kfree_init; [done|]. unfold kfree.
  rewrite decide_False by lia. unfold h1. cbn [heap_allocs heap_bytes].
  rewrite lookup_insert_eq. f_equal. destruct h as [hb ha]. simpl in *.
  f_equal.
  - apply map_eq. intros a. rewrite lookup_unmap.
    rewrite Z2Nat.id by lia.
    destruct (decide (p <= a < p + len)) as [Hin|Hout].
    + by rewrite Hnew.
    + rewrite stores_notin by (rewrite elem_of_seqZ; lia).
      apply fill_notin. lia.
  - apply delete_insert_id. by apply (Hdead p init).
Qed.

End Scoutfs.

(** * The theorems at concrete inputs *)

Lemma ex_wf_2 p1 n1 p2 n2 :
  0 <= n1 < 2 ^ 64 → 0 <= n2 < 2 ^ 64 → kvec_wf 2 [Kvec p1 n1; Kvec p2 n2].
Proof.
  intros H1 H2. split; [reflexivity|].
  apply List.Forall_cons; [exact H1|].
  apply List.Forall_cons; [exact H2|]. apply List.Forall_nil.
Defined.

(** "a" against "abc", the latter split as "ab", "c". *)
Lemma scoutfs_kvec_memcmp_prefix_witness :
  scoutfs_kvec_memcmp 2 ex_mem ex_a ex_ab_c = Some (-1) ∧
  scoutfs_kvec_memcmp 2 ex_mem ex_ab_c ex_a = Some 1.
Proof.
  apply (scoutfs_kvec_memcmp_prefix 2 ex_mem ex_a ex_ab_c [x61] x62 [x63]).
  - apply ex_wf_2; lia.
  - apply ex_wf_2; lia.
  - reflexivity.
  - reflexivity.
Defined.

(** The vectors "ab", "c" and "a", "bc" compare equal. *)
Lemma scoutfs_kvec_memcmp_concat_witness :
  scoutfs_kvec_memcmp 2 ex_mem ex_ab_c ex_a_bc = Some 0 ∧
  scoutfs_kvec_memcmp 2 ex_mem ex_ab_c ex_bc = Some (cmp_bytes [x61; x62; x63] [x62; x63]) ∧
  scoutfs_kvec_memcmp 2 ex_mem ex_a_bc ex_bc
  = scoutfs_kvec_memcmp 2 ex_mem ex_ab_c ex_bc.
Proof.
  apply (scoutfs_kvec_memcmp_concat 2 ex_mem ex_ab_c ex_a_bc ex_bc ex_bc
           [x61; x62; x63] [x62; x63]);
    try (apply ex_wf_2; lia); reflexivity.
Defined.

Lemma ex_key_2 m p1 n1 p2 n2 bs :
  0 <= n1 < 2 ^ 64 → 0 <= n2 < 2 ^ 64 →
  kvec_bytes m [Kvec p1 n1; Kvec p2 n2] = Some bs →
  kvec_key 2 m [Kvec p1 n1; Kvec p2 n2].
Proof.
  intros H1 H2 Hbs. split; [by apply ex_wf_2|]. rewrite Hbs. by eexists.
Defined.

(** The ranges ["a", "abc"] and ["abc", "bc"] overlap: they share "abc". *)
Lemma scoutfs_kvec_cmp_overlap_witness :
  scoutfs_kvec_cmp_overlap 2 ex_mem ex_a ex_ab_c ex_a_bc ex_bc = Some 0 ∧
  ∃ k, kvec_in_range 2 ex_mem k ex_a ex_ab_c ∧
       kvec_in_range 2 ex_mem k ex_a_bc ex_bc.
Proof.
  destruct (scoutfs_kvec_cmp_overlap_spec 2 ex_mem ex_a ex_ab_c ex_a_bc ex_bc)
    as (bc & ad & res & Hbc & Had & Hres & Hform & Hrange).
  - apply (ex_key_2 _ _ _ _ _ [x61]); [lia|lia|reflexivity].
  - apply (ex_key_2 _ _ _ _ _ [x61; x62; x63]); [lia|lia|reflexivity].
  - apply (ex_key_2 _ _ _ _ _ [x61; x62; x63]); [lia|lia|reflexivity].
  - apply (ex_key_2 _ _ _ _ _ [x62; x63]); [lia|lia|reflexivity].
  - vm_compute in Hres. injection Hres as <-.
    destruct Hrange as (H0 & _ & _).
    + exists (-1). split; [reflexivity|lia].
    + exists (-1). split; [reflexivity|lia].
    + split; [reflexivity|]. by apply H0.
Defined.

(** The range ["a", "a"] lies to the left of ["abc", "bc"], and that one
    to the right of it. *)
Example scoutfs_kvec_cmp_overlap_sides :
  scoutfs_kvec_cmp_overlap 2 ex_mem ex_a ex_a ex_a_bc ex_bc = Some (-1) ∧
  scoutfs_kvec_cmp_overlap 2 ex_mem ex_a_bc ex_bc ex_a ex_a = Some 1.
Proof. split; reflexivity. Qed.

(** 0x00ffff is incremented to 0x010000, the carry crossing from the
    second buffer into the first, and decremented back. *)
Lemma scoutfs_kvec_be_inc_dec_witness :
  (∃ m1 bs1 m2,
     scoutfs_kvec_be_inc 2 ex_num_mem ex_num = Some m1 ∧
     kvec_bytes m1 ex_num = Some bs1 ∧
     length bs1 = 3%nat ∧
     be_value bs1 = (be_value [x00; xff; xff] + 1) mod 256 ^ 3 ∧
     scoutfs_kvec_be_dec 2 m1 ex_num = Some m2 ∧
     kvec_bytes m2 ex_num = Some [x00; xff; xff]) ∧
  (∃ m1 bs1 m2,
     scoutfs_kvec_be_dec 2 ex_num_mem ex_num = Some m1 ∧
     kvec_bytes m1 ex_num = Some bs1 ∧
     length bs1 = 3%nat ∧
     be_value bs1 = (be_value [x00; xff; xff] - 1) mod 256 ^ 3 ∧
     scoutfs_kvec_be_inc 2 m1 ex_num = Some m2 ∧
     kvec_bytes m2 ex_num = Some [x00; xff; xff]).
Proof.
  apply (scoutfs_kvec_be_inc_dec 2 ex_num_mem ex_num [x00; xff; xff]).
  - reflexivity.
  - apply List.Forall_cons; [simpl; lia|].
    apply List.Forall_cons; [simpl; lia|]. apply List.Forall_nil.
  - simpl. split; [|split; [apply List.Forall_nil|exact I]].
    apply List.Forall_cons; [|apply List.Forall_nil].
    unfold seg_disjoint. simpl. lia.
  - reflexivity.
Defined.

(** At the extreme the number wraps: ffffff is incremented to 000000, and
    decremented back to ffffff. *)
Example scoutfs_kvec_be_inc_wraps :
  let m := fill (fill ∅ 100 [xff; xff]) 200 [xff] in
  (scoutfs_kvec_be_inc 2 m ex_num ≫= λ m1, kvec_bytes m1 ex_num)
  = Some [x00; x00; x00] ∧
  (scoutfs_kvec_be_inc 2 m ex_num ≫= λ m1,
   scoutfs_kvec_be_dec 2 m1 ex_num ≫= λ m2, kvec_bytes m2 ex_num)
  = Some [xff; xff; xff].
Proof. split; reflexivity. Qed.

Example scoutfs_kvec_be_inc_carries :
  (scoutfs_kvec_be_inc 2 ex_num_mem ex_num ≫= λ m1, kvec_bytes m1 ex_num)
  = Some [x01; x00; x00].
Proof. reflexivity. Qed.

(** Segments that share a buffer are not restored: with the byte ff at 100
    named by both segments, the increment leaves 01 there and the
    decrement 00. *)
Example scoutfs_kvec_be_inc_dec_aliased :
  let m := fill ∅ 100 [xff] in
  let kv := [Kvec 100 1; Kvec 100 1] in
  (scoutfs_kvec_be_inc 2 m kv ≫= λ m1,
   scoutfs_kvec_be_dec 2 m1 kv ≫= λ m2, kvec_bytes m2 kv)
  = Some [x00; x00].
Proof. reflexivity. Qed.

(** "ab", "c" is flattened into a new buffer of 3 bytes at 1000. *)
Lemma scoutfs_kvec_dup_flatten_witness :
  ∃ h' dst,
    scoutfs_kvec_dup_flatten 2 ex_heap (Some (1000, [x00; x00; x00])) ex_ab_c
    = Some (h', dst, 0) ∧
    dst = [Kvec 1000 3; Kvec NULL 0] ∧
    kvec_bytes (heap_bytes h') dst = Some [x61; x62; x63] ∧
    scoutfs_kvec_memcmp 2 (heap_bytes h') dst ex_ab_c = Some 0 ∧
    scoutfs_kvec_length 2 dst = scoutfs_kvec_length 2 ex_ab_c ∧
    kvec_bytes (heap_bytes h') ex_ab_c = Some [x61; x62; x63].
Proof.
  destruct (scoutfs_kvec_dup_flatten_spec 2 ex_heap
              (Some (1000, [x00; x00; x00])) ex_ab_c [x61; x62; x63])
    as (h' & dst & ret & E & [(_ & Hc & _)|(-> & ptr & Hdst & H)]).
  - lia.
  - apply ex_wf_2; lia.
  - simpl. lia.
  - reflexivity.
  - split; [unfold ZERO_SIZE_PTR; lia|]. split; [reflexivity|].
    intros a Ha. change (scoutfs_kvec_length 2 ex_ab_c) with 3 in Ha.
    assert (a = 1000 ∨ a = 1001 ∨ a = 1002) as [->|[->| ->]] by lia;
      reflexivity.
  - discriminate Hc.
  - exists h', dst. destruct H as (_ & _ & _ & H1 & H2 & H3 & H4 & _).
    split_and!; try done.
    vm_compute in E. by injection E as _ <-.
Defined.

(** The vector "ab", "c" owns its two buffers and is freed. *)
Lemma scoutfs_kvec_kfree_witness :
  ∃ h' kv',
    scoutfs_kvec_kfree 2 ex_heap ex_ab_c = Some (h', kv') ∧
    Forall (λ s, iov_base s = NULL) kv' ∧
    iov_len <$> kv' = [2; 1] ∧
    scoutfs_kvec_length 2 kv' = scoutfs_kvec_length 2 ex_ab_c ∧
    heap_allocs h' !! 100 = None ∧ heap_allocs h' !! 200 = None ∧
    heap_allocs h' !! 300 = Some 1.
Proof.
  destruct (scoutfs_kvec_kfree_spec 2 ex_heap ex_ab_c)
    as (h' & kv' & E & Hnull & Hlens & Hlen & Hfreed & Hkept).
  - reflexivity.
  - simpl. split_and!; try exact I.
    + right. split; [by eexists|].
      apply List.Forall_cons; [simpl; lia|apply List.Forall_nil].
    + right. split; [by eexists|apply List.Forall_nil].
  - exists h', kv'. split_and!; try done.
    + apply (Hfreed (Kvec 100 2)); [by left|unfold ZERO_SIZE_PTR; simpl; lia].
    + apply (Hfreed (Kvec 200 1));
        [right; by left|unfold ZERO_SIZE_PTR; simpl; lia].
    + rewrite Hkept; [reflexivity|].
      intros Hin. simpl in Hin. inversion Hin as [|? ? ? Hin']; subst.
      inversion Hin' as [|? ? ? Hin'']; subst. inversion Hin''.
Defined.

(** The claim of C8 fails on that vector: freed, its segments keep the
    lengths 2 and 1 and its length is still 3. *)
Lemma scoutfs_kvec_kfree_keeps_lengths :
  ∃ h' kv',
    scoutfs_kvec_kfree 2 ex_heap ex_ab_c = Some (h', kv') ∧
    kv' = [Kvec NULL 2; Kvec NULL 1] ∧
    ¬ Forall (λ s, iov_len s = 0) kv' ∧
    scoutfs_kvec_length 2 kv' = 3 ∧
    scoutfs_kvec_length 2 kv' ≠ 0.
Proof.
  eexists _, _. split; [reflexivity|]. split; [reflexivity|].
  split_and!; [|reflexivity|done].
  intros H. inversion H as [|? ? H0 _]; subst. simpl in H0. lia.
Qed.

(** In a ring of two slots at blocks 16 and 17, a super block in the last
    slot with sequence number 5 moves to the first slot with number 6. *)
Lemma scoutfs_advance_dirty_super_witness :
  let sb' := scoutfs_advance_dirty_super 16 2 ex_sb_none in
  let new := super (s_fs_info sb') in
  stable_super (s_fs_info sb') = ex_super 17 5 1024 ∧
  hdr_blkno (hdr new) = 16 ∧
  hdr_seq (hdr new) = 6 ∧
  hdr_blkno (hdr new) ≠ hdr_blkno (hdr (stable_super (s_fs_info sb'))) ∧
  s_bdev sb' = s_bdev ex_sb_none ∧
  super_id new = 7 ∧ hdr_crc (hdr new) = 0 ∧
  total_blocks new = 1024 ∧ uuid new = ex_uuid.
Proof.
  apply (scoutfs_advance_dirty_super_spec 16 2 ex_sb_none 1);
    [lia|lia|lia|lia|reflexivity|simpl; lia].
Defined.

(** 1000 free blocks and 42 as the last inode number. *)
Lemma scoutfs_statfs_witness :
  ∃ kst',
    scoutfs_statfs 1396920149 4096 255 (λ _ _, (0, 1000)) (λ _, 42)
      ex_sb_none ex_kst = (0, kst') ∧
    f_bfree kst' = 1000 ∧
    f_ffree kst' = f_bfree kst' * 17 ∧
    f_files kst' = f_ffree kst' + 42 ∧
    wrap32 (f_fsid kst').1
      = Z.lxor (le32 x01 x02 x03 x04) (le32 x10 x20 x30 x40) ∧
    wrap32 (f_fsid kst').2
      = Z.lxor (le32 xaa xbb xcc xdd) (le32 x0f x0e x0d x0c).
Proof.
  apply (scoutfs_statfs_spec 1396920149 4096 255 (λ _ _, (0, 1000))
           (λ _, 42) ex_sb_none ex_kst 1000);
    [reflexivity|lia|lia|lia|reflexivity].
Defined.

Example scoutfs_statfs_counts :
  let kst' := (scoutfs_statfs 1396920149 4096 255 (λ _ _, (0, 1000))
                 (λ _, 42) ex_sb_none ex_kst).2 in
  f_ffree kst' = 17000 ∧ f_files kst' = 17042 ∧
  f_fsid kst' = (1144201745, -775834203).
Proof. by vm_compute. Qed.

(** Two valid replicas with the same sequence number: slot 0 is used. *)
Lemma read_supers_first_of_equals_witness :
  read_supers 16 2 7 ex_sb_tie =
    (0, Sb (s_bdev ex_sb_tie) (SbInfo (ex_super 16 5 1024) (ex_super 16 5 1024)),
     [Ev_block_read 16; Ev_block_read 17; Ev_info_using 0 5]).
Proof.
  apply (read_supers_first_of_equals 16 2 7 ex_sb_tie 0 (ex_super 16 5 1024)).
  - lia.
  - split; reflexivity.
  - intros j s' Hj [Hr _].
    assert (j = 0 ∨ j = 1) as [-> | ->] by lia;
      vm_compute in Hr; injection Hr as <-; simpl; lia.
  - intros j s' Hj. lia.
Defined.

(** Slot 1 holds the only valid candidate: it is selected when the slots
    are scanned as 1, 0 as well. *)
Lemma read_supers_spec_witness :
  (read_supers_finish ex_sb_one (read_supers_scan 16 7 ex_sb_one [1; 0])).1
  = (0, Sb (s_bdev ex_sb_one)
          (SbInfo (ex_super 17 5 1024) (ex_super 17 5 1024))).
Proof.
  destruct (read_supers_spec 16 2 7 ex_sb_one)
    as (ret & sb' & tr & _ & _ & _ & _ & Hany).
  apply (Hany [1; 0] 1 (ex_super 17 5 1024)).
  - apply Permutation_swap.
  - lia.
  - split; reflexivity.
  - intros j s' Hj Hne [Hr Hid].
    assert (j = 0) as -> by lia. vm_compute in Hr. injection Hr as <-.
    discriminate Hid.
Defined.

(** A slot with another identifier is warned about and skipped; with no
    readable slot at all the mount fails with -EINVAL. *)
Example read_supers_skips_invalid :
  read_supers 16 2 7 ex_sb_one =
    (0, Sb (s_bdev ex_sb_one) (SbInfo (ex_super 17 5 1024) (ex_super 17 5 1024)),
     [Ev_block_read 16; Ev_warn_id 0 8; Ev_block_read 17; Ev_info_using 1 5]).
Proof. reflexivity. Qed.

Example read_supers_no_candidate :
  read_supers 16 2 7 ex_sb_none =
    (-22, ex_sb_none,
     [Ev_block_read 16; Ev_warn_read 0; Ev_block_read 17; Ev_warn_read 1;
      Ev_err_no_super]).
Proof. reflexivity. Qed.

(** ** Further properties at concrete inputs *)

Lemma ex_key_a : kvec_key 2 ex_mem ex_a.
Proof. apply (ex_key_2 _ _ _ _ _ [x61]); [lia|lia|reflexivity]. Defined.

Lemma ex_key_ab_c : kvec_key 2 ex_mem ex_ab_c.
Proof.
  apply (ex_key_2 _ _ _ _ _ [x61; x62; x63]); [lia|lia|reflexivity].
Defined.

Lemma ex_key_a_bc : kvec_key 2 ex_mem ex_a_bc.
Proof.
  apply (ex_key_2 _ _ _ _ _ [x61; x62; x63]); [lia|lia|reflexivity].
Defined.

Lemma ex_key_bc : kvec_key 2 ex_mem ex_bc.
Proof. apply (ex_key_2 _ _ _ _ _ [x62; x63]); [lia|lia|reflexivity]. Defined.

(** "a" against "abc" is -1, "abc" against "a" is 1. *)
Lemma scoutfs_kvec_memcmp_antisym_witness :
  ∃ r,
    scoutfs_kvec_memcmp 2 ex_mem ex_a ex_ab_c = Some r ∧
    scoutfs_kvec_memcmp 2 ex_mem ex_ab_c ex_a = Some (- r) ∧
    scoutfs_kvec_memcmp 2 ex_mem ex_a ex_a = Some 0.
Proof.
  apply (scoutfs_kvec_memcmp_antisym 2 ex_mem ex_a ex_ab_c);
    [exact ex_key_a|exact ex_key_ab_c].
Defined.

(** "a" is below "abc", which is below "bc": "a" is below "bc". *)
Lemma scoutfs_kvec_memcmp_trans_witness :
  kvec_lt 2 ex_mem ex_a ex_bc.
Proof.
  destruct (scoutfs_kvec_memcmp_trans 2 ex_mem ex_a ex_ab_c ex_bc
              ex_key_a ex_key_ab_c ex_key_bc) as (_ & Hlt & _).
  apply Hlt.
  - exists (-1). split; [reflexivity|lia].
  - exists (-1). split; [reflexivity|lia].
Defined.

(** "ab", "c" and "a", "bc" hold the same bytes. *)
Lemma scoutfs_kvec_memcmp_zero_witness :
  scoutfs_kvec_memcmp 2 ex_mem ex_ab_c ex_a_bc = Some 0.
Proof.
  apply (scoutfs_kvec_memcmp_zero 2 ex_mem ex_ab_c ex_a_bc
           ex_key_ab_c ex_key_a_bc).
  reflexivity.
Defined.


(** "a" is below "abc": it replaces it as the minimum. *)
Lemma scoutfs_kvec_clone_less_witness :
  ∃ res,
    scoutfs_kvec_clone_less 2 ex_mem ex_ab_c ex_a = Some res ∧
    (res = ex_ab_c ∨ res = ex_a) ∧
    kvec_le 2 ex_mem res ex_a ∧
    (scoutfs_kvec_length 2 ex_ab_c ≠ 0 → kvec_le 2 ex_mem res ex_ab_c) ∧
    (scoutfs_kvec_length 2 ex_ab_c = 0 → res = ex_a).
Proof.
  apply (scoutfs_kvec_clone_less_spec 2 ex_mem ex_ab_c ex_a);
    [exact ex_key_ab_c|exact ex_key_a].
Defined.

Example scoutfs_kvec_clone_less_empty :
  scoutfs_kvec_clone_less 2 ex_mem [Kvec NULL 0; Kvec NULL 0] ex_bc
  = Some ex_bc ∧
  scoutfs_kvec_clone_less 2 ex_mem ex_a ex_bc = Some ex_a.
Proof. split; reflexivity. Qed.

Lemma ex_ab_c_apart :
  NoDup (kvec_addrs ex_ab_c) ∧
  ∀ a, a ∈ kvec_addrs ex_ab_c → a ∉ kvec_addrs ex_bc.
Proof.
  change (kvec_addrs ex_ab_c) with [100; 101; 200].
  change (kvec_addrs ex_bc) with [400; 401]. split.
  - apply (bool_decide_unpack _). reflexivity.
  - apply list.Forall_forall. apply (bool_decide_unpack _). reflexivity.
Defined.

(** "bc" copied over "ab", "c": two bytes are copied, the third stays. *)
Lemma scoutfs_kvec_memcpy_witness :
  ∃ m',
    scoutfs_kvec_memcpy 2 ex_mem ex_ab_c ex_bc = Some (m', 2) ∧
    kvec_bytes m' ex_ab_c = Some [x62; x63; x63] ∧
    kvec_bytes m' ex_bc = Some [x62; x63] ∧
    (∀ a, a ∉ kvec_addrs ex_ab_c → m' !! a = ex_mem !! a).
Proof.
  apply (scoutfs_kvec_memcpy_spec 2 ex_mem ex_ab_c ex_bc
           [x61; x62; x63] [x62; x63]).
  - apply ex_wf_2; lia.
  - apply ex_wf_2; lia.
  - reflexivity.
  - reflexivity.
  - exact (proj1 ex_ab_c_apart).
  - exact (proj2 ex_ab_c_apart).
  - simpl. lia.
Defined.

(** The same copy with truncation: dst becomes "bc", in its first
    buffer. *)
Lemma scoutfs_kvec_memcpy_truncate_witness :
  ∃ m' dst',
    scoutfs_kvec_memcpy_truncate 2 ex_mem ex_ab_c ex_bc = Some (m', dst', 2) ∧
    dst' = [Kvec 100 2; Kvec 200 0] ∧
    kvec_bytes m' dst' = Some [x62; x63] ∧
    scoutfs_kvec_length 2 dst' = 2 ∧
    scoutfs_kvec_memcmp 2 m' dst' ex_bc = Some 0.
Proof.
  destruct (scoutfs_kvec_memcpy_truncate_spec 2 ex_mem ex_ab_c ex_bc
              [x61; x62; x63] [x62; x63])
    as (m' & dst' & E & _ & _ & Hb & Hlen & Hcmp & _).
  - apply ex_wf_2; lia.
  - apply ex_wf_2; lia.
  - reflexivity.
  - reflexivity.
  - exact (proj1 ex_ab_c_apart).
  - exact (proj2 ex_ab_c_apart).
  - simpl. lia.
  - simpl. lia.
  - exists m', dst'. split_and!; try done.
    + vm_compute in E. by injection E as _ <-.
    + apply Hcmp. simpl. lia.
Defined.

(** A key buffer of 4 bytes at 1000 is allocated, zeroed, and freed. *)
Lemma scoutfs_kvec_alloc_key_witness :
  ∃ h1 kv kv',
    scoutfs_kvec_alloc_key 2 4 ex_heap (Some (1000, [x01; x02; x03; x04]))
    = (h1, kv, 0) ∧
    kv = [Kvec 1000 4; Kvec NULL 0] ∧
    kvec_bytes (heap_bytes h1) kv = Some [x00; x00; x00; x00] ∧
    scoutfs_kvec_kfree 2 h1 kv = Some (ex_heap, kv').
Proof.
  destruct (scoutfs_kvec_alloc_key_spec 2 4 ex_heap
              (Some (1000, [x01; x02; x03; x04])))
    as (h1 & kv & ret & E & [(_ & Hc & _)|(-> & ptr & Hkv & H)] & kv' & Hfree
        & _).
  - lia.
  - lia.
  - split; [unfold ZERO_SIZE_PTR; lia|]. split; [reflexivity|].
    intros a Ha.
    assert (a = 1000 ∨ a = 1001 ∨ a = 1002 ∨ a = 1003)
      as [->|[->|[->| ->]]] by lia; reflexivity.
  - intros p init [= <- <-]. reflexivity.
  - discriminate Hc.
  - exists h1, kv, kv'. destruct H as (_ & _ & _ & Hb & _).
    assert (kv = [Kvec 1000 4; Kvec NULL 0]) as Ekv.
    { vm_compute in E. by injection E as _ <-. }
    split_and!; try done.
Defined.

(** With 255 as the greatest key type, the key 0xff is above "bc". *)
Lemma scoutfs_kvec_set_max_key_witness :
  ∃ m' kv',
    scoutfs_kvec_set_max_key 2 255 ex_mem ex_ab_c = Some (m', kv') ∧
    kvec_bytes m' kv' = Some [xff] ∧
    scoutfs_kvec_init_key 2 4 kv' = Some [Kvec 100 4; Kvec NULL 0] ∧
    kvec_lt 2 m' ex_bc kv'.
Proof.
  destruct (scoutfs_kvec_set_max_key_spec 2 4 255 ex_mem ex_ab_c (Kvec 100 2))
    as (m' & kv' & E & _ & Hb & _ & Hinit & _ & Hord).
  - lia.
  - lia.
  - reflexivity.
  - by eexists.
  - exists m', kv'. split_and!; try done.
    apply (Hord ex_bc x62 [x63]).
    + apply ex_wf_2; lia.
    + vm_compute in E. injection E as <- _. reflexivity.
    + reflexivity.
Defined.

(** ["a", "a"] is to the left of ["abc", "bc"], which is to its right. *)
Lemma scoutfs_kvec_cmp_overlap_antisym_witness :
  ∃ r,
    scoutfs_kvec_cmp_overlap 2 ex_mem ex_a ex_a ex_a_bc ex_bc = Some r ∧
    scoutfs_kvec_cmp_overlap 2 ex_mem ex_a_bc ex_bc ex_a ex_a = Some (- r) ∧
    scoutfs_kvec_cmp_overlap 2 ex_mem ex_a ex_a ex_a ex_a = Some 0.
Proof.
  apply (scoutfs_kvec_cmp_overlap_antisym 2 ex_mem ex_a ex_a ex_a_bc ex_bc
           ex_key_a ex_key_a ex_key_a_bc ex_key_bc).
  - exists 0. split; [reflexivity|lia].
  - exists (-1). split; [reflexivity|lia].
Defined.

(** Three advances in a ring of two slots, from the last one. *)
Lemma scoutfs_advance_dirty_super_iter_witness :
  let sb' := Nat.iter 3 (scoutfs_advance_dirty_super 16 2) ex_sb_none in
  let new := super (s_fs_info sb') in
  hdr_blkno (hdr new) = 16 + (1 + Z.of_nat 3) mod 2 ∧
  16 <= hdr_blkno (hdr new) < 16 + 2 ∧
  (Z.of_nat 3 = 2 →
   hdr_blkno (hdr new) = hdr_blkno (hdr (super (s_fs_info ex_sb_none)))) ∧
  hdr_seq (hdr new) = hdr_seq (hdr (super (s_fs_info ex_sb_none))) + Z.of_nat 3 ∧
  s_bdev sb' = s_bdev ex_sb_none.
Proof.
  apply (scoutfs_advance_dirty_super_iter 16 2 ex_sb_none 1 3);
    [lia|lia|lia|lia|reflexivity|simpl; lia|simpl; lia].
Defined.

Lemma ex_sb_tie_mounted :
  read_supers 16 2 7 ex_sb_tie
  = (0, ex_sb_mounted, [Ev_block_read 16; Ev_block_read 17; Ev_info_using 0 5]).
Proof. reflexivity. Defined.

(** The replica of slot 0, number 5, is selected; the commit writes number
    6 to slot 1, and the next mount selects it. *)
Lemma scoutfs_write_dirty_super_remount_witness :
  let sb2 := scoutfs_advance_dirty_super 16 2 ex_sb_mounted in
  ∃ sb3 image tr',
    scoutfs_write_dirty_super ex_crc sb2 (Wr_sync 0 None) = (0, sb3) ∧
    s_fs_info sb3 = s_fs_info sb2 ∧
    image = set_crc (super (s_fs_info sb2)) (ex_crc (super (s_fs_info sb2))) ∧
    hdr_seq (hdr image) = hdr_seq (hdr (super (s_fs_info ex_sb_mounted))) + 1 ∧
    read_supers 16 2 7 (Sb (s_bdev sb3) ex_sbi)
    = (0, Sb (s_bdev sb3) (SbInfo image image), tr').
Proof.
  apply (scoutfs_write_dirty_super_remount 16 2 7 ex_crc ex_sb_tie
           ex_sb_mounted [Ev_block_read 16; Ev_block_read 17; Ev_info_using 0 5]
           0 None ex_sbi);
    [lia|lia|lia|exact ex_sb_tie_mounted|lia|reflexivity|simpl; lia].
Defined.

(** The write to slot 1 fails and leaves it unreadable: the next mount
    selects the replica of slot 0 again. *)
Lemma scoutfs_write_dirty_super_crash_witness :
  let sb2 := scoutfs_advance_dirty_super 16 2 ex_sb_mounted in
  ∃ sb3 tr',
    scoutfs_write_dirty_super ex_crc sb2 (Wr_sync (-5) None) = (-5, sb3) ∧
    s_bdev sb3 !! 16 = Some (ex_super 16 5 1024) ∧
    read_supers 16 2 7 (Sb (s_bdev sb3) ex_sbi)
    = (0, Sb (s_bdev sb3) (SbInfo (ex_super 16 5 1024) (ex_super 16 5 1024)),
       tr').
Proof.
  destruct (scoutfs_write_dirty_super_crash 16 2 7 ex_crc ex_sb_tie
              ex_sb_mounted
              [Ev_block_read 16; Ev_block_read 17; Ev_info_using 0 5]
              (Wr_sync (-5) None) ex_sbi)
    as (ret & sb3 & E & _ & Hst & Hblk & Hre).
  - lia.
  - lia.
  - lia.
  - intros i s Hi [Hr _].
    assert (i = 0 ∨ i = 1) as [-> | ->] by lia;
      vm_compute in Hr; injection Hr as <-; reflexivity.
  - exact ex_sb_tie_mounted.
  - destruct Hre as [_ [tr' Hre]]; [split; [lia|exact I]|].
    cbv zeta. exists sb3, tr'. split_and!.
    + rewrite E. f_equal. vm_compute in E. by injection E as <- _.
    + rewrite Hst in Hblk. exact Hblk.
    + rewrite Hst in Hre. exact Hre.
Defined.

(** "ab", "c" is flattened into a new buffer at 1000, which is then
    freed: the heap is as before. *)
Lemma scoutfs_kvec_dup_flatten_kfree_witness :
  ∃ h1 dst ret kv',
    scoutfs_kvec_dup_flatten 2 ex_heap (Some (1000, [x00; x00; x00])) ex_ab_c
    = Some (h1, dst, ret) ∧
    (ret = 0 ∨ ret = - ENOMEM) ∧
    scoutfs_kvec_kfree 2 h1 dst = Some (ex_heap, kv') ∧
    Forall (λ s, iov_base s = NULL) kv'.
Proof.
  apply (scoutfs_kvec_dup_flatten_kfree 2 ex_heap
           (Some (1000, [x00; x00; x00])) ex_ab_c [x61; x62; x63]).
  - lia.
  - apply ex_wf_2; lia.
  - simpl. lia.
  - reflexivity.
  - split; [unfold ZERO_SIZE_PTR; lia|]. split; [reflexivity|].
    intros a Ha. change (scoutfs_kvec_length 2 ex_ab_c) with 3 in Ha.
    assert (a = 1000 ∨ a = 1001 ∨ a = 1002) as [->|[->| ->]] by lia;
      reflexivity.
  - intros p init [= <- <-]. reflexivity.
Defined.
